(** * go-slim/vm: the expression compiler and evaluator

    A shallow embedding of package [vm]: the goyacc tables and the driver
    [Parse] of [parser.go], and [VM], [deref], [evalAndDerefRv], [Eval] and
    [Compile].

    Host values are the values Go's [reflect] package lets the evaluator
    inspect.  Library code that is not part of the package (formatting and
    parsing of floating-point numbers, the formatting of composite values,
    the bodies and the signatures of host functions and methods) is taken as
    a parameter, the record [Host]. *)

From Stdlib Require Import ZArith List String Ascii Bool Lia.
From Stdlib Require Import DecimalString DecimalZ DecimalPos SpecFloat.
From stdpp Require Import base gmap strings.

Import ListNotations.
#[local] Set Warnings "-register-all".
Local Open Scope string_scope.
Local Open Scope Z_scope.

(** ** Host values *)

(** [reflect.Kind], as far as the evaluator tells kinds apart.  [KOther]
    stands for every kind the evaluator has no case for (unsigned and small
    integers, arrays, channels, ...). *)
Inductive Kind : Type :=
| KInvalid | KBool | KInt | KInt32 | KInt64 | KFloat32 | KFloat64
| KString | KFunc | KStruct | KMap | KSlice | KPtr | KInterface | KOther.

Definition Kind_eqb (a b : Kind) : bool :=
  match a, b with
  | KInvalid, KInvalid | KBool, KBool | KInt, KInt | KInt32, KInt32
  | KInt64, KInt64 | KFloat32, KFloat32 | KFloat64, KFloat64
  | KString, KString | KFunc, KFunc | KStruct, KStruct | KMap, KMap
  | KSlice, KSlice | KPtr, KPtr | KInterface, KInterface
  | KOther, KOther => true
  | _, _ => false
  end.

(** A host function or method is named by an identifier; the host runs it. *)
Definition func_id : Type := string.

(** The method sets of a defined type, as [reflect] shows them: the
    exported methods declared with a value receiver and those declared with
    a pointer receiver.  A struct type that is not defined has none. *)
Record TypeInfo : Type := mkType {
  tname : string;
  vmethods : list (string * func_id);
  pmethods : list (string * func_id)
}.

(** The key type of a map that is not a [map[string]T], as far as a key of
    type [string] goes: [reflect.Value.MapIndex] takes a key that is
    assignable to the key type of the map. *)
Inductive KeyType : Type :=
| KeyIface    (* an interface type without methods: a string is assignable *)
| KeyOther.   (* every other type but [string]: a string is not assignable *)

(** A value as [reflect.Value] sees it.  [VNil] is the nil interface, whose
    [reflect.ValueOf] is the zero (invalid) Value.  The values [VBool] to
    [VFunc], [VMap], [VMapOf], [VSlice] and [VOther] are of a predeclared
    type or of a type that is not defined, and so have no methods.
    - A struct lists its fields with their names, whether the field is
      exported, and their contents, and has the methods of its type.
    - [VMap] is a [map[string]T]; [VMapOf] a map with another key type,
      with its keys.
    - [VPtr] is a pointer of a type [*T]: to a value, or nil where [T] has no
      methods; [VNilPtr t] is the nil pointer of type [*T] for the defined
      type [T] that [t] describes.
    - [VDefined t u] is a value of a defined type that is not a struct type
      ([type Celsius float64], [time.Duration], [http.HandlerFunc]): [u] is
      the value at the underlying type, a boolean, a number, a string, a
      function, a map, a slice or an [VOther].  A defined pointer type has no
      methods and is a [VPtr]. *)
Inductive value : Type :=
| VNil
| VBool (b : bool)
| VInt (n : Z)
| VInt32 (n : Z)
| VInt64 (n : Z)
| VFloat32 (f : spec_float)
| VFloat64 (f : spec_float)
| VString (s : string)
| VFunc (f : func_id)
| VStruct (t : TypeInfo) (fields : list (string * (bool * value)))
| VMap (entries : list (string * value))
| VMapOf (k : KeyType) (entries : list (value * value))
| VSlice (elems : list value)
| VPtr (target : option value)
| VNilPtr (t : TypeInfo)
| VIface (dyn : option value)
| VDefined (t : TypeInfo) (u : value)
| VOther (descr : string).

(** The kind of a value whose type is not defined. *)
Definition plain_kind (v : value) : Kind :=
  match v with
  | VNil => KInvalid
  | VBool _ => KBool
  | VInt _ => KInt
  | VInt32 _ => KInt32
  | VInt64 _ => KInt64
  | VFloat32 _ => KFloat32
  | VFloat64 _ => KFloat64
  | VString _ => KString
  | VFunc _ => KFunc
  | VStruct _ _ => KStruct
  | VMap _ | VMapOf _ _ => KMap
  | VSlice _ => KSlice
  | VPtr _ | VNilPtr _ => KPtr
  | VIface _ => KInterface
  | VDefined _ _ | VOther _ => KOther
  end.

(** [rv.Kind()]: the kind of a defined type is that of its underlying type.
    ([VDefined] over nil, a pointer, an interface or another [VDefined]
    stands for no value of Go; its kind is [KOther].) *)
Definition kind_of (v : value) : Kind :=
  match v with
  | VDefined _ u =>
    match plain_kind u with
    | KInvalid | KPtr | KInterface => KOther
    | k => k
    end
  | _ => plain_kind v
  end.

(** The value at the underlying type. *)
Definition underlying (v : value) : value :=
  match v with
  | VDefined _ u => u
  | _ => v
  end.

(** [rv.IsValid()] *)
Definition IsValid (v : value) : bool :=
  match v with VNil => false | _ => true end.

(** ** Errors, panics and results *)

Inductive NumErrKind : Type := ErrSyntax | ErrRange.

(** The error values the package produces or passes on: [errors.New] and
    [fmt.Errorf] with their message, [*strconv.NumError], and an error value
    returned by a host function. *)
Inductive error : Type :=
| ErrNew (msg : string)
| ErrNum (fn : string) (num : string) (k : NumErrKind)
| ErrHost (v : value).

(** Run-time panics that leave [Eval]; none is recovered in the package. *)
Inductive panic : Type :=
| DivideByZero        (* runtime error: integer divide by zero *)
| IndexOutOfRange     (* reflect: slice index out of range *)
| CallNonFunc         (* reflect: call of reflect.Value.Call on a non-func Value *)
| NilTypeKind         (* reflect.TypeOf(nil).Kind(): nil pointer dereference *)
| NotInt64            (* interface conversion: interface {} is T, not int64 *)
| KeyNotAssignable    (* reflect.Value.MapIndex: value of type string is not
                         assignable to the key type *)
| UnexportedField     (* reflect.Value.Interface on an unexported field *)
| HostPanic (msg : string).

(** What a call of [Eval] does: it returns the pair [(interface{}, error)]
    or it panics. *)
Inductive outcome : Type :=
| Ret (v : value) (err : option error)
| Panic (p : panic).

(** What [reflect.Value.Call] does: the returned values, each as its
    [Interface()] gives it, or a panic. *)
Inductive call_result : Type :=
| Returns (rets : list value)
| CallPanics (p : panic).

(** ** The host: library and application code outside the package *)

(** What the host does is a function of the values it is given: host code
    that reads or changes the VM it is called from is not described. *)
Record Host : Type := mkHost {
  (* reflect.Value.Call on the function value named [f] *)
  host_call : func_id -> list value -> call_result;
  (* reflect.Value.Call on the method [f] bound to a receiver *)
  host_method : func_id -> value -> list value -> call_result;
  (* whether the method [f] is declared with the signature [func() string],
     that of the method [Error] of the interface [error] *)
  error_method : func_id -> bool;
  (* strconv.FormatFloat(f, 'g', -1, bitSize), which fmt uses for %v *)
  FormatFloat : Z -> spec_float -> string;
  (* strconv.ParseFloat(s, 64) *)
  ParseFloat : string -> spec_float + error;
  (* fmt.Sprint on every other value than nil and those of the types bool,
     int, int32, int64, float32, float64 and string: a composite value, a
     pointer, a value of a defined type *)
  SprintComposite : value -> string
}.

(** ** Integers and their text *)

Definition wrap64 (z : Z) : Z :=
  let m := z mod 2 ^ 64 in
  if m <? 2 ^ 63 then m else m - 2 ^ 64.

Definition MinInt64 : Z := - 2 ^ 63.
Definition MaxInt64 : Z := 2 ^ 63 - 1.

Definition in_int64 (z : Z) : Prop := MinInt64 <= z <= MaxInt64.

(** [strconv.FormatInt(n, 10)]: what fmt prints for an integer. *)
Definition FormatInt (n : Z) : string :=
  NilZero.string_of_int (Z.to_int n).

(** [strconv.ParseInt(s, 10, 64)]: an optional sign, then one or more decimal
    digits; a value outside int64 is a range error. *)
Definition ParseInt (s0 : string) : Z + error :=
  let syntax := inr (ErrNum "ParseInt" s0 ErrSyntax) in
  let '(neg, s) :=
    match s0 with
    | String "+"%char r => (false, r)
    | String "-"%char r => (true, r)
    | _ => (false, s0)
    end in
  match s with
  | EmptyString => syntax
  | _ =>
    match NilEmpty.uint_of_string s with
    | None => syntax
    | Some d =>
      let un := Z.of_N (N.of_uint d) in
      if negb neg && (2 ^ 63 <=? un) then inr (ErrNum "ParseInt" s0 ErrRange)
      else if neg && (2 ^ 63 <? un) then inr (ErrNum "ParseInt" s0 ErrRange)
      else inl (if neg then - un else un)
    end
  end.

(** Go's [/] on int64: truncated division; [MinInt64 / -1] wraps around. *)
Definition int64_quo (a b : Z) : Z := wrap64 (Z.quot a b).

(** ** Floats: binary64 *)

Definition f64_add : spec_float -> spec_float -> spec_float := SFadd 53 1024.
Definition f64_sub : spec_float -> spec_float -> spec_float := SFsub 53 1024.
Definition f64_mul : spec_float -> spec_float -> spec_float := SFmul 53 1024.
Definition f64_div : spec_float -> spec_float -> spec_float := SFdiv 53 1024.

Definition is_zero (f : spec_float) : bool :=
  match f with S754_zero _ => true | _ => false end.

Definition is_inf_or_nan (f : spec_float) : bool :=
  match f with S754_infinity _ | S754_nan => true | _ => false end.

(** ** The abstract syntax ([Expr]) *)

(** The node types the parser builds.  [NilExpr] is the nil value of the
    interface type [Expr], the zero value of [yySymType.expr]. *)
Inductive Expr : Type :=
| NilExpr
| IdentExpr (Name : string)
| LitExpr (Value : value)
| BinOpExpr (Op : string) (LHS RHS : Expr)
| CallExpr (Name : string) (Exprs : list Expr)
| MethodCallExpr (LHS : Expr) (Name : string) (Exprs : list Expr)
| MemberExpr (LHS : Expr) (Name : string)
| ItemExpr (LHS Index : Expr)
| ForExpr (V1 V2 : string) (RHS : Expr).

(** ** The VM *)

Record VM : Type := mkVM { env : gmap string value }.

Definition New : VM := mkVM ∅.

Definition Set_ (v : VM) (n : string) (vv : value) : VM :=
  mkVM (<[n := vv]> (env v)).

Definition Get (v : VM) (n : string) : value * bool :=
  match env v !! n with
  | Some val => (val, true)
  | None => (VNil, false)
  end.

(** [deref]: while the kind is [Interface] or [Ptr], [rv = rv.Elem()];
    [Elem] of a nil pointer or interface is the zero Value, which ends the
    loop and is not valid. *)
Fixpoint deref (rv : value) : value + error :=
  match rv with
  | VPtr target | VIface target =>
    match target with
    | Some x => deref x
    | None => inr (ErrNew "cannot reference value")
    end
  | VNilPtr _ => inr (ErrNew "cannot reference value")
  | _ =>
    if negb (IsValid rv) then inr (ErrNew "cannot reference value")
    else inl rv
  end.

(** Reflection on the values of the model. *)

Fixpoint assoc {A : Type} (n : string) (l : list (string * A)) : option A :=
  match l with
  | [] => None
  | (k, x) :: l' => if String.eqb k n then Some x else assoc n l'
  end.

(** [rv.FieldByName(n)] on a struct: [None] is the zero Value. *)
Definition FieldByName (rv : value) (n : string) : option (bool * value) :=
  match underlying rv with
  | VStruct _ fields => assoc n fields
  | _ => None
  end.

(** The entry of a map with interface keys whose key is the string [n]. *)
Fixpoint assoc_key (n : string) (l : list (value * value)) : option value :=
  match l with
  | [] => None
  | (VString k, x) :: l' => if String.eqb k n then Some x else assoc_key n l'
  | _ :: l' => assoc_key n l'
  end.

(** [rv.MapIndex(reflect.ValueOf(n))] on a map: [None] is the zero Value.
    The key is a [string]: where that is not assignable to the key type of
    the map, [MapIndex] panics. *)
Definition MapIndex (rv : value) (n : string) : option value + panic :=
  match underlying rv with
  | VMap entries => inl (assoc n entries)
  | VMapOf KeyIface entries => inl (assoc_key n entries)
  | VMapOf KeyOther _ => inr KeyNotAssignable
  | _ => inl None
  end.

(** [rv.Interface()] on a field found by [FieldByName]. *)
Definition field_Interface (f : bool * value) : outcome :=
  let '(exported, x) := f in
  if exported then Ret x None else Panic UnexportedField.

(** [rv.Index(i)] on a slice, which panics when [i] is out of range. *)
Definition Index (rv : value) (i : Z) : value + panic :=
  match underlying rv with
  | VSlice elems =>
    if (i <? 0) || (Z.of_nat (length elems) <=? i) then inr IndexOutOfRange
    else inl (nth (Z.to_nat i) elems VNil)
  | _ => inr IndexOutOfRange
  end.

(** [reflect.TypeOf(x).Kind()]: [TypeOf(nil)] is the nil [Type], on which
    [Kind()] panics. *)
Definition TypeOf_Kind (x : value) : Kind + panic :=
  match x with
  | VNil => inr NilTypeKind
  | _ => inl (kind_of x)
  end.

(** A bound method: the function and the receiver it is bound to. *)
Definition method : Type := (func_id * value)%type.

(** The defined type of a value, where it has one. *)
Definition type_info (v : value) : option TypeInfo :=
  match v with
  | VStruct t _ | VDefined t _ => Some t
  | _ => None
  end.

(** The method set of the type of a value: a defined type [T] has its value
    receiver methods, the pointer type [*T] has the pointer receiver methods
    too, and every other type has none. *)
Definition method_set (rv : value) : list (string * func_id) :=
  match rv with
  | VPtr (Some x) =>
    match type_info x with
    | Some t => (vmethods t ++ pmethods t)%list
    | None => []
    end
  | VNilPtr t => (vmethods t ++ pmethods t)%list
  | _ =>
    match type_info rv with
    | Some t => vmethods t
    | None => []
    end
  end.

(** [rv.MethodByName(n)]: the method, bound to [rv]. *)
Definition MethodByName (rv : value) (n : string) : option method :=
  match assoc n (method_set rv) with
  | Some f => Some (f, rv)
  | None => None
  end.

(** [ptr := reflect.New(rv.Type()); ptr.Elem().Set(rv)] *)
Definition New_ptr (rv : value) : value := VPtr (Some rv).

Section Evaluator.

Variable h : Host.

(** [x.(error)]: the type of [x] has the method [Error() string].  That
    holds of a nil pointer too, when its type has the method, and not of the
    nil interface. *)
Definition as_error (x : value) : option error :=
  match MethodByName x "Error" with
  | Some m => if error_method h (fst m) then Some (ErrHost x) else None
  | None => None
  end.

(** The handling of the values a call returned, shared by [CallExpr] and
    [MethodCallExpr]. *)
Definition ret_values (r : call_result) : outcome :=
  match r with
  | CallPanics p => Panic p
  | Returns [] => Ret VNil None
  | Returns [v0] => Ret v0 None
  | Returns (v0 :: v1 :: _) =>
    match as_error v1 with
    | Some err => Ret v0 (Some err)
    | None => Ret v0 None
    end
  end.

(** [fmt.Sprint(x)] for one operand. *)
Definition Sprint (x : value) : string :=
  match x with
  | VNil => "<nil>"
  | VBool true => "true"
  | VBool false => "false"
  | VInt n | VInt32 n | VInt64 n => FormatInt n
  | VFloat32 f => FormatFloat h 32 f
  | VFloat64 f => FormatFloat h 64 f
  | VString s => s
  | _ => SprintComposite h x
  end.

(** [rf.Call(args)] on [rf := reflect.ValueOf(f)]. *)
Definition Call (f : value) (args : list value) : call_result :=
  match underlying f with
  | VFunc id => host_call h id args
  | _ => CallPanics CallNonFunc
  end.

Definition method_Call (m : method) (args : list value) : call_result :=
  host_method h (fst m) (snd m) args.

(** The [case string], [case int, int32, int64], [case float32, float64]
    and [default] arms of the type switch on the left operand. *)
Definition binop (op : string) (lhs rhs : value) : outcome :=
  match lhs with
  | VString vt =>
    if String.eqb op "+" then Ret (VString (vt +:+ Sprint rhs)) None
    else Ret VNil (Some (ErrNew "unknown operator"))
  | VInt _ | VInt32 _ | VInt64 _ =>
    match ParseInt (Sprint lhs) with
    | inr err => Ret VNil (Some err)
    | inl li =>
      match ParseInt (Sprint rhs) with
      | inr err => Ret VNil (Some err)
      | inl ri =>
        if String.eqb op "+" then Ret (VInt64 (wrap64 (li + ri))) None
        else if String.eqb op "-" then Ret (VInt64 (wrap64 (li - ri))) None
        else if String.eqb op "*" then Ret (VInt64 (wrap64 (li * ri))) None
        else if String.eqb op "/" then
          if ri =? 0 then Panic DivideByZero
          else Ret (VInt64 (int64_quo li ri)) None
        else Ret VNil (Some (ErrNew "unknown operator"))
      end
    end
  | VFloat32 _ | VFloat64 _ =>
    match ParseFloat h (Sprint lhs) with
    | inr err => Ret VNil (Some err)
    | inl lf =>
      match ParseFloat h (Sprint rhs) with
      | inr err => Ret VNil (Some err)
      | inl rf =>
        if String.eqb op "+" then Ret (VFloat64 (f64_add lf rf)) None
        else if String.eqb op "-" then Ret (VFloat64 (f64_sub lf rf)) None
        else if String.eqb op "*" then Ret (VFloat64 (f64_mul lf rf)) None
        else if String.eqb op "/" then Ret (VFloat64 (f64_div lf rf)) None
        else Ret VNil (Some (ErrNew "unknown operator"))
      end
    end
  | _ => Ret VNil (Some (ErrNew "invalid type conversion"))
  end.

(** The three-way branch of the [ItemExpr] case on the dereferenced receiver
    [rv] and the evaluated index [rhs]. *)
Definition item (rv rhs : value) : outcome :=
  let fail := Ret VNil (Some (ErrNew "cannot reference item")) in
  if Kind_eqb (kind_of rv) KStruct then
    match FieldByName rv (Sprint rhs) with
    | None => fail
    | Some f => field_Interface f
    end
  else if Kind_eqb (kind_of rv) KMap then
    match MapIndex rv (Sprint rhs) with
    | inr p => Panic p
    | inl None => fail
    | inl (Some x) => Ret x None
    end
  else if Kind_eqb (kind_of rv) KSlice then
    match TypeOf_Kind rhs with
    | inr p => Panic p
    | inl k =>
      if Kind_eqb k KInt64 then
        (* rhs.(int64) *)
        match rhs with
        | VInt64 i =>
          match Index rv i with
          | inr p => Panic p
          | inl x => Ret x None
          end
        | _ => Panic NotInt64
        end
      else fail
    end
  else fail.

(** The branch of the [MemberExpr] case. *)
Definition member (rv : value) (n : string) : outcome :=
  let fail := Ret VNil (Some (ErrNew "cannot reference member")) in
  if Kind_eqb (kind_of rv) KStruct then
    match FieldByName rv n with
    | None => fail
    | Some f => field_Interface f
    end
  else if Kind_eqb (kind_of rv) KMap then
    match MapIndex rv n with
    | inr p => Panic p
    | inl None => fail
    | inl (Some x) => Ret x None
    end
  else fail.

(** Method lookup of the [MethodCallExpr] case: on the value, then on a
    pointer to a copy of it. *)
Definition resolve_method (rv : value) (n : string) : option method :=
  match MethodByName rv n with
  | Some m => Some m
  | None => MethodByName (New_ptr rv) n
  end.

(** [evalAndDerefRv], given what [v.Eval(expr)] did. *)
Definition derefOutcome (o : outcome) : value + outcome :=
  match o with
  | Panic p => inr (Panic p)
  | Ret _ (Some err) => inr (Ret VNil (Some err))
  | Ret vv None =>
    match deref vv with
    | inr err => inr (Ret VNil (Some err))
    | inl rv => inl rv
    end
  end.

(** The argument loops: each argument in turn, stopping at the first that
    fails. *)
Definition eval_args (ev : Expr -> outcome) : list Expr -> list value + outcome :=
  fix go (l : list Expr) : list value + outcome :=
    match l with
    | [] => inl []
    | a :: l' =>
      match ev a with
      | Panic p => inr (Panic p)
      | Ret _ (Some err) => inr (Ret VNil (Some err))
      | Ret x None =>
        match go l' with
        | inr o => inr o
        | inl xs => inl (x :: xs)
        end
      end
    end.

Definition eval_deref_args (ev : Expr -> outcome) : list Expr -> list value + outcome :=
  fix go (l : list Expr) : list value + outcome :=
    match l with
    | [] => inl []
    | a :: l' =>
      match derefOutcome (ev a) with
      | inr o => inr o
      | inl x =>
        match go l' with
        | inr o => inr o
        | inl xs => inl (x :: xs)
        end
      end
    end.

(** [Eval] *)
Fixpoint Eval (v : VM) (expr : Expr) {struct expr} : outcome :=
  match expr with
  | IdentExpr n =>
    match env v !! n with
    | Some r => Ret r None
    | None => Ret VNil (Some (ErrNew ("invalid token: " +:+ n)))
    end
  | LitExpr x => Ret x None
  | BinOpExpr op l r =>
    match Eval v l with
    | Panic p => Panic p
    | Ret _ (Some err) => Ret VNil (Some err)
    | Ret lhs None =>
      match Eval v r with
      | Panic p => Panic p
      | Ret _ (Some err) => Ret VNil (Some err)
      | Ret rhs None => binop op lhs rhs
      end
    end
  | CallExpr n exprs =>
    match env v !! n with
    | Some f =>
      match eval_args (Eval v) exprs with
      | inr o => o
      | inl args => ret_values (Call f args)
      end
    | None => Ret VNil (Some (ErrNew ("invalid token: " +:+ n)))
    end
  | ItemExpr l idx =>
    match derefOutcome (Eval v l) with
    | inr o => o
    | inl rv =>
      match Eval v idx with
      | Panic p => Panic p
      | Ret _ (Some err) => Ret VNil (Some err)
      | Ret rhs None => item rv rhs
      end
    end
  | MethodCallExpr l n exprs =>
    match derefOutcome (Eval v l) with
    | inr o => o
    | inl rv =>
      match resolve_method rv n with
      | None => Ret VNil (Some (ErrNew ("cannot reference method: " +:+ n)))
      | Some meth =>
        match eval_deref_args (Eval v) exprs with
        | inr o => o
        | inl args => ret_values (method_Call meth args)
        end
      end
    end
  | MemberExpr l n =>
    match derefOutcome (Eval v l) with
    | inr o => o
    | inl rv => member rv n
    end
  | _ => Ret VNil None
  end.

Definition evalAndDerefRv (v : VM) (expr : Expr) : value + outcome :=
  derefOutcome (Eval v expr).

End Evaluator.

(** ** The parser: goyacc tables ([parser.go]) *)

(** The semantic value of a grammar symbol. *)
Record yySymType : Type := mkSym {
  yys : Z;
  expr : Expr;
  exprs : list Expr;
  str : string;
  lit : value
}.

Definition yySymType_zero : yySymType := mkSym 0 NilExpr [] "" VNil.

Definition set_yys (x : yySymType) (s : Z) : yySymType :=
  mkSym s (expr x) (exprs x) (str x) (lit x).
Definition set_expr (x : yySymType) (a : Expr) : yySymType :=
  mkSym (yys x) a (exprs x) (str x) (lit x).
Definition set_exprs (x : yySymType) (a : list Expr) : yySymType :=
  mkSym (yys x) (expr x) a (str x) (lit x).
Definition set_str (x : yySymType) (a : string) : yySymType :=
  mkSym (yys x) (expr x) (exprs x) a (lit x).
Definition set_lit (x : yySymType) (a : value) : yySymType :=
  mkSym (yys x) (expr x) (exprs x) (str x) a.

Definition IDENT : Z := 57346.
Definition LIT : Z := 57347.
Definition FOR : Z := 57348.
Definition IN : Z := 57349.

Definition yyEofCode : Z := 1.
Definition yyErrCode : Z := 2.
Definition yyPrivate : Z := 57344.
Definition yyLast : Z := 53.
Definition yyFlag : Z := -1000.

Definition yyExca : list Z := [
  -1; 1;
  1; -1;
  -2; 0 ].

Definition yyAct : list Z := [
  26; 3; 31; 25; 37; 31; 14; 32; 29; 18;
  19; 20; 21; 15; 23; 16; 17; 27; 8; 9;
  10; 11; 12; 13; 30; 24; 8; 9; 10; 11;
  12; 13; 35; 34; 36; 8; 9; 10; 11; 12;
  13; 6; 4; 2; 6; 4; 5; 28; 33; 5;
  22; 7; 1 ].

Definition yyPact : list Z := [
  37; -1000; 47; 24; -1000; 40; 4; 8; 40; 40;
  40; 40; 46; 40; 15; 40; 40; 43; 24; 24;
  24; 24; -1; 7; -1000; -3; 24; 24; 41; 40;
  -1000; 40; -1000; 40; -6; 24; 24; -1000 ].

Definition yyPgo : list Z := [ 0; 52; 0; 3 ].

Definition yyR1 : list Z := [
  0; 1; 1; 1; 3; 3; 3; 2; 2; 2;
  2; 2; 2; 2; 2; 2; 2; 2 ].

Definition yyR2 : list Z := [
  0; 4; 6; 1; 0; 1; 3; 1; 3; 3;
  3; 3; 3; 4; 6; 3; 4; 1 ].

Definition yyChk : list Z := [
  -1000; -1; 6; -2; 5; 9; 4; 4; 11; 12;
  13; 14; 15; 16; -2; 9; 7; 8; -2; -2;
  -2; -2; 4; -2; 10; -3; -2; -2; 4; 9;
  17; 8; 10; 7; -3; -2; -2; 10 ].

Definition yyDef : list Z := [
  0; -2; 0; 3; 7; 0; 17; 0; 0; 0;
  0; 0; 0; 0; 0; 4; 0; 0; 9; 10;
  11; 12; 15; 0; 8; 0; 5; 1; 0; 4;
  16; 0; 13; 0; 0; 6; 2; 14 ].

Definition yyTok1 : list Z := [
  1; 3; 3; 3; 3; 3; 3; 3; 3; 3;
  3; 3; 3; 3; 3; 3; 3; 3; 3; 3;
  3; 3; 3; 3; 3; 3; 3; 3; 3; 3;
  3; 3; 3; 3; 3; 3; 3; 3; 3; 3;
  9; 10; 13; 11; 8; 12; 15; 14; 3; 3;
  3; 3; 3; 3; 3; 3; 3; 3; 3; 3;
  3; 3; 3; 3; 3; 3; 3; 3; 3; 3;
  3; 3; 3; 3; 3; 3; 3; 3; 3; 3;
  3; 3; 3; 3; 3; 3; 3; 3; 3; 3;
  3; 16; 3; 17 ].

Definition yyTok2 : list Z := [ 2; 3; 4; 5; 6; 7 ].

Definition yyTok3 : list Z := [ 0 ].

Definition yyErrorVerbose : bool := false.

(** [t[i]]: [None] is the index-out-of-range panic. *)
Definition idx (t : list Z) (i : Z) : option Z :=
  if i <? 0 then None else nth_error t (Z.to_nat i).

Definition len (t : list Z) : Z := Z.of_nat (length t).

(** [yyErrorMessage]: [yyErrorVerbose] is false, so the first test returns. *)
Definition yyErrorMessage (state lookAhead : Z) : string :=
  if negb yyErrorVerbose then "syntax error"
  else "syntax error: unexpected".

(** ** The lexer *)

(** Modelled from the spec: the type [Lexer], with its methods [Lex] and
    [Error], is declared in a file of the package that is not among the
    sources.  The parser and [Compile] use its fields [s] (the scanner) and
    [e] (the result slot).  The scanner is kept as the input that remains to
    be read. *)
Record Lexer : Type := mkLexer { src : string; e : Expr }.

(** Modelled from the spec: the character classes and the scanning of one
    token, which section 4.1 describes.  White space is skipped; an
    identifier is a letter followed by letters and digits; literals are
    decimal integers, floating-point numbers and double-quoted strings
    without escapes; every other character is returned as itself. *)

Definition in_range (lo hi c : ascii) : bool :=
  (nat_of_ascii lo <=? nat_of_ascii c)%nat && (nat_of_ascii c <=? nat_of_ascii hi)%nat.

Definition is_space (c : ascii) : bool :=
  match nat_of_ascii c with
  | 9%nat | 10%nat | 13%nat | 32%nat => true
  | _ => false
  end.
Definition is_digit (c : ascii) : bool := in_range "0" "9" c.
Definition is_letter (c : ascii) : bool := in_range "a" "z" c || in_range "A" "Z" c.
Definition is_alnum (c : ascii) : bool := is_letter c || is_digit c.

Fixpoint skip_space (s : string) : string :=
  match s with
  | String c r => if is_space c then skip_space r else s
  | EmptyString => s
  end.

(** The longest prefix whose characters satisfy [p], and the rest. *)
Fixpoint span (p : ascii -> bool) (s : string) : string * string :=
  match s with
  | String c r =>
    if p c then let '(w, rest) := span p r in (String c w, rest)
    else (EmptyString, s)
  | EmptyString => (EmptyString, EmptyString)
  end.

Definition dquote : ascii := ascii_of_nat 34.

(** The text up to the closing quote, and what follows it. *)
Fixpoint until_quote (s : string) : option (string * string) :=
  match s with
  | String c r =>
    if Ascii.eqb c dquote then Some (EmptyString, r)
    else match until_quote r with
         | Some (w, rest) => Some (String c w, rest)
         | None => None
         end
  | EmptyString => None
  end.

Inductive scanned : Type :=
| SEOF
| SIdent (text : string)
| SInt (text : string)
| SFloat (text : string)
| SString (text : string)
| SChar (c : ascii).

Definition Scan (s : string) : scanned * string :=
  match skip_space s with
  | EmptyString => (SEOF, EmptyString)
  | String c r as s1 =>
    if is_letter c then
      let '(w, rest) := span is_alnum s1 in (SIdent w, rest)
    else if is_digit c then
      let '(ds, rest) := span is_digit s1 in
      match rest with
      | String "."%char (String d _ as r2) =>
        if is_digit d then
          let '(fs, rest2) := span is_digit r2 in
          (SFloat (ds +:+ String "."%char fs), rest2)
        else (SInt ds, rest)
      | _ => (SInt ds, rest)
      end
    else if Ascii.eqb c dquote then
      match until_quote r with
      | Some (w, rest) => (SString w, rest)
      | None => (SChar c, r)
      end
    else (SChar c, r)
  end.

Definition char_code (c : ascii) : Z := Z.of_nat (nat_of_ascii c).

Section Compiler.

Variable h : Host.

(** Modelled from the spec: [Lex], the method of [Lexer] the parser calls.
    It returns the token code and leaves the semantic value in [lval]: the
    name of an identifier in [str], the value of a literal in [lit].  The
    words [for] and [in] are keywords.  The end of the input is
    [scanner.EOF], which is -1.  A literal that does not convert is returned
    as a character the grammar does not have. *)
Definition Lex (l : Lexer) (lval : yySymType) : Z * Lexer * yySymType :=
  let '(t, rest) := Scan (src l) in
  let l' := mkLexer rest (e l) in
  match t with
  | SEOF => (-1, l', lval)
  | SIdent w =>
    if String.eqb w "for" then (FOR, l', lval)
    else if String.eqb w "in" then (IN, l', lval)
    else (IDENT, l', set_str lval w)
  | SInt ds =>
    match ParseInt ds with
    | inl n => (LIT, l', set_lit lval (VInt64 n))
    | inr _ => (char_code "0", l', lval)
    end
  | SFloat fs =>
    match ParseFloat h fs with
    | inl f => (LIT, l', set_lit lval (VFloat64 f))
    | inr _ => (char_code "0", l', lval)
    end
  | SString w => (LIT, l', set_lit lval (VString w))
  | SChar c => (char_code c, l', lval)
  end.

(** Modelled from the spec: [Error], the other method of [Lexer]; it keeps
    nothing that the package reads afterwards. *)
Definition Lexer_Error (l : Lexer) (msg : string) : Lexer := l.

Definition set_e (l : Lexer) (a : Expr) : Lexer := mkLexer (src l) a.

(** ** The parser: driver *)

(** The translation of a character into the internal numbering, the body
    of [yylex1] after the call of [Lex]. *)
Definition yyTokOf (char : Z) : option Z :=
  let out (token : option Z) :=
    match token with
    | None => None
    | Some token => if token =? 0 then idx yyTok2 1 (* unknown char *) else Some token
    end in
  if char <=? 0 then out (idx yyTok1 0)
  else if char <? len yyTok1 then out (idx yyTok1 char)
  else if (yyPrivate <=? char) && (char <? yyPrivate + len yyTok2)
  then out (idx yyTok2 (char - yyPrivate))
  else
    (* the loop over yyTok3, which has the one entry 0 *)
    match idx yyTok3 0 with
    | None => None
    | Some token =>
      if token =? char then out (idx yyTok3 1) else out (Some token)
    end.

(** [yylex1]: the character returned by the lexer and its token number. *)
Definition yylex1 (l : Lexer) (lval : yySymType)
  : option (Z * Z * Lexer * yySymType) :=
  let '(char, l', lval') := Lex l lval in
  match yyTokOf char with
  | None => None
  | Some token => Some (char, token, l', lval')
  end.

(** The state of [Parse] at the label [yynewstate].  The slice [yyS] and the
    index [yyp] are kept as the entries [yyS[yyp]] ([top]),
    [yyS[yyp-1]], ..., [yyS[0]] ([below]) and the entries [yyS[yyp+1]],
    [yyS[yyp+2]], ... ([above]) that earlier pushes left behind; past them
    the slice holds zero values.  [yystate] is [yys top]. *)
Record config : Type := mkConfig {
  lex : Lexer;
  lval : yySymType;
  char : Z;
  yytoken : Z;
  yyVAL : yySymType;
  top : yySymType;
  below : list yySymType;
  above : list yySymType;
  Errflag : Z;
  Nerrs : Z
}.

Inductive step_result : Type :=
| Continue (c : config)
| Return (code : Z) (l : Lexer)
| Crash.

(** [yystack]: push [yyVAL] with the state [yystate]. *)
Definition yystack (c : config) (yystate : Z) : step_result :=
  Continue (mkConfig (lex c) (lval c) (char c) (yytoken c) (yyVAL c)
              (set_yys (yyVAL c) yystate) (top c :: below c) (tl (above c))
              (Errflag c) (Nerrs c)).

(** [if yyrcvr.char < 0 { yyrcvr.char, yytoken = yylex1(yylex, &yyrcvr.lval) }] *)
Definition lookahead (c : config) : option config :=
  if char c <? 0 then
    match yylex1 (lex c) (lval c) with
    | None => None
    | Some (ch, tok, l', lval') =>
      Some (mkConfig l' lval' ch tok (yyVAL c) (top c) (below c) (above c)
              (Errflag c) (Nerrs c))
    end
  else Some c.

(** The search of the exception table for the entry of [yystate], and in it
    for the token. *)
Fixpoint yyExca_find (t : list Z) (yystate : Z) : option (list Z) :=
  match t with
  | a :: b :: t' =>
    if (a =? -1) && (b =? yystate) then Some t' else yyExca_find t' yystate
  | _ => None
  end.

Fixpoint yyExca_scan (t : list Z) (tok : Z) : option Z :=
  match t with
  | a :: b :: t' =>
    if (a <? 0) || (a =? tok) then Some b else yyExca_scan t' tok
  | _ => None
  end.

(** [yyDollar = yyS[yypt-k : yypt+1]] *)
Definition yyDollar_of (c : config) (k : nat) : option (list yySymType) :=
  let live := top c :: below c in
  if (k <? length live)%nat then Some (rev (firstn (S k) live)) else None.

Definition dollar (d : list yySymType) (i : nat) : yySymType :=
  nth i d yySymType_zero.

(** The semantic actions: the value [yyVAL] and the lexer after the action
    of production [yynt]. *)
Definition action (yynt : Z) (c : config) (VAL : yySymType)
  : option (yySymType * Lexer) :=
  let with_dollar (k : nat) (f : list yySymType -> yySymType * Lexer) :=
    match yyDollar_of c k with
    | Some d => Some (f d)
    | None => None
    end in
  let l := lex c in
  match yynt with
  | 1 => with_dollar 4%nat (fun d =>
      (VAL, set_e l (ForExpr (str (dollar d 2)) "" (expr (dollar d 4)))))
  | 2 => with_dollar 6%nat (fun d =>
      (VAL, set_e l (ForExpr (str (dollar d 2)) (str (dollar d 4))
                       (expr (dollar d 6)))))
  | 3 => with_dollar 1%nat (fun d => (VAL, set_e l (expr (dollar d 1))))
  | 4 => with_dollar 0%nat (fun d => (set_exprs VAL [], l))
  | 5 => with_dollar 1%nat (fun d => (set_exprs VAL [expr (dollar d 1)], l))
  | 6 => with_dollar 3%nat (fun d =>
      (set_exprs VAL (exprs (dollar d 1) ++ [expr (dollar d 3)]), l))
  | 7 => with_dollar 1%nat (fun d =>
      (set_expr VAL (LitExpr (lit (dollar d 1))), l))
  | 8 => with_dollar 3%nat (fun d => (set_expr VAL (expr (dollar d 2)), l))
  | 9 => with_dollar 3%nat (fun d =>
      (set_expr VAL (BinOpExpr "+" (expr (dollar d 1)) (expr (dollar d 3))), l))
  | 10 => with_dollar 3%nat (fun d =>
      (set_expr VAL (BinOpExpr "-" (expr (dollar d 1)) (expr (dollar d 3))), l))
  | 11 => with_dollar 3%nat (fun d =>
      (set_expr VAL (BinOpExpr "*" (expr (dollar d 1)) (expr (dollar d 3))), l))
  | 12 => with_dollar 3%nat (fun d =>
      (set_expr VAL (BinOpExpr "/" (expr (dollar d 1)) (expr (dollar d 3))), l))
  | 13 => with_dollar 4%nat (fun d =>
      (set_expr VAL (CallExpr (str (dollar d 1)) (exprs (dollar d 3))), l))
  | 14 => with_dollar 6%nat (fun d =>
      (set_expr VAL (MethodCallExpr (expr (dollar d 1)) (str (dollar d 3))
                       (exprs (dollar d 5))), l))
  | 15 => with_dollar 3%nat (fun d =>
      (set_expr VAL (MemberExpr (expr (dollar d 1)) (str (dollar d 3))), l))
  | 16 => with_dollar 4%nat (fun d =>
      (set_expr VAL (ItemExpr (expr (dollar d 1)) (expr (dollar d 3))), l))
  | 17 => with_dollar 1%nat (fun d =>
      (set_expr VAL (IdentExpr (str (dollar d 1))), l))
  | _ => Some (VAL, l)
  end.

(** The consultation of the goto table: the state after the reduction by
    production [yyn0] uncovered the state [below_state]. *)
Definition yygoto (yyn0 below_state : Z) : option Z :=
  match idx yyR1 yyn0 with
  | None => None
  | Some yyn =>
    match idx yyPgo yyn with
    | None => None
    | Some yyg =>
      let yyj := yyg + below_state + 1 in
      if yyLast <=? yyj then idx yyAct yyg
      else
        match idx yyAct yyj with
        | None => None
        | Some st =>
          match idx yyChk st with
          | None => None
          | Some chk => if chk =? - yyn then Some st else idx yyAct yyg
          end
        end
    end
  end.

(** Reduction by production [yyn]. *)
Definition reduce (c : config) (yyn : Z) : step_result :=
  let yynt := yyn in
  match idx yyR2 yyn with
  | None => Crash
  | Some n =>
    let live := top c :: below c in
    (* yyp -= yyR2[yyn] *)
    match skipn (Z.to_nat n) live with
    | [] => Crash
    | base :: rest =>
      let above1 := (rev (firstn (Z.to_nat n) live) ++ above c)%list in
      (* yyVAL = yyS[yyp+1] *)
      let VAL := hd yySymType_zero above1 in
      (* consult goto table to find next state *)
      match yygoto yyn (yys base) with
      | None => Crash
      | Some yystate =>
        match action yynt c VAL with
        | None => Crash
        | Some (VAL', l') =>
          Continue (mkConfig l' (lval c) (char c) (yytoken c) VAL'
                      (set_yys VAL' yystate) (base :: rest) (tl above1)
                      (Errflag c) (Nerrs c))
        end
      end
    end
  end.

(** The loop that looks for a state where [error] is a legal shift, popping
    the stack; with nothing left the parse returns 1. *)
Fixpoint error_recover (c : config) (live above1 : list yySymType)
  : step_result :=
  match live with
  | [] => Return 1 (lex c)
  | x :: live' =>
    let pop := error_recover c live' (x :: above1) in
    match idx yyPact (yys x) with
    | None => Crash
    | Some pact =>
      let yyn := pact + yyErrCode in
      if (0 <=? yyn) && (yyn <? yyLast) then
        match idx yyAct yyn with
        | None => Crash
        | Some yystate =>
          match idx yyChk yystate with
          | None => Crash
          | Some chk =>
            if chk =? yyErrCode then
              Continue (mkConfig (lex c) (lval c) (char c) (yytoken c) (yyVAL c)
                          (set_yys (yyVAL c) yystate) live (tl above1)
                          (Errflag c) (Nerrs c))
            else pop
          end
        end
      else pop
    end
  end.

(** The result of one turn: the code at [yynewstate] again, with the part of
    the error case that jumps back to [yynewstate] without a push. *)
Inductive turn : Type :=
| Done (r : step_result)
| Again (c : config).

(** [yydefault] *)
Definition yydefault (c : config) : turn :=
  let yystate := yys (top c) in
  match idx yyDef yystate with
  | None => Done Crash
  | Some yyn =>
    let after_exca : option (config * Z) :=
      if yyn =? -2 then
        match lookahead c with
        | None => None
        | Some c =>
          match yyExca_find yyExca yystate with
          | None => None
          | Some t =>
            match yyExca_scan t (yytoken c) with
            | None => None
            | Some yyn => Some (c, yyn)
            end
          end
        end
      else Some (c, yyn) in
    match after_exca with
    | None => Done Crash
    | Some (c1, yyn1) =>
      if (yyn =? -2) && (yyn1 <? 0) then Done (Return 0 (lex c1))
      else if yyn1 =? 0 then
        (* error ... attempt to resume parsing *)
        if Errflag c1 =? 0 then
          let l := Lexer_Error (lex c1) (yyErrorMessage yystate (yytoken c1)) in
          let c2 := mkConfig l (lval c1) (char c1) (yytoken c1) (yyVAL c1)
                      (top c1) (below c1) (above c1) 3 (Nerrs c1 + 1) in
          Done (error_recover c2 (top c2 :: below c2) (above c2))
        else if (Errflag c1 =? 1) || (Errflag c1 =? 2) then
          let c2 := mkConfig (lex c1) (lval c1) (char c1) (yytoken c1) (yyVAL c1)
                      (top c1) (below c1) (above c1) 3 (Nerrs c1) in
          Done (error_recover c2 (top c2 :: below c2) (above c2))
        else if Errflag c1 =? 3 then
          if yytoken c1 =? yyEofCode then Done (Return 1 (lex c1))
          else Again (mkConfig (lex c1) (lval c1) (-1) (-1) (yyVAL c1)
                        (top c1) (below c1) (above c1) (Errflag c1) (Nerrs c1))
        else Done (reduce c1 yyn1)
      else Done (reduce c1 yyn1)
    end
  end.

(** [yynewstate] up to the next jump. *)
Definition yynewstate (c : config) : turn :=
  let yystate := yys (top c) in
  match idx yyPact yystate with
  | None => Done Crash
  | Some yyn =>
    if yyn <=? yyFlag then yydefault c (* simple state *)
    else
      match lookahead c with
      | None => Done Crash
      | Some c =>
        let yyn := yyn + yytoken c in
        if (yyn <? 0) || (yyLast <=? yyn) then yydefault c
        else
          match idx yyAct yyn with
          | None => Done Crash
          | Some yyn =>
            match idx yyChk yyn with
            | None => Done Crash
            | Some chk =>
              if chk =? yytoken c then (* valid shift *)
                Done (yystack
                  (mkConfig (lex c) (lval c) (-1) (-1) (lval c) (top c)
                     (below c) (above c)
                     (if 0 <? Errflag c then Errflag c - 1 else Errflag c)
                     (Nerrs c)) yyn)
              else yydefault c
            end
          end
      end
  end.

(** The loop of [Parse].  Each turn shifts, reduces, returns, or discards
    a token during error recovery; [fuel] bounds the number of turns. *)
Fixpoint yyloop (fuel : nat) (c : config) : option (Z * Lexer) :=
  match fuel with
  | O => None
  | S fuel' =>
    match yynewstate c with
    | Done (Return code l) => Some (code, l)
    | Done Crash => None
    | Done (Continue c') => yyloop fuel' c'
    | Again c' => yyloop fuel' c'
    end
  end.

(** The state after the first pass through [yystack]: state 0 pushed. *)
Definition yyinit (l : Lexer) : config :=
  mkConfig l yySymType_zero (-1) (-1) yySymType_zero
    (set_yys yySymType_zero 0) [] [] 0 0.

Definition yyParse (fuel : nat) (yylex : Lexer) : option (Z * Lexer) :=
  yyloop fuel (yyinit yylex).

(** A bound on the number of turns the parse of a source text takes: a
    token is at least one character, and a token brings at most one shift
    and two reductions. *)
Definition turns (s : string) : nat := 3 * String.length s + 8.

(** What [Compile] returns: [(expr, nil)] or [(nil, err)].  [Stuck] stands
    for a parse that does not return: an index out of range in the driver,
    or more turns than [turns] allows.  No text leads there
    ([Compile_returns]). *)
Inductive compiled : Type :=
| Compiled (a : Expr)
| CompileError (err : error)
| Stuck.

(** [Compile] *)
Definition Compile (v : VM) (s : string) : compiled * VM :=
  let lex := mkLexer s NilExpr in
  match yyParse (turns s) lex with
  | None => (Stuck, v)
  | Some (code, lex') =>
    if negb (code =? 0) then (CompileError (ErrNew ("syntax error: " +:+ s)), v)
    else (Compiled (e lex'), v)
  end.

End Compiler.

(** ** Notions used to state the properties *)

(** The integer an operand of type [int], [int32] or [int64] holds. *)
Definition int_of (x : value) : option Z :=
  match x with
  | VInt n | VInt32 n | VInt64 n => Some n
  | _ => None
  end.

Definition is_float (x : value) : bool :=
  match x with
  | VFloat32 _ | VFloat64 _ => true
  | _ => false
  end.

(** [unwraps v c]: [c] is reached from [v] through pointers and interfaces. *)
Inductive unwraps : value -> value -> Prop :=
| unwraps_here v : unwraps v v
| unwraps_ptr x c : unwraps x c -> unwraps (VPtr (Some x)) c
| unwraps_iface x c : unwraps x c -> unwraps (VIface (Some x)) c.

(** A nil interface, a nil pointer, or an interface that holds nothing. *)
Definition nil_like (v : value) : Prop :=
  v = VNil \/ v = VPtr None \/ v = VIface None \/ exists t, v = VNilPtr t.

Definition ends_nil (v : value) : Prop :=
  exists z, nil_like z /\ unwraps v z.

(** A value that is neither nil, nor a pointer, nor an interface. *)
Definition concrete (v : value) : Prop :=
  kind_of v <> KInvalid /\ kind_of v <> KPtr /\ kind_of v <> KInterface.

Definition cannot_reference_value : outcome :=
  Ret VNil (Some (ErrNew "cannot reference value")).

Definition IndexError : outcome :=
  Ret VNil (Some (ErrNew "cannot reference item")).

Definition UnboundName (n : string) : outcome :=
  Ret VNil (Some (ErrNew ("invalid token: " +:+ n))).

Definition MethodNotFound (n : string) : outcome :=
  Ret VNil (Some (ErrNew ("cannot reference method: " +:+ n))).

Definition UnsupportedOperator : outcome :=
  Ret VNil (Some (ErrNew "unknown operator")).

(** ** A small host, to run the evaluator on examples *)

Definition one_f64 : spec_float := S754_finite false 4503599627370496 (-52).

Definition sample_FormatFloat (bits : Z) (f : spec_float) : string :=
  match f with
  | S754_zero false => "0"
  | S754_zero true => "-0"
  | S754_infinity false => "+Inf"
  | S754_infinity true => "-Inf"
  | S754_nan => "NaN"
  | S754_finite false 4503599627370496 (-52) => "1"
  | S754_finite true 4503599627370496 (-52) => "-1"
  | S754_finite _ _ _ => "?"
  end.

Definition sample_ParseFloat (s : string) : spec_float + error :=
  if String.eqb s "0" then inl (S754_zero false)
  else if String.eqb s "-0" then inl (S754_zero true)
  else if String.eqb s "+Inf" then inl (S754_infinity false)
  else if String.eqb s "-Inf" then inl (S754_infinity true)
  else if String.eqb s "NaN" then inl S754_nan
  else if String.eqb s "1" then inl one_f64
  else if String.eqb s "-1" then inl (S754_finite true 4503599627370496 (-52))
  else inr (ErrNum "ParseFloat" s ErrSyntax).

(** [type Problem struct{}] with [func (p *Problem) Error() string], and
    [type Errno uintptr] with [func (e Errno) Error() string]. *)
Definition Problem : TypeInfo :=
  mkType "Problem" [] [("Error", "Problem.Error")].

Definition Errno : TypeInfo :=
  mkType "Errno" [("Error", "Errno.Error")] [].

(** [func answer() int64]; [func fail() (int64, error)], which returns a
    nil [*Problem] as its error; [func errno() (int64, error)], which
    returns an [Errno]; [func pair() (int64, int64)]. *)
Definition sample_call (f : func_id) (args : list value) : call_result :=
  if String.eqb f "answer" then
    match args with
    | [] => Returns [VInt64 42]
    | _ => CallPanics (HostPanic "reflect: Call with too many input arguments")
    end
  else if String.eqb f "fail" then Returns [VInt64 0; VNilPtr Problem]
  else if String.eqb f "errno" then
    Returns [VInt64 0; VDefined Errno (VOther "uintptr")]
  else if String.eqb f "pair" then Returns [VInt64 1; VInt64 2]
  else CallPanics (HostPanic "unknown function").

(** [type Counter struct { N int64 }] with [func (c Counter) Get() int64]
    and [func (c *Counter) Inc() int64]. *)
Definition Counter : TypeInfo :=
  mkType "Counter" [("Get", "Counter.Get")] [("Inc", "Counter.Inc")].

(** [type Celsius float64] with [func (c Celsius) Sign() bool] and
    [func (c *Celsius) Known() bool]; [time.Duration] with its method
    [String]. *)
Definition Celsius : TypeInfo :=
  mkType "Celsius" [("Sign", "Celsius.Sign")] [("Known", "Celsius.Known")].

Definition Duration : TypeInfo :=
  mkType "Duration" [("String", "Duration.String")] [].

Definition sample_method (f : func_id) (recv : value) (args : list value)
  : call_result :=
  if String.eqb f "Celsius.Sign" then
    match recv, args with
    | VDefined _ (VFloat64 (S754_finite s _ _)), [] => Returns [VBool s]
    | _, _ => CallPanics (HostPanic "bad call")
    end
  else if String.eqb f "Celsius.Known" then
    match recv, args with
    | VPtr (Some (VDefined _ (VFloat64 _))), [] => Returns [VBool true]
    | _, _ => CallPanics (HostPanic "bad call")
    end
  else if String.eqb f "Counter.Get" then
    match recv, args with
    | VStruct _ [(_, (_, VInt64 n))], [] => Returns [VInt64 n]
    | _, _ => CallPanics (HostPanic "bad call")
    end
  else if String.eqb f "Counter.Inc" then
    match recv, args with
    | VPtr (Some (VStruct _ [(_, (_, VInt64 n))])), [] =>
      Returns [VInt64 (wrap64 (n + 1))]
    | _, _ => CallPanics (HostPanic "bad call")
    end
  else CallPanics (HostPanic "unknown method").

Definition sample_host : Host :=
  mkHost sample_call sample_method
    (fun f => String.eqb f "Problem.Error" || String.eqb f "Errno.Error")
    sample_FormatFloat sample_ParseFloat (fun _ => "?").

(** An environment with an integer, a function, a slice, a struct, a map and
    a nil pointer. *)
Definition sample_vm : VM :=
  Set_ (Set_ (Set_ (Set_ (Set_ (Set_ New
    "x" (VInt64 1))
    "answer" (VFunc "answer"))
    "xs" (VSlice [VInt64 10; VInt64 20; VInt64 30]))
    "c" (VStruct Counter [("N", (true, VInt64 1))]))
    "m" (VMap [("k", VString "v")]))
    "p" (VPtr None).

(** An environment with values of defined types, maps whose keys are not
    strings, and functions that return two values. *)
Definition typed_vm : VM :=
  Set_ (Set_ (Set_ (Set_ (Set_ (Set_ (Set_ (Set_ New
    "t" (VDefined Celsius (VFloat64 one_f64)))
    "d" (VDefined Duration (VInt64 1)))
    "xs" (VSlice [VInt64 10; VInt64 20; VInt64 30]))
    "ids" (VMapOf KeyOther [(VInt64 1, VString "a")]))
    "any" (VMapOf KeyIface [(VInt64 1, VString "a"); (VString "k", VString "v")]))
    "fail" (VFunc "fail"))
    "errno" (VFunc "errno"))
    "pair" (VFunc "pair").

(** ** Source texts of arithmetic expressions *)

Inductive opsym : Type := OpAdd | OpSub | OpMul | OpDiv.

Definition op_char (o : opsym) : ascii :=
  match o with
  | OpAdd => "+" | OpSub => "-" | OpMul => "*" | OpDiv => "/"
  end%char.

Definition op_text (o : opsym) : string := String (op_char o) EmptyString.

(** The tokens of a source text. *)
Inductive tok : Type :=
| TLit (ds : string)
| TId (w : string)
| TFor
| TIn
| TChar (c : ascii).

Definition tok_text (t : tok) : string :=
  match t with
  | TLit ds => ds
  | TId w => w
  | TFor => "for"
  | TIn => "in"
  | TChar c => String c EmptyString
  end.

(** The number a string of decimal digits denotes. *)
Definition digits_value (ds : string) : Z :=
  match NilEmpty.uint_of_string ds with
  | Some d => Z.of_N (N.of_uint d)
  | None => 0
  end.

(** What [Lex] returns for a token, and what it leaves in [lval]. *)
Definition tok_char (t : tok) : Z :=
  match t with
  | TLit _ => LIT
  | TId _ => IDENT
  | TFor => FOR
  | TIn => IN
  | TChar c => char_code c
  end.

Definition tok_sets (t : tok) (lv : yySymType) : yySymType :=
  match t with
  | TLit ds => set_lit lv (VInt64 (digits_value ds))
  | TId w => set_str lv w
  | _ => lv
  end.

(** The internal number of a token. *)
Definition tokno (t : tok) : Z :=
  match yyTokOf (tok_char t) with
  | Some k => k
  | None => 0
  end.

(** An integer literal: decimal digits, at least one, within int64. *)
Definition lit_ok (ds : string) : bool :=
  negb (String.eqb ds "") && forallb is_digit (list_ascii_of_string ds)
  && (digits_value ds <? 2 ^ 63).

(** An identifier: a letter, then letters and digits; not a keyword. *)
Definition ident_ok (w : string) : bool :=
  match w with
  | String c r => is_letter c && forallb is_alnum (list_ascii_of_string r)
  | EmptyString => false
  end && negb (String.eqb w "for") && negb (String.eqb w "in").

(** A punctuation character: what the scanner returns as itself. *)
Definition punct_ok (c : ascii) : bool :=
  negb (is_space c) && negb (is_letter c) && negb (is_digit c)
  && negb (Ascii.eqb c dquote).

Definition tok_ok (t : tok) : bool :=
  match t with
  | TLit ds => lit_ok ds
  | TId w => ident_ok w
  | TFor | TIn => true
  | TChar c => punct_ok c
  end.

(** Expressions as the parser groups them: an operand, or an operand, an
    operator and all that follows.  An operand is a literal, an identifier
    or an expression in parentheses. *)
Inductive atom : Type :=
| ALit (ds : string)
| AId (w : string)
| AParen (e : chain)
with chain : Type :=
| CLast (a : atom)
| CCons (a : atom) (o : opsym) (e : chain).

Fixpoint atom_toks (a : atom) : list tok :=
  match a with
  | ALit ds => [TLit ds]
  | AId w => [TId w]
  | AParen e => TChar "(" :: chain_toks e ++ [TChar ")"]
  end
with chain_toks (e : chain) : list tok :=
  match e with
  | CLast a => atom_toks a
  | CCons a o e' => atom_toks a ++ TChar (op_char o) :: chain_toks e'
  end.

Fixpoint atom_ok (a : atom) : bool :=
  match a with
  | ALit ds => lit_ok ds
  | AId w => ident_ok w
  | AParen e => chain_ok e
  end
with chain_ok (e : chain) : bool :=
  match e with
  | CLast a => atom_ok a
  | CCons a _ e' => atom_ok a && chain_ok e'
  end.

(** Built from integer literals, operators and parentheses only. *)
Fixpoint atom_closed (a : atom) : bool :=
  match a with
  | ALit _ => true
  | AId _ => false
  | AParen e => chain_closed e
  end
with chain_closed (e : chain) : bool :=
  match e with
  | CLast a => atom_closed a
  | CCons a _ e' => atom_closed a && chain_closed e'
  end.

(** The tree the parser builds. *)
Fixpoint atom_ast (a : atom) : Expr :=
  match a with
  | ALit ds => LitExpr (VInt64 (digits_value ds))
  | AId w => IdentExpr w
  | AParen e => chain_ast e
  end
with chain_ast (e : chain) : Expr :=
  match e with
  | CLast a => atom_ast a
  | CCons a o e' => BinOpExpr (op_text o) (atom_ast a) (chain_ast e')
  end.

(** The number of turns of the parser's loop an expression takes. *)
Fixpoint atom_cost (a : atom) : nat :=
  match a with
  | ALit _ | AId _ => 2
  | AParen e => 3 + chain_cost e
  end
with chain_cost (e : chain) : nat :=
  match e with
  | CLast a => atom_cost a
  | CCons a _ e' => atom_cost a + chain_cost e' + 2
  end.

(** One operation on int64: [None] is the division by zero. *)
Definition op_apply (o : opsym) (a b : Z) : option Z :=
  match o with
  | OpAdd => Some (wrap64 (a + b))
  | OpSub => Some (wrap64 (a - b))
  | OpMul => Some (wrap64 (a * b))
  | OpDiv => if b =? 0 then None else Some (int64_quo a b)
  end.

(** The value of an expression when the operators have one precedence and
    group to the right. *)
Fixpoint atom_value (a : atom) : option Z :=
  match a with
  | ALit ds => Some (digits_value ds)
  | AId _ => None
  | AParen e => chain_value e
  end
with chain_value (e : chain) : option Z :=
  match e with
  | CLast a => atom_value a
  | CCons a o e' =>
    match atom_value a, chain_value e' with
    | Some x, Some y => op_apply o x y
    | _, _ => None
    end
  end.

(** [spells ts s]: the text [s] is the tokens [ts] in turn, with any white
    space before each and at the end; a literal is not followed by a digit
    or a point and a word is not followed by a letter or a digit. *)
Definition all_space (ws : string) : Prop :=
  forallb is_space (list_ascii_of_string ws) = true.

Definition sep_ok (t : tok) (s : string) : Prop :=
  match s with
  | EmptyString => True
  | String c _ =>
    match t with
    | TLit _ => is_digit c = false /\ c <> "."%char
    | TId _ | TFor | TIn => is_alnum c = false
    | TChar _ => True
    end
  end.

Inductive spells : list tok -> string -> Prop :=
| spells_nil ws : all_space ws -> spells [] ws
| spells_cons ws t ts s :
    all_space ws -> sep_ok t s -> spells ts s ->
    spells (t :: ts) (ws +:+ tok_text t +:+ s).

(** ** The expressions of the specification *)

(** Arithmetic as section 4.2 of the specification words it: [*] and [/]
    bind tighter than [+] and [-], and all four group to the left. *)
Module Standard.

Inductive factor : Type :=
| Lit (n : Z)
| Paren (e : expr)
with term : Type :=
| Factor (f : factor)
| Mul (t : term) (f : factor)
| Div (t : term) (f : factor)
with expr : Type :=
| Term (t : term)
| Add (e : expr) (t : term)
| Sub (e : expr) (t : term).

Fixpoint factor_source (f : factor) : string :=
  match f with
  | Lit n => FormatInt n
  | Paren e => "(" +:+ expr_source e +:+ ")"
  end
with term_source (t : term) : string :=
  match t with
  | Factor f => factor_source f
  | Mul t f => term_source t +:+ " * " +:+ factor_source f
  | Div t f => term_source t +:+ " / " +:+ factor_source f
  end
with expr_source (e : expr) : string :=
  match e with
  | Term t => term_source t
  | Add e t => expr_source e +:+ " + " +:+ term_source t
  | Sub e t => expr_source e +:+ " - " +:+ term_source t
  end.

Definition lift (o : opsym) (x y : option Z) : option Z :=
  match x, y with
  | Some a, Some b => op_apply o a b
  | _, _ => None
  end.

Fixpoint factor_value (f : factor) : option Z :=
  match f with
  | Lit n => Some n
  | Paren e => expr_value e
  end
with term_value (t : term) : option Z :=
  match t with
  | Factor f => factor_value f
  | Mul t f => lift OpMul (term_value t) (factor_value f)
  | Div t f => lift OpDiv (term_value t) (factor_value f)
  end
with expr_value (e : expr) : option Z :=
  match e with
  | Term t => term_value t
  | Add e t => lift OpAdd (expr_value e) (term_value t)
  | Sub e t => lift OpSub (expr_value e) (term_value t)
  end.

(** Every literal is a natural number within int64. *)
Fixpoint factor_wf (f : factor) : bool :=
  match f with
  | Lit n => (0 <=? n) && (n <? 2 ^ 63)
  | Paren e => expr_wf e
  end
with term_wf (t : term) : bool :=
  match t with
  | Factor f => factor_wf f
  | Mul t f | Div t f => term_wf t && factor_wf f
  end
with expr_wf (e : expr) : bool :=
  match e with
  | Term t => term_wf t
  | Add e t | Sub e t => expr_wf e && term_wf t
  end.

End Standard.

(** ** The parser seen from its tables *)

(** [run n c]: [n] turns of the loop from [c], none of which returns. *)
Fixpoint run (h : Host) (n : nat) (c : config) : option config :=
  match n with
  | O => Some c
  | S n' =>
    match yynewstate h c with
    | Done (Continue c') | Again c' => run h n' c'
    | _ => None
    end
  end.

(** What [yynewstate] does in state [s] once the token [k] is known: shift
    to a state, go on to [yydefault], or fail on an index out of range. *)
Inductive decision : Type :=
| DShift (a : Z)
| DDefault
| DCrash.

Definition simple (s : Z) : bool :=
  match idx yyPact s with
  | Some yyn => yyn <=? yyFlag
  | None => false
  end.

Definition decide (s k : Z) : decision :=
  match idx yyPact s with
  | None => DCrash
  | Some yyn =>
    if yyn <=? yyFlag then DDefault
    else
      let yyn := yyn + k in
      if (yyn <? 0) || (yyLast <=? yyn) then DDefault
      else
        match idx yyAct yyn with
        | None => DCrash
        | Some a =>
          match idx yyChk a with
          | None => DCrash
          | Some chk => if chk =? k then DShift a else DDefault
          end
        end
  end.

(** The state an operator leads to. *)
Definition op_state (o : opsym) : Z :=
  match o with
  | OpAdd => 8 | OpSub => 9 | OpMul => 10 | OpDiv => 11
  end.

(** The production of an operator. *)
Definition op_rule (o : opsym) : Z :=
  match o with
  | OpAdd => 9 | OpSub => 10 | OpMul => 11 | OpDiv => 12
  end.

(** [expr_ctx s g]: in state [s] an expression may start, and [g] is the
    state the parser is in once it has one. *)
Definition expr_ctx (s g : Z) : Prop :=
  simple s = false /\ simple g = false /\
  decide s (tokno (TLit "")) = DShift 4 /\
  decide s (tokno (TId "")) = DShift 6 /\
  decide s (tokno (TChar "(")) = DShift 5 /\
  yygoto 7 s = Some g /\
  forall o, decide g (tokno (TChar (op_char o))) = DShift (op_state o).

(** The semantic value a token leaves on the stack. *)
Definition holds (t : tok) (x : yySymType) : Prop :=
  match t with
  | TLit ds => lit x = VInt64 (digits_value ds)
  | TId w => str x = w
  | _ => True
  end.

Section Streams.

Variable h : Host.

(** [lexes ts s]: from the input [s] the lexer returns the tokens [ts] in
    turn, then the end of the input. *)
Fixpoint lexes (ts : list tok) (s : string) : Prop :=
  match ts with
  | [] => skip_space s = EmptyString
  | t :: ts' =>
    exists s',
      (forall a lv, Lex h (mkLexer s a) lv
                    = (tok_char t, mkLexer s' a, tok_sets t lv)) /\
      lexes ts' s'
  end.

(** [at_tokens c ts]: the tokens the parser in state [c] has yet to shift
    are [ts]; the first of them may have been read already. *)
Definition at_tokens (c : config) (ts : list tok) : Prop :=
  match ts with
  | [] => char c < 0 /\ skip_space (src (lex c)) = EmptyString
  | t :: ts' =>
    (char c < 0 /\ lexes ts (src (lex c))) \/
    (char c = tok_char t /\ 0 <= char c /\ yytoken c = tokno t /\
     holds t (lval c) /\ lexes ts' (src (lex c)))
  end.

End Streams.

(** The number of the token that comes next. *)
Definition next_tokno (ts : list tok) : Z :=
  match ts with
  | [] => yyEofCode
  | t :: _ => tokno t
  end.

(** What may follow an expression, and what may follow an operand. *)
Definition closes (ts : list tok) : Prop :=
  ts = [] \/ exists r, ts = TChar ")" :: r.

Definition follows (ts : list tok) : Prop :=
  closes ts \/ exists o r, ts = TChar (op_char o) :: r.

(** The state the parser is in once the right operand of an operator is
    on the stack. *)
Definition op_goto (o : opsym) : Z :=
  match o with
  | OpAdd => 18 | OpSub => 19 | OpMul => 20 | OpDiv => 21
  end.

(** What a reduction leaves of the input side of the state. *)
Definition same_input (c c' : config) : Prop :=
  src (lex c') = src (lex c) /\ lval c' = lval c /\ char c' = char c /\
  yytoken c' = yytoken c.

(** [parsed h n c g a rest]: after [n] turns from [c] the expression [a]
    lies on the stack in state [g], above what was there, and the tokens
    [rest] remain. *)
Definition parsed (h : Host) (n : nat) (c : config) (g : Z) (a : Expr)
    (rest : list tok) : Prop :=
  exists c',
    run h n c = Some c' /\ yys (top c') = g /\ expr (top c') = a /\
    below c' = top c :: below c /\ at_tokens h c' rest /\
    e (lex c') = e (lex c).

(** A run of characters of one class, up to a character outside it. *)
Definition stops (p : ascii -> bool) (s : string) : Prop :=
  match s with
  | EmptyString => True
  | String c _ => p c = false
  end.

(** What an evaluation that only divides by zero at worst comes to. *)
Definition value_outcome (r : option Z) : outcome :=
  match r with
  | Some n => Ret (VInt64 n) None
  | None => Panic DivideByZero
  end.

(** The first testable property of the specification, on the expressions of
    [Standard]: the text of an expression compiles, and the tree evaluates to
    the value the expression has with the usual precedence and grouping. *)
Definition C1_as_stated (h : Host) : Prop :=
  forall (x : Standard.expr) (n : Z),
    Standard.expr_wf x = true -> Standard.expr_value x = Some n ->
    exists a,
      fst (Compile h New (Standard.expr_source x)) = Compiled a /\
      Eval h New a = Ret (VInt64 n) None.

(** Induction on operands and expressions together. *)
Scheme atom_chain_ind := Induction for atom Sort Prop
  with chain_atom_ind := Induction for chain Sort Prop.
Combined Scheme atom_chain_mutind from atom_chain_ind, chain_atom_ind.


(** ** The automaton of the tables *)

(** The internal token numbers and the states. *)
Definition yyTokens : list Z := map Z.of_nat (seq 1 17).
Definition yyStates : list Z := map Z.of_nat (seq 0 38).

Definition in_list (x : Z) (l : list Z) : bool := existsb (Z.eqb x) l.

Definition has_edge (E : list (Z * Z)) (p t : Z) : bool :=
  existsb (fun e => (fst e =? p) && (snd e =? t)) E.

Definition add_edge (E : list (Z * Z)) (p t : Z) : list (Z * Z) :=
  if has_edge E p t then E else (E ++ [(p, t)])%list.

(** The states from which a transition leads to [t]. *)
Definition preds (E : list (Z * Z)) (t : Z) : list Z :=
  map fst (List.filter (fun e => snd e =? t) E).

(** The states [n] transitions before [s]. *)
Fixpoint back (E : list (Z * Z)) (n : nat) (s : Z) : list Z :=
  match n with
  | O => [s]
  | S n' => flat_map (back E n') (preds E s)
  end.

(** One round of the search for the transitions the parser can take: the
    shifts of the states reached so far, and the gotos of their
    reductions. *)
Definition more_edges (E : list (Z * Z)) : list (Z * Z) :=
  fold_left
    (fun E s =>
       let E1 :=
         fold_left
           (fun E k =>
              match decide s k with DShift a => add_edge E s a | _ => E end)
           yyTokens E in
       match idx yyDef s with
       | Some r =>
         if 0 <? r then
           match idx yyR2 r with
           | Some n =>
             fold_left
               (fun E b =>
                  match yygoto r b with
                  | Some g => add_edge E b g
                  | None => E
                  end)
               (back E1 (Z.to_nat n) s) E1
           | None => E1
           end
         else E1
       | None => E1
       end)
    (0 :: map snd E) E.

(** The transitions between states: a pair [(p, t)] when a shift or a goto
    leads from [p] to [t]. *)
Definition yyEdges : list (Z * Z) :=
  Eval vm_compute in Nat.iter 12 more_edges [].

Definition edge (p t : Z) : bool := has_edge yyEdges p t.

(** The states on the stack, the top first. *)
Definition states_of (c : config) : list Z := map yys (top c :: below c).

(** A stack of states the parser can build: state 0 at the bottom, and a
    transition from each state to the one above. *)
Fixpoint valid_stack (st : list Z) : bool :=
  match st with
  | [] => false
  | s :: st' =>
    match st' with
    | [] => s =? 0
    | p :: _ => edge p s && valid_stack st'
    end
  end.

(** A measure of what is left to do.  Every state on the stack weighs 1,
    but 2 after a literal or an identifier and 0 after [program] or
    [exprList]; the state after the parenthesis of a call counts 1 more
    while it is on top. *)
Definition weight (s : Z) : nat :=
  if in_list s [4; 6] then 2
  else if in_list s [1; 25; 34] then 0
  else 1.

Definition rank (s : Z) : nat :=
  if in_list s [15; 29] then 1 else 0.

Definition input_measure (c : config) : nat :=
  3 * String.length (src (lex c)) + (if 0 <=? char c then 3 else 0).

Definition potential (c : config) : nat :=
  input_measure c + list_sum (map weight (states_of c))
  + rank (yys (top c)).

(** The states [n] transitions before [s], each with the weight of the
    states passed on the way added to [acc]. *)
Fixpoint back_w (n : nat) (s : Z) (acc : nat) : list (Z * nat) :=
  match n with
  | O => [(s, acc)]
  | S n' => flat_map (fun p => back_w n' p (acc + weight s)) (preds yyEdges s)
  end.

(** The number of stack entries the action of a production reads. *)
Definition yyDollarLen (r : Z) : nat :=
  match r with
  | 1 => 4%nat | 2 => 6%nat | 3 => 1%nat | 4 => 0%nat | 5 => 1%nat
  | 6 => 3%nat | 7 => 1%nat | 8 => 3%nat
  | 9 | 10 | 11 | 12 => 3%nat
  | 13 => 4%nat | 14 => 6%nat | 15 => 3%nat | 16 => 4%nat | 17 => 1%nat
  | _ => 0%nat
  end.

(** The checks of the tables that make every turn of the parser safe. *)

(** A shift leads along a transition, not on the end of the input, and
    costs less than the token it takes. *)
Definition shift_ok (s k : Z) : bool :=
  match decide s k with
  | DCrash => false
  | DDefault => true
  | DShift a =>
    edge s a && negb (k =? yyEofCode) && (weight a + rank a <=? 2)%nat
  end.

(** A reduction finds its right-hand side on the stack, leads along a
    transition, and lowers the measure. *)
Definition reduce_ok (s r : Z) : bool :=
  (0 <? r) && (r <? 18) &&
  match idx yyR2 r with
  | None => false
  | Some n =>
    (0 <=? n) && (yyDollarLen r =? Z.to_nat n)%nat &&
    forallb
      (fun j => forallb (fun bw => negb (fst bw =? 0)) (back_w j s 0))
      (seq 0 (Z.to_nat n)) &&
    forallb
      (fun bw =>
         match yygoto r (fst bw) with
         | None => false
         | Some g =>
           edge (fst bw) g && (weight g + rank g + 1 <=? snd bw + rank s)%nat
         end)
      (back_w (Z.to_nat n) s 0)
  end.

(** The default action of a state: a reduction, an error, or the entry of
    the exception table, which accepts or is an error. *)
Definition default_ok (s k : Z) : bool :=
  match idx yyDef s with
  | None => false
  | Some d =>
    if d =? -2 then
      match yyExca_find yyExca s with
      | None => false
      | Some t =>
        match yyExca_scan t k with
        | None => false
        | Some y => y <=? 0
        end
      end
    else if d =? 0 then true
    else reduce_ok s d
  end.

(** No state shifts the token [error]. *)
Definition no_error_shift (s : Z) : bool :=
  match idx yyPact s with
  | None => false
  | Some pact =>
    let yyn := pact + yyErrCode in
    if (0 <=? yyn) && (yyn <? yyLast) then
      match idx yyAct yyn with
      | None => false
      | Some yystate =>
        match idx yyChk yystate with
        | None => false
        | Some chk => negb (chk =? yyErrCode)
        end
      end
    else true
  end.

Definition tables_ok : bool :=
  forallb (fun e => in_list (fst e) yyStates && in_list (snd e) yyStates
                    && negb (snd e =? 0)) yyEdges &&
  forallb
    (fun s =>
       no_error_shift s &&
       forallb (fun k => shift_ok s k && default_ok s k) yyTokens)
    yyStates.

(** What holds of the parser's state at every turn. *)
Definition Inv (c : config) : Prop :=
  valid_stack (states_of c) = true /\
  Errflag c = 0 /\
  (char c < 0 \/ yyTokOf (char c) = Some (yytoken c)).

(** What a turn of the parser comes to: it goes on in a state of lower
    measure, or the parse returns. *)
Definition goes_on_or_returns (c : config) (t : turn) : Prop :=
  (exists c', t = Done (Continue c') /\ Inv c' /\
              (potential c' < potential c)%nat) \/
  (exists code l, t = Done (Return code l)).

(** ** Source texts of the whole grammar *)

(** Expressions as the parser groups them, with the calls, the method
    calls and the member and item accesses.  An operand is a literal, an
    identifier, an expression in parentheses or a call, followed by any
    number of accesses and method calls; a phrase is an operand, or an
    operand, an operator and all that follows.  The arguments of a call are
    the [exprs] of the grammar: nothing, one expression, or arguments, a
    comma and an expression. *)
Inductive operand : Type :=
| OLit (ds : string)
| OId (w : string)
| OParen (x : phrase)
| OCall (f : string) (args : arglist)
| OMember (a : operand) (n : string)
| OMethod (a : operand) (n : string) (args : arglist)
| OItem (a : operand) (i : phrase)
with phrase : Type :=
| PLast (a : operand)
| PCons (a : operand) (o : opsym) (x : phrase)
with arglist : Type :=
| ANone
| AFirst (x : phrase)
| AMore (l : arglist) (x : phrase).

Fixpoint operand_toks (a : operand) : list tok :=
  match a with
  | OLit ds => [TLit ds]
  | OId w => [TId w]
  | OParen x => TChar "(" :: phrase_toks x ++ [TChar ")"]
  | OCall f args => TId f :: TChar "(" :: arglist_toks args ++ [TChar ")"]
  | OMember a n => operand_toks a ++ [TChar "."; TId n]
  | OMethod a n args =>
    operand_toks a
      ++ TChar "." :: TId n :: TChar "(" :: arglist_toks args ++ [TChar ")"]
  | OItem a i => operand_toks a ++ TChar "[" :: phrase_toks i ++ [TChar "]"]
  end
with phrase_toks (x : phrase) : list tok :=
  match x with
  | PLast a => operand_toks a
  | PCons a o x' => operand_toks a ++ TChar (op_char o) :: phrase_toks x'
  end
with arglist_toks (l : arglist) : list tok :=
  match l with
  | ANone => []
  | AFirst x => phrase_toks x
  | AMore l' x => arglist_toks l' ++ TChar "," :: phrase_toks x
  end.

Fixpoint operand_ok (a : operand) : bool :=
  match a with
  | OLit ds => lit_ok ds
  | OId w => ident_ok w
  | OParen x => phrase_ok x
  | OCall f args => ident_ok f && arglist_ok args
  | OMember a n => operand_ok a && ident_ok n
  | OMethod a n args => operand_ok a && ident_ok n && arglist_ok args
  | OItem a i => operand_ok a && phrase_ok i
  end
with phrase_ok (x : phrase) : bool :=
  match x with
  | PLast a => operand_ok a
  | PCons a _ x' => operand_ok a && phrase_ok x'
  end
with arglist_ok (l : arglist) : bool :=
  match l with
  | ANone => true
  | AFirst x => phrase_ok x
  | AMore l' x => arglist_ok l' && phrase_ok x
  end.

(** The tree the parser builds. *)
Fixpoint operand_ast (a : operand) : Expr :=
  match a with
  | OLit ds => LitExpr (VInt64 (digits_value ds))
  | OId w => IdentExpr w
  | OParen x => phrase_ast x
  | OCall f args => CallExpr f (arglist_asts args)
  | OMember a n => MemberExpr (operand_ast a) n
  | OMethod a n args => MethodCallExpr (operand_ast a) n (arglist_asts args)
  | OItem a i => ItemExpr (operand_ast a) (phrase_ast i)
  end
with phrase_ast (x : phrase) : Expr :=
  match x with
  | PLast a => operand_ast a
  | PCons a o x' => BinOpExpr (op_text o) (operand_ast a) (phrase_ast x')
  end
with arglist_asts (l : arglist) : list Expr :=
  match l with
  | ANone => []
  | AFirst x => [phrase_ast x]
  | AMore l' x => arglist_asts l' ++ [phrase_ast x]
  end.

Scheme operand_mut := Induction for operand Sort Prop
  with phrase_mut := Induction for phrase Sort Prop
  with arglist_mut := Induction for arglist Sort Prop.
Combined Scheme grammar_mutind from operand_mut, phrase_mut, arglist_mut.

(** [reaches h c c']: the loop gets from [c] to [c'] without returning. *)
Definition reaches (h : Host) (c c' : config) : Prop :=
  exists n, run h n c = Some c'.

(** The internal numbers of the tokens that end a phrase: every token but
    the operators, the point and the brackets that open. *)
Definition after_phrase : list Z := [1; 2; 3; 4; 5; 6; 7; 8; 10; 17].

(** The tokens that end an operand: those, and the operators, the point and
    the bracket of an item access. *)
Definition after_operand : list Z :=
  (after_phrase ++ [11; 12; 13; 14; 15; 16])%list.

(** [operand_ctx s g]: in state [s] an expression may start, and in the
    state [g] the parser is in once it has one, the operators, the point
    and the bracket are shifted. *)
Definition operand_ctx (s g : Z) : Prop :=
  expr_ctx s g /\
  decide g (tokno (TChar ".")) = DShift 12 /\
  decide g (tokno (TChar "[")) = DShift 13.

(** The two states in which the arguments of a call start, each with the
    state the parser is in once it has arguments, and the state after the
    parenthesis that closes them. *)
Definition args_ctx (s gl close : Z) : Prop :=
  (s = 15 /\ gl = 25 /\ close = 32) \/ (s = 29 /\ gl = 34 /\ close = 37).

(** [parses h c g P rest]: from [c] the loop reaches a state where a new
    entry that satisfies [P] lies on the stack in state [g], above what was
    there, and the tokens [rest] remain. *)
Definition parses (h : Host) (c : config) (g : Z) (P : yySymType -> Prop)
    (rest : list tok) : Prop :=
  exists c',
    reaches h c c' /\ yys (top c') = g /\ P (top c') /\
    below c' = top c :: below c /\ at_tokens h c' rest /\
    e (lex c') = e (lex c).

(** A token that cannot start a program. *)
Definition starts_nothing (t : tok) : Prop :=
  match t with
  | TLit _ | TId _ | TFor => False
  | TIn => True
  | TChar c => c <> "("%char
  end.

(** What [Compile] returns for a text the parser rejects. *)
Definition SyntaxError (s : string) : compiled :=
  CompileError (ErrNew ("syntax error: " +:+ s)).

(** The text of a list of tokens, with a space before each. *)
Fixpoint text_of (ts : list tok) : string :=
  match ts with
  | [] => ""
  | t :: ts' => " " +:+ tok_text t +:+ text_of ts'
  end.

(** A token after which a text that was a whole expression so far is
    rejected: a literal, a name, a keyword, a comma, a parenthesis or a
    bracket that closes, or a character the grammar does not have. *)
Definition stops_program (t : tok) : Prop :=
  In (tokno t) [3; 4; 5; 6; 7; 8; 10; 17].

(** ** Notions used to state further properties *)

(** [mentions n a]: the evaluation of [a] looks the name [n] up in the
    environment, as a variable or as the function of a call. *)
Fixpoint mentions (n : string) (a : Expr) : bool :=
  match a with
  | IdentExpr m => String.eqb m n
  | BinOpExpr _ l r => mentions n l || mentions n r
  | CallExpr m args => String.eqb m n || existsb (mentions n) args
  | MethodCallExpr l _ args => mentions n l || existsb (mentions n) args
  | MemberExpr l _ => mentions n l
  | ItemExpr l i => mentions n l || mentions n i
  | NilExpr | LitExpr _ | ForExpr _ _ _ => false
  end.

Definition MemberError : outcome :=
  Ret VNil (Some (ErrNew "cannot reference member")).

Definition InvalidTypeConversion : outcome :=
  Ret VNil (Some (ErrNew "invalid type conversion")).

(** An outcome that is a failure, and what a caller inside [Eval] makes of
    it: the error without the value, or the panic. *)
Definition fails (o : outcome) : bool :=
  match o with
  | Ret _ None => false
  | _ => true
  end.

Definition passed_on (o : outcome) : outcome :=
  match o with
  | Ret _ (Some err) => Ret VNil (Some err)
  | _ => o
  end.

(** What [Eval] returns for the values a call returned: nothing is nil, the
    first value is the result, and the second is the error when it is
    one. *)
Definition returned (h : Host) (r : call_result) : outcome :=
  match r with
  | CallPanics p => Panic p
  | Returns [] => Ret VNil None
  | Returns [x] => Ret x None
  | Returns (x :: y :: _) => Ret x (as_error h y)
  end.

Definition is_call (a : Expr) : bool :=
  match a with
  | CallExpr _ _ | MethodCallExpr _ _ _ => true
  | _ => false
  end.

(** [calls a]: the evaluation of [a] may call a function or a method of the
    host. *)
Fixpoint calls (a : Expr) : bool :=
  match a with
  | CallExpr _ _ | MethodCallExpr _ _ _ => true
  | BinOpExpr _ l r => calls l || calls r
  | MemberExpr l _ => calls l
  | ItemExpr l i => calls l || calls i
  | NilExpr | IdentExpr _ | LitExpr _ | ForExpr _ _ _ => false
  end.

(** The panics of [reflect.Value.MapIndex] and of the assertion
    [rhs.(int64)]. *)
Definition KeyPanic : outcome := Panic KeyNotAssignable.


(** ** The names of the tokens *)

Definition yyToknames : list string :=
  [ "$end"; "error"; "$unk"; "IDENT"; "LIT"; "FOR"; "IN";
    "','"; "'('"; "')'"; "'+'"; "'-'"; "'*'"; "'/'"; "'.'"; "'['"; "']'" ].

(** [yyTokname] *)
Definition yyTokname (c : Z) : string :=
  let other := "tok-" +:+ FormatInt c in
  if (1 <=? c) && (c - 1 <? Z.of_nat (length yyToknames)) then
    match nth_error yyToknames (Z.to_nat (c - 1)) with
    | Some s => if negb (String.eqb s "") then s else other
    | None => other
    end
  else other.

(** The name of what the lexer returns: of the end of the input, of the
    ten characters of the grammar (by their codes, from 40 for the
    parenthesis that opens to 93 for the bracket that closes), of the token
    codes, and of every other character. *)
Definition token_name_of (ch : Z) : string :=
  if ch <=? 0 then "$end"
  else if ch =? 40 then "'('"
  else if ch =? 41 then "')'"
  else if ch =? 42 then "'*'"
  else if ch =? 43 then "'+'"
  else if ch =? 44 then "','"
  else if ch =? 45 then "'-'"
  else if ch =? 46 then "'.'"
  else if ch =? 47 then "'/'"
  else if ch =? 91 then "'['"
  else if ch =? 93 then "']'"
  else if ch =? yyPrivate then "error"
  else if ch =? IDENT then "IDENT"
  else if ch =? LIT then "LIT"
  else if ch =? FOR then "FOR"
  else if ch =? IN then "IN"
  else "$unk".

(** The check of one character against its name. *)
Definition token_named (ch : Z) : bool :=
  match yyTokOf ch with
  | Some k => (1 <=? k) && (k <=? 17) && String.eqb (yyTokname k) (token_name_of ch)
  | None => false
  end.

(** ** Programs, and what the entries of the stack stand for *)

(** A program of the grammar: an expression or one of the two forms of the
    [for] statement. *)
Inductive program : Type :=
| PExpr (x : phrase)
| PFor (w : string) (x : phrase)
| PForPair (w1 w2 : string) (x : phrase).

Definition program_toks (p : program) : list tok :=
  match p with
  | PExpr x => phrase_toks x
  | PFor w x => TFor :: TId w :: TIn :: phrase_toks x
  | PForPair w1 w2 x =>
    TFor :: TId w1 :: TChar "," :: TId w2 :: TIn :: phrase_toks x
  end.

Definition program_ast (p : program) : Expr :=
  match p with
  | PExpr x => phrase_ast x
  | PFor w x => ForExpr w "" (phrase_ast x)
  | PForPair w1 w2 x => ForExpr w1 w2 (phrase_ast x)
  end.

(** A symbol of the grammar with what it derives: a token, or the tree of
    an [expr], of an [exprs] or of a [program]. *)
Inductive sym : Type :=
| STok (t : tok)
| SExpr (x : phrase)
| SArgs (l : arglist)
| SProgram (p : program).

Definition sym_toks (sy : sym) : list tok :=
  match sy with
  | STok t => [t]
  | SExpr x => phrase_toks x
  | SArgs l => arglist_toks l
  | SProgram p => program_toks p
  end.

(** The code of a symbol in [yyChk]: the number of a token, and minus the
    number of a nonterminal ([program] is 1, [expr] 2 and [exprs] 3 in
    [yyR1]). *)
Definition sym_code (sy : sym) : Z :=
  match sy with
  | STok t => tokno t
  | SProgram _ => -1
  | SExpr _ => -2
  | SArgs _ => -3
  end.

(** The semantic value of an entry that stands for a symbol. *)
Definition sym_val (sy : sym) (x : yySymType) : Prop :=
  match sy with
  | STok t => holds t x
  | SExpr p => expr x = phrase_ast p
  | SArgs l => exprs x = arglist_asts l
  | SProgram _ => True
  end.

(** [stack_is entries syms]: the entries of the stack, the top first, above
    the entry of state 0, stand for the symbols [syms]. *)
Inductive stack_is : list yySymType -> list sym -> Prop :=
| stack_bottom x : yys x = 0 -> stack_is [x] []
| stack_push x y st sy syms :
    stack_is (y :: st) syms ->
    idx yyChk (yys x) = Some (sym_code sy) -> sym_val sy x ->
    stack_is (x :: y :: st) (sy :: syms).

(** The tokens that continue an operand: the operators, the point and the
    bracket. *)
Definition yyContinues : list Z := [11; 12; 13; 14; 15; 16].

(** An expression with an operator outside parentheses is followed by none
    of them. *)
Definition sym_shaped (k : Z) (sy : sym) : Prop :=
  match sy with
  | SExpr (PCons _ _ _) => ~ In k yyContinues
  | _ => True
  end.

Fixpoint shaped (k : Z) (syms : list sym) : Prop :=
  match syms with
  | [] => True
  | sy :: syms' => sym_shaped k sy /\ shaped (sym_code sy) syms'
  end.

(** The right-hand sides of the productions, in the codes of [yyChk], as the
    cases of [Parse] use them through [yyDollar]; [rhs_ok] checks them
    against the tables. *)
Definition yyRhs (r : Z) : list Z :=
  match r with
  | 1 => [6; 4; 7; -2]
  | 2 => [6; 4; 8; 4; 7; -2]
  | 3 => [-2]
  | 4 => []
  | 5 => [-2]
  | 6 => [-3; 8; -2]
  | 7 => [5]
  | 8 => [9; -2; 10]
  | 9 => [-2; 11; -2]
  | 10 => [-2; 12; -2]
  | 11 => [-2; 13; -2]
  | 12 => [-2; 14; -2]
  | 13 => [4; 9; -3; 10]
  | 14 => [-2; 15; 4; 9; -3; 10]
  | 15 => [-2; 15; 4]
  | 16 => [-2; 16; -2; 17]
  | 17 => [4]
  | _ => []
  end.

(** The check of a state against the grammar: where its default action is
    a production, the states below it on every path carry the symbols of
    the right-hand side, the last on top, and none of them is state 0; a
    production of an operator is the default action of a state that reads
    the token that comes next and shifts every token that continues an
    operand. *)
Definition rhs_ok (s : Z) : bool :=
  match idx yyDef s with
  | None => false
  | Some r =>
    if 0 <? r then
      (r <? 18) &&
      match idx yyR2 r with
      | Some n => n =? Z.of_nat (length (yyRhs r))
      | None => false
      end &&
      forallb
        (fun i =>
           forallb
             (fun q =>
                negb (q =? 0) &&
                match idx yyChk q with
                | Some code => code =? nth i (rev (yyRhs r)) 0
                | None => false
                end)
             (back yyEdges i s))
        (seq 0 (length (yyRhs r))) &&
      (if (9 <=? r) && (r <=? 12) then
         negb (simple s) &&
         forallb
           (fun k =>
              match decide s k with
              | DDefault => negb (in_list k yyContinues)
              | _ => true
              end)
           yyTokens
       else true)
    else true
  end.

(** The check of the goto table: the state after a reduction carries the
    nonterminal of the production. *)
Definition goto_ok (r : Z) : bool :=
  forallb
    (fun p =>
       match yygoto r p with
       | None => true
       | Some g =>
         match idx yyChk g, idx yyR1 r with
         | Some code, Some nt => code =? - nt
         | _, _ => false
         end
       end)
    yyStates.

Definition grammar_ok : bool :=
  forallb rhs_ok yyStates && forallb goto_ok (map Z.of_nat (seq 1 17)).

(** [tracks h ts c]: the parser in state [c] has read a part of the tokens
    [ts] that the symbols on its stack derive, and the rest remains. *)
Definition tracks (h : Host) (ts : list tok) (c : config) : Prop :=
  exists syms rest,
    Inv c /\ stack_is (top c :: below c) syms /\
    shaped (next_tokno rest) syms /\ at_tokens h c rest /\
    (flat_map sym_toks (rev syms) ++ rest)%list = ts /\
    (forall p syms', syms = SProgram p :: syms' -> e (lex c) = program_ast p).

(** * Properties *)

(** ** Proof steps *)

(** A reduction by a production with [k] symbols on its right-hand side,
    unfolded up to the consultation of the goto table. *)
Ltac reduce_by n k :=
  unfold reduce;
  match goal with
  | |- context [idx yyR2 ?r] => change (idx yyR2 r) with (Some n)
  end;
  cbv beta iota;
  change (Z.to_nat n) with k;
  cbn -[yygoto];
  match goal with
  | |- context [yygoto ?r ?b] => change (yygoto r b) with (yygoto 7 b)
  end.

Ltac reduced :=
  cbn; eexists; split; [reflexivity |]; cbn; unfold same_input; cbn; auto 10.

(** One token of a text, with the white space before it. *)
Ltac spell ws t s' :=
  refine (spells_cons ws t _ s' _ _ _);
  [ reflexivity
  | cbn; first [exact I | reflexivity | split; [reflexivity | discriminate]]
  | ].


(** ** Integers and their text *)

Lemma wrap64_range (z : Z) : in_int64 (wrap64 z).
Proof.
  unfold in_int64, wrap64, MinInt64, MaxInt64.
  pose proof (Z.mod_pos_bound z (2 ^ 64) ltac:(lia)) as Hm.
  destruct (Z.ltb_spec (z mod 2 ^ 64) (2 ^ 63)); lia.
Qed.

Lemma wrap64_id (z : Z) : in_int64 z -> wrap64 z = z.
Proof.
  unfold in_int64, wrap64, MinInt64, MaxInt64. intros Hz.
  destruct (Z.le_gt_cases 0 z) as [Hpos | Hneg].
  - rewrite Z.mod_small by lia.
    destruct (Z.ltb_spec z (2 ^ 63)); lia.
  - replace (z mod 2 ^ 64) with (z + 2 ^ 64).
    + destruct (Z.ltb_spec (z + 2 ^ 64) (2 ^ 63)); lia.
    + apply Z.mod_unique with (q := -1); lia.
Qed.

(** The text of a digit string starts with a digit, not with a sign. *)
Lemma string_of_uint_head (d : Decimal.uint) :
  d <> Decimal.Nil ->
  exists c r, NilEmpty.string_of_uint d = String c r /\
              c <> "+"%char /\ c <> "-"%char.
Proof.
  destruct d; intros Hd; try congruence; simpl; eexists _, _;
    (split; [reflexivity | split; discriminate]).
Qed.

Lemma Pos_to_uint_nonnil (p : positive) : Pos.to_uint p <> Decimal.Nil.
Proof.
  intros Hp.
  pose proof (DecimalPos.Unsigned.of_to p) as Hof.
  rewrite Hp in Hof. discriminate.
Qed.

(** [ParseInt] on the digits of a natural number with no sign. *)
Lemma ParseInt_digits (d : Decimal.uint) :
  d <> Decimal.Nil ->
  Z.of_N (N.of_uint d) < 2 ^ 63 ->
  ParseInt (NilEmpty.string_of_uint d) = inl (Z.of_N (N.of_uint d)).
Proof.
  intros Hd Hlt.
  destruct (string_of_uint_head d Hd) as (c & r & Hs & Hplus & Hminus).
  unfold ParseInt.
  assert (Hsign :
    match NilEmpty.string_of_uint d with
    | String "+"%char r0 => (false, r0)
    | String "-"%char r0 => (true, r0)
    | _ => (false, NilEmpty.string_of_uint d)
    end = (false, NilEmpty.string_of_uint d)).
  { rewrite Hs.
    destruct c as [[|] [|] [|] [|] [|] [|] [|] [|]]; try reflexivity;
      congruence. }
  rewrite Hsign.
  rewrite NilEmpty.usu. rewrite Hs at 1.
  cbn [negb andb].
  destruct (Z.leb_spec (2 ^ 63) (Z.of_N (N.of_uint d))); [lia | reflexivity].
Qed.

(** The text round trip of the integer operands: every int64 prints as text
    that [ParseInt] reads back. *)
Lemma ParseInt_FormatInt (n : Z) :
  in_int64 n -> ParseInt (FormatInt n) = inl n.
Proof.
  unfold in_int64, MinInt64, MaxInt64. intros Hn.
  destruct n as [| p | p].
  - reflexivity.
  - unfold FormatInt. cbn [Z.to_int NilZero.string_of_int].
    unfold NilZero.string_of_uint.
    pose proof (Pos_to_uint_nonnil p) as Hnil.
    destruct (Pos.to_uint p) eqn:Hp; try congruence;
      rewrite <- Hp;
      (rewrite ParseInt_digits;
       [ unfold N.of_uint; rewrite DecimalPos.Unsigned.of_to; reflexivity
       | rewrite Hp; discriminate
       | unfold N.of_uint; rewrite DecimalPos.Unsigned.of_to; cbn; lia ]).
  - unfold FormatInt. cbn [Z.to_int NilZero.string_of_int].
    unfold NilZero.string_of_uint.
    pose proof (Pos_to_uint_nonnil p) as Hnil.
    unfold ParseInt.
    destruct (string_of_uint_head _ Hnil) as (c & r & Hr & _ & _).
    replace (match Pos.to_uint p with
             | Decimal.Nil => "0"
             | _ => NilEmpty.string_of_uint (Pos.to_uint p)
             end) with (NilEmpty.string_of_uint (Pos.to_uint p))
      by (destruct (Pos.to_uint p); try congruence; reflexivity).
    rewrite NilEmpty.usu. rewrite Hr at 1.
    unfold N.of_uint. rewrite DecimalPos.Unsigned.of_to.
    cbn [negb andb Z.of_N].
    destruct (Z.ltb_spec (2 ^ 63) (Z.pos p)); [lia | reflexivity].
Qed.

(** ** Arithmetic *)

Section BinOpFacts.

Variable h : Host.
Variable v : VM.

Lemma Eval_BinOpExpr (op : string) (l r : Expr) (lhs rhs : value) :
  Eval h v l = Ret lhs None -> Eval h v r = Ret rhs None ->
  Eval h v (BinOpExpr op l r) = binop h op lhs rhs.
Proof.
  intros Hl Hr. cbn [Eval]. rewrite Hl, Hr. reflexivity.
Qed.

Lemma Sprint_int (x : value) (n : Z) :
  int_of x = Some n -> Sprint h x = FormatInt n.
Proof.
  destruct x; cbn; intros Hx; try discriminate; now injection Hx as ->.
Qed.

Lemma binop_int (op : string) (lhs rhs : value) (a b : Z) :
  int_of lhs = Some a -> int_of rhs = Some b ->
  in_int64 a -> in_int64 b ->
  binop h op lhs rhs =
    if String.eqb op "+" then Ret (VInt64 (wrap64 (a + b))) None
    else if String.eqb op "-" then Ret (VInt64 (wrap64 (a - b))) None
    else if String.eqb op "*" then Ret (VInt64 (wrap64 (a * b))) None
    else if String.eqb op "/" then
      if b =? 0 then Panic DivideByZero
      else Ret (VInt64 (int64_quo a b)) None
    else UnsupportedOperator.
Proof.
  intros Ha Hb Hra Hrb.
  assert (Hl : ParseInt (Sprint h lhs) = inl a)
    by (rewrite (Sprint_int _ _ Ha); now apply ParseInt_FormatInt).
  assert (Hr : ParseInt (Sprint h rhs) = inl b)
    by (rewrite (Sprint_int _ _ Hb); now apply ParseInt_FormatInt).
  destruct lhs; cbn in Ha; try discriminate; cbn [binop];
    rewrite Hl, Hr; reflexivity.
Qed.

(** Division of a float by a zero, in binary64. *)
Lemma f64_div_zero (x z : spec_float) :
  is_zero z = true ->
  f64_div x z =
    match x, z with
    | S754_nan, _ => S754_nan
    | S754_zero _, _ => S754_nan
    | S754_infinity sx, S754_zero sz => S754_infinity (xorb sx sz)
    | S754_finite sx _ _, S754_zero sz => S754_infinity (xorb sx sz)
    | _, _ => S754_nan
    end.
Proof.
  destruct z; try discriminate. intros _. destruct x; reflexivity.
Qed.

(** C2.  [/] with integer operands and a zero right operand panics with the
    run-time error "integer divide by zero", which nothing in [Eval]
    recovers; [/] with float operands whose right operand is a zero returns
    an infinity or a NaN, as IEEE 754 has it, and no error.  The float
    operands go through their text: [lf] and [rf] are what
    [strconv.ParseFloat] reads back from it. *)
Theorem C2_division_by_zero
    (l r : Expr) (lhs rhs : value) :
  Eval h v l = Ret lhs None -> Eval h v r = Ret rhs None ->
  (forall a, int_of lhs = Some a -> in_int64 a -> int_of rhs = Some 0 ->
     Eval h v (BinOpExpr "/" l r) = Panic DivideByZero) /\
  (forall lf rf, is_float lhs = true -> is_float rhs = true ->
     ParseFloat h (Sprint h lhs) = inl lf ->
     ParseFloat h (Sprint h rhs) = inl rf -> is_zero rf = true ->
     Eval h v (BinOpExpr "/" l r) = Ret (VFloat64 (f64_div lf rf)) None /\
     is_inf_or_nan (f64_div lf rf) = true /\
     f64_div lf rf =
       match lf, rf with
       | S754_infinity sx, S754_zero sz => S754_infinity (xorb sx sz)
       | S754_finite sx _ _, S754_zero sz => S754_infinity (xorb sx sz)
       | _, _ => S754_nan
       end).
Proof.
  intros Hl Hr. split.
  - intros a Ha Hra Hb.
    rewrite (Eval_BinOpExpr _ _ _ _ _ Hl Hr).
    rewrite (binop_int "/" lhs rhs a 0 Ha Hb Hra); [reflexivity |].
    unfold in_int64, MinInt64, MaxInt64; lia.
  - intros lf rf Hfl Hfr Hpl Hpr Hz.
    rewrite (Eval_BinOpExpr _ _ _ _ _ Hl Hr).
    split; [| split].
    + destruct lhs; cbn in Hfl; try discriminate; cbn [binop];
        rewrite Hpl, Hpr; reflexivity.
    + rewrite (f64_div_zero _ _ Hz).
      destruct lf, rf; try discriminate; reflexivity.
    + rewrite (f64_div_zero _ _ Hz).
      destruct lf, rf; try discriminate; reflexivity.
Qed.

(** C5.  When the left operand is a string, [+] concatenates it with the
    text [fmt.Sprint] gives for the right operand, whatever its type, and
    every other operator is the error "unknown operator". *)
Theorem C5_string_left_operand
    (op : string) (l r : Expr) (s : string) (rhs : value) :
  Eval h v l = Ret (VString s) None -> Eval h v r = Ret rhs None ->
  (op = "+" ->
     Eval h v (BinOpExpr op l r) = Ret (VString (s +:+ Sprint h rhs)) None) /\
  (op <> "+" -> Eval h v (BinOpExpr op l r) = UnsupportedOperator).
Proof.
  intros Hl Hr. rewrite (Eval_BinOpExpr _ _ _ _ _ Hl Hr). cbn [binop].
  split.
  - intros ->. reflexivity.
  - intros Hop. destruct (String.eqb_spec op "+"); [contradiction | reflexivity].
Qed.

End BinOpFacts.

Lemma C2_witness :
  Eval sample_host sample_vm (BinOpExpr "/" (IdentExpr "x") (LitExpr (VInt64 0)))
    = Panic DivideByZero /\
  Eval sample_host sample_vm
    (BinOpExpr "/" (LitExpr (VFloat64 one_f64)) (LitExpr (VFloat64 (S754_zero true))))
    = Ret (VFloat64 (S754_infinity true)) None.
Proof.
  pose proof (C2_division_by_zero sample_host sample_vm
                (IdentExpr "x") (LitExpr (VInt64 0)) (VInt64 1) (VInt64 0)
                eq_refl eq_refl) as [Hint _].
  pose proof (C2_division_by_zero sample_host sample_vm
                (LitExpr (VFloat64 one_f64)) (LitExpr (VFloat64 (S754_zero true)))
                (VFloat64 one_f64) (VFloat64 (S754_zero true))
                eq_refl eq_refl) as [_ Hfloat].
  split.
  - apply (Hint 1); [reflexivity | | reflexivity].
    unfold in_int64, MinInt64, MaxInt64. lia.
  - exact (proj1 (Hfloat one_f64 (S754_zero true)
                    eq_refl eq_refl eq_refl eq_refl eq_refl)).
Defined.

Lemma C5_witness :
  Eval sample_host sample_vm
    (BinOpExpr "+" (LitExpr (VString "a")) (LitExpr (VInt64 1)))
    = Ret (VString "a1") None /\
  Eval sample_host sample_vm
    (BinOpExpr "-" (LitExpr (VString "a")) (LitExpr (VInt64 1)))
    = UnsupportedOperator.
Proof.
  split.
  - exact (proj1 (C5_string_left_operand sample_host sample_vm "+"
                    (LitExpr (VString "a")) (LitExpr (VInt64 1)) "a" (VInt64 1)
                    eq_refl eq_refl) eq_refl).
  - apply (proj2 (C5_string_left_operand sample_host sample_vm "-"
                    (LitExpr (VString "a")) (LitExpr (VInt64 1)) "a" (VInt64 1)
                    eq_refl eq_refl)).
    discriminate.
Defined.

(** ** Dereferencing *)

Lemma deref_unwraps : forall rv c : value,
  deref rv = inl c -> unwraps rv c /\ concrete c.
Proof.
  fix IH 1. intros rv c.
  destruct rv as [| | | | | | | | | | | | | [x|] | | [x|] | t u |]; cbn;
    intros Hd; try discriminate;
    try (injection Hd as <-; split;
         [constructor | repeat split; discriminate]).
  - destruct (IH x c Hd) as [Hu Hc]. split; [now constructor | exact Hc].
  - destruct (IH x c Hd) as [Hu Hc]. split; [now constructor | exact Hc].
  - injection Hd as <-. split; [constructor |].
    destruct u; repeat split; discriminate.
Qed.

Lemma deref_concrete (c : value) : concrete c -> deref c = inl c.
Proof.
  intros (Hi & Hp & Hf). destruct c; cbn in *; congruence.
Qed.


Lemma unwraps_deref (rv c : value) :
  unwraps rv c -> deref rv = deref c.
Proof.
  induction 1; cbn; auto.
Qed.

Lemma deref_nil_like (z : value) :
  nil_like z -> deref z = inr (ErrNew "cannot reference value").
Proof.
  intros [-> | [-> | [-> | [t ->]]]]; reflexivity.
Qed.

Lemma deref_ends_nil (rv : value) :
  ends_nil rv -> deref rv = inr (ErrNew "cannot reference value").
Proof.
  intros (z & Hz & Hu). rewrite (unwraps_deref _ _ Hu). now apply deref_nil_like.
Qed.

Lemma deref_error : forall (rv : value) (err : error),
  deref rv = inr err -> err = ErrNew "cannot reference value" /\ ends_nil rv.
Proof.
  fix IH 1. intros rv err.
  destruct rv as [| | | | | | | | | | | | | [x|] | t | [x|] | |]; cbn;
    intros Hd; try discriminate.
  - injection Hd as <-. split; [reflexivity |].
    exists VNil. split; [left; reflexivity | constructor].
  - destruct (IH x err Hd) as [He (z & Hz & Hu)]. split; [exact He |].
    exists z. split; [exact Hz | now constructor].
  - injection Hd as <-. split; [reflexivity |].
    exists (VPtr None). split; [right; left; reflexivity | constructor].
  - injection Hd as <-. split; [reflexivity |].
    exists (VNilPtr t). split; [| constructor].
    right; right; right. now exists t.
  - destruct (IH x err Hd) as [He (z & Hz & Hu)]. split; [exact He |].
    exists z. split; [exact Hz | now constructor].
  - injection Hd as <-. split; [reflexivity |].
    exists (VIface None).
    split; [right; right; left; reflexivity | constructor].
Qed.

Lemma deref_total (rv : value) :
  ends_nil rv \/ exists c, concrete c /\ unwraps rv c.
Proof.
  destruct (deref rv) as [c | err] eqn:Hd.
  - right. exists c. destruct (deref_unwraps _ _ Hd). auto.
  - left. now destruct (deref_error _ _ Hd).
Qed.

Section EvalFacts.

Variable h : Host.
Variable v : VM.

Lemma derefOutcome_ok (l : Expr) (rv c : value) :
  Eval h v l = Ret rv None -> concrete c -> unwraps rv c ->
  derefOutcome (Eval h v l) = inl c.
Proof.
  intros He Hc Hu. rewrite He. cbn.
  rewrite (unwraps_deref _ _ Hu), (deref_concrete _ Hc). reflexivity.
Qed.

Lemma derefOutcome_nil (l : Expr) (rv : value) :
  Eval h v l = Ret rv None -> ends_nil rv ->
  derefOutcome (Eval h v l) = inr cannot_reference_value.
Proof.
  intros He Hn. rewrite He. cbn. rewrite (deref_ends_nil _ Hn). reflexivity.
Qed.

Lemma eval_deref_args_cons (a : Expr) (l : list Expr) :
  eval_deref_args (Eval h v) (a :: l) =
  match derefOutcome (Eval h v a) with
  | inr o => inr o
  | inl x =>
    match eval_deref_args (Eval h v) l with
    | inr o => inr o
    | inl xs => inl (x :: xs)
    end
  end.
Proof. reflexivity. Qed.

(** The arguments of a method call up to the first that is nil. *)
Lemma eval_deref_args_nil (pre post : list Expr) (a : Expr)
    (vals : list value) (av : value) :
  eval_deref_args (Eval h v) pre = inl vals ->
  Eval h v a = Ret av None -> ends_nil av ->
  eval_deref_args (Eval h v) (pre ++ a :: post) = inr cannot_reference_value.
Proof.
  revert vals. induction pre as [| b pre IH]; intros vals Hpre Ha Hn.
  - cbn [app]. rewrite eval_deref_args_cons, (derefOutcome_nil _ _ Ha Hn).
    reflexivity.
  - rewrite <- app_comm_cons, eval_deref_args_cons.
    rewrite eval_deref_args_cons in Hpre.
    destruct (derefOutcome (Eval h v b)) as [x | o]; [| discriminate].
    destruct (eval_deref_args (Eval h v) pre) as [xs | o] eqn:Hxs;
      [| discriminate].
    rewrite (IH xs eq_refl Ha Hn). reflexivity.
Qed.

(** C10.  When the receiver of a member access, an item access or a method
    call evaluates to a nil pointer or a nil interface (possibly behind
    pointers), the evaluation returns the error "cannot reference value";
    so does a method call one of whose arguments evaluates to such a value,
    once the method is resolved and the arguments before it are evaluated.
    Otherwise dereferencing strips every pointer and interface layer: the
    structural access is made on the concrete value underneath. *)
Theorem C10_deref_nil_is_error_else_concrete
    (l : Expr) (n : string) (idx : Expr) (exprs : list Expr) (rv : value) :
  Eval h v l = Ret rv None ->
  (ends_nil rv ->
     Eval h v (MemberExpr l n) = cannot_reference_value /\
     Eval h v (ItemExpr l idx) = cannot_reference_value /\
     Eval h v (MethodCallExpr l n exprs) = cannot_reference_value) /\
  (forall c, concrete c -> unwraps rv c ->
     evalAndDerefRv h v l = inl c /\
     Eval h v (MemberExpr l n) = member c n /\
     (forall rhs, Eval h v idx = Ret rhs None ->
        Eval h v (ItemExpr l idx) = item h c rhs) /\
     (forall m pre a post vals av,
        resolve_method c n = Some m ->
        exprs = (pre ++ a :: post)%list ->
        eval_deref_args (Eval h v) pre = inl vals ->
        Eval h v a = Ret av None -> ends_nil av ->
        Eval h v (MethodCallExpr l n exprs) = cannot_reference_value)) /\
  (ends_nil rv \/ exists c, concrete c /\ unwraps rv c).
Proof.
  intros He. split; [| split].
  - intros Hn. pose proof (derefOutcome_nil _ _ He Hn) as Hd.
    cbn [Eval]. rewrite Hd. auto.
  - intros c Hc Hu. pose proof (derefOutcome_ok _ _ _ He Hc Hu) as Hd.
    split; [exact Hd |]. cbn [Eval]. rewrite Hd.
    split; [reflexivity |]. split.
    + intros rhs Hi. rewrite Hi. reflexivity.
    + intros m pre a post vals av Hm -> Hpre Ha Hn.
      rewrite Hm, (eval_deref_args_nil _ _ _ _ _ Hpre Ha Hn). reflexivity.
  - apply deref_total.
Qed.

End EvalFacts.

Lemma C10_witness :
  Eval sample_host sample_vm (IdentExpr "p") = Ret (VPtr None) None /\
  Eval sample_host sample_vm (MemberExpr (IdentExpr "p") "N")
    = cannot_reference_value.
Proof.
  split; [reflexivity |].
  refine (proj1 (proj1 (C10_deref_nil_is_error_else_concrete sample_host
            sample_vm (IdentExpr "p") "N" NilExpr [] (VPtr None) eq_refl) _)).
  exists (VPtr None). split; [right; left; reflexivity | constructor].
Defined.

(** ** Calls, items and methods *)

Section AccessFacts.

Variable h : Host.
Variable v : VM.

(** C9.  [Eval] has no case for a [ForExpr], nor for the nil [Expr]: the
    type switch falls through and the result is the nil value with a nil
    error. *)
Theorem C9_unhandled_nodes_evaluate_to_nil (V1 V2 : string) (RHS : Expr) :
  Eval h v (ForExpr V1 V2 RHS) = Ret VNil None /\
  Eval h v NilExpr = Ret VNil None.
Proof.
  split; reflexivity.
Qed.

(** A value that is not of kind [Func] is not called. *)
Lemma Call_non_func (f : value) (args : list value) :
  kind_of f <> KFunc -> Call h f args = CallPanics CallNonFunc.
Proof.
  intros Hk. unfold Call.
  destruct f as [| | | | | | | | | | | | | | | | t u |]; cbn in *;
    try congruence; try reflexivity.
  destruct u; cbn in *; try congruence; reflexivity.
Qed.

(** C4, as the code has it.  A call of a name that is not in the
    environment is the error "invalid token: " followed by the name.  When
    the name is bound to a value that is not a function, the arguments are
    evaluated first and the first failure among them is the result;
    otherwise [reflect.Value.Call] panics: no error is returned for the
    value not being callable. *)
Theorem C4_call_of_unbound_or_non_function (n : string) (exprs : list Expr) :
  (env v !! n = None -> Eval h v (CallExpr n exprs) = UnboundName n) /\
  (forall f, env v !! n = Some f -> kind_of f <> KFunc ->
     match eval_args (Eval h v) exprs with
     | inr o => Eval h v (CallExpr n exprs) = o
     | inl _ => Eval h v (CallExpr n exprs) = Panic CallNonFunc
     end).
Proof.
  split.
  - intros Hn. cbn [Eval]. rewrite Hn. reflexivity.
  - intros f Hf Hk. cbn [Eval]. rewrite Hf.
    destruct (eval_args (Eval h v) exprs) as [args | o]; [| reflexivity].
    now rewrite (Call_non_func f args Hk).
Qed.

(** The method sets of a dereferenced receiver and of a pointer to it. *)
Lemma method_set_concrete (c : value) :
  concrete c ->
  method_set c = match type_info c with
                 | Some t => vmethods t
                 | None => []
                 end.
Proof.
  intros (_ & Hp & _). destruct c; cbn in *; congruence.
Qed.

Lemma method_set_New_ptr (c : value) :
  method_set (New_ptr c) = match type_info c with
                           | Some t => (vmethods t ++ pmethods t)%list
                           | None => []
                           end.
Proof. reflexivity. Qed.

Lemma assoc_app_None {A : Type} (n : string) (a b : list (string * A)) :
  assoc n a = None -> assoc n (a ++ b) = assoc n b.
Proof.
  induction a as [| [k x] a IH]; cbn; [reflexivity |].
  destruct (String.eqb k n); [discriminate | exact IH].
Qed.

(** C6.  The method of a receiver is looked up on the dereferenced value
    first; when that fails it is looked up on a pointer to (a copy of) the
    value, so that a method declared with a pointer receiver resolves, bound
    to that pointer, whatever the defined type of the value is, a struct
    type or not; only when both fail, as they do on a value whose type has
    no methods, is the result the error "cannot reference method". *)
Theorem C6_pointer_receiver_method_resolves
    (l : Expr) (n : string) (exprs : list Expr) (rv c : value) :
  Eval h v l = Ret rv None ->
  deref rv = inl c ->
  (forall t f,
     type_info c = Some t ->
     assoc n (vmethods t) = None -> assoc n (pmethods t) = Some f ->
     resolve_method c n = Some (f, VPtr (Some c)) /\
     forall args, eval_deref_args (Eval h v) exprs = inl args ->
       Eval h v (MethodCallExpr l n exprs)
         = ret_values h (host_method h f (VPtr (Some c)) args)) /\
  (forall t f,
     type_info c = Some t -> assoc n (vmethods t) = Some f ->
     resolve_method c n = Some (f, c)) /\
  (match type_info c with
   | Some t => assoc n (vmethods t) = None /\ assoc n (pmethods t) = None
   | None => True
   end ->
   Eval h v (MethodCallExpr l n exprs) = MethodNotFound n).
Proof.
  intros He Hd.
  assert (Hdo : derefOutcome (Eval h v l) = inl c)
    by (rewrite He; cbn; rewrite Hd; reflexivity).
  destruct (deref_unwraps _ _ Hd) as [_ Hc].
  pose proof (method_set_concrete c Hc) as Hset.
  pose proof (method_set_New_ptr c) as Hptr.
  split; [| split].
  - intros t f Ht Hv Hp.
    assert (Hr : resolve_method c n = Some (f, VPtr (Some c))).
    { unfold resolve_method, MethodByName. rewrite Hset, Hptr, Ht, Hv.
      now rewrite (assoc_app_None _ _ _ Hv), Hp. }
    split; [exact Hr |].
    intros args Hargs. cbn [Eval]. rewrite Hdo, Hr, Hargs. reflexivity.
  - intros t f Ht Hv.
    unfold resolve_method, MethodByName. now rewrite Hset, Ht, Hv.
  - intros Hnone. cbn [Eval]. rewrite Hdo.
    unfold resolve_method, MethodByName. rewrite Hset, Hptr.
    destruct (type_info c) as [t |]; [| reflexivity].
    destruct Hnone as [Hv Hp].
    now rewrite Hv, (assoc_app_None _ _ _ Hv), Hp.
Qed.

End AccessFacts.

(** C3.  An [int64] index at the length of a slice, and one below zero:
    [reflect.Value.Index] panics, and the test of [IsValid] that follows it
    in the code, with its error "cannot reference item", is not reached. *)
Theorem C3_index_out_of_range_panics :
  env sample_vm !! "xs" = Some (VSlice [VInt64 10; VInt64 20; VInt64 30]) /\
  Eval sample_host sample_vm (ItemExpr (IdentExpr "xs") (LitExpr (VInt64 3)))
    = Panic IndexOutOfRange /\
  Eval sample_host sample_vm (ItemExpr (IdentExpr "xs") (LitExpr (VInt64 (-1))))
    = Panic IndexOutOfRange /\
  item sample_host (VSlice [VInt64 10; VInt64 20; VInt64 30]) (VInt64 3)
    <> IndexError.
Proof.
  split; [reflexivity |]. split; [reflexivity |]. split; [reflexivity |].
  discriminate.
Qed.

Lemma C4_counterexample :
  env sample_vm !! "x" = Some (VInt64 1) /\
  Eval sample_host sample_vm (CallExpr "x" []) = Panic CallNonFunc /\
  ~ (exists x err, Eval sample_host sample_vm (CallExpr "x" []) = Ret x (Some err)).
Proof.
  split; [reflexivity |]. split; [reflexivity |].
  intros (x & err & He). discriminate He.
Qed.

Lemma C4_witness :
  Eval sample_host sample_vm (CallExpr "nope" []) = UnboundName "nope" /\
  Eval sample_host sample_vm (CallExpr "x" [IdentExpr "nope"])
    = UnboundName "nope" /\
  Eval sample_host sample_vm (CallExpr "x" [IdentExpr "x"]) = Panic CallNonFunc.
Proof.
  split; [| split].
  - exact (proj1 (C4_call_of_unbound_or_non_function sample_host sample_vm
                    "nope" []) eq_refl).
  - refine (proj2 (C4_call_of_unbound_or_non_function sample_host sample_vm
                    "x" [IdentExpr "nope"]) (VInt64 1) eq_refl _).
    discriminate.
  - refine (proj2 (C4_call_of_unbound_or_non_function sample_host sample_vm
                    "x" [IdentExpr "x"]) (VInt64 1) eq_refl _).
    discriminate.
Defined.

Lemma C6_witness :
  Eval sample_host sample_vm (MethodCallExpr (IdentExpr "c") "Inc" [])
    = Ret (VInt64 2) None /\
  Eval sample_host typed_vm (MethodCallExpr (IdentExpr "t") "Known" [])
    = Ret (VBool true) None /\
  Eval sample_host sample_vm (MethodCallExpr (IdentExpr "c") "Dec" [])
    = MethodNotFound "Dec" /\
  Eval sample_host sample_vm (MethodCallExpr (IdentExpr "x") "String" [])
    = MethodNotFound "String".
Proof.
  split; [| split; [| split]].
  - exact (proj2 (proj1 (C6_pointer_receiver_method_resolves sample_host
             sample_vm (IdentExpr "c") "Inc" []
             (VStruct Counter [("N", (true, VInt64 1))])
             (VStruct Counter [("N", (true, VInt64 1))]) eq_refl eq_refl)
             Counter "Counter.Inc" eq_refl eq_refl eq_refl) [] eq_refl).
  - exact (proj2 (proj1 (C6_pointer_receiver_method_resolves sample_host
             typed_vm (IdentExpr "t") "Known" []
             (VDefined Celsius (VFloat64 one_f64))
             (VDefined Celsius (VFloat64 one_f64)) eq_refl eq_refl)
             Celsius "Celsius.Known" eq_refl eq_refl eq_refl) [] eq_refl).
  - exact (proj2 (proj2 (C6_pointer_receiver_method_resolves sample_host
             sample_vm (IdentExpr "c") "Dec" []
             (VStruct Counter [("N", (true, VInt64 1))])
             (VStruct Counter [("N", (true, VInt64 1))]) eq_refl eq_refl))
             (conj eq_refl eq_refl)).
  - exact (proj2 (proj2 (C6_pointer_receiver_method_resolves sample_host
             sample_vm (IdentExpr "x") "String" []
             (VInt64 1) (VInt64 1) eq_refl eq_refl)) I).
Defined.

(** ** The parser's loop *)

Section ParserFacts.

Variable h : Host.

Lemma run_add (n m : nat) (c c' : config) :
  run h n c = Some c' -> run h (n + m) c = run h m c'.
Proof.
  revert c. induction n as [| n IH]; cbn; intros c Hr.
  - now injection Hr as ->.
  - destruct (yynewstate h c) as [[c1 | |] | c1]; try discriminate; auto.
Qed.

Lemma yyloop_run (n m : nat) (c c' : config) :
  run h n c = Some c' -> yyloop h (n + m) c = yyloop h m c'.
Proof.
  revert c. induction n as [| n IH]; cbn; intros c Hr.
  - now injection Hr as ->.
  - destruct (yynewstate h c) as [[c1 | |] | c1]; try discriminate; auto.
Qed.

Lemma run_one (c c' : config) :
  yynewstate h c = Done (Continue c') -> run h 1 c = Some c'.
Proof.
  intros Hs. cbn. now rewrite Hs.
Qed.

(** A simple state goes to [yydefault] without reading a token. *)
Lemma yynewstate_simple (c : config) :
  simple (yys (top c)) = true -> yynewstate h c = yydefault h c.
Proof.
  unfold simple, yynewstate.
  destruct (idx yyPact (yys (top c))) as [p |]; [| discriminate].
  now intros ->.
Qed.

Lemma lookahead_stack (c c1 : config) :
  lookahead h c = Some c1 ->
  top c1 = top c /\ below c1 = below c /\ above c1 = above c /\
  yyVAL c1 = yyVAL c /\ Errflag c1 = Errflag c /\ Nerrs c1 = Nerrs c /\
  e (lex c1) = e (lex c).
Proof.
  unfold lookahead, yylex1, Lex.
  destruct (char c <? 0).
  - destruct (Scan (src (lex c))) as [t rest].
    destruct t; repeat
      match goal with
      | |- context [match ?x with _ => _ end] =>
        match x with
        | context [match _ with _ => _ end] => fail 1
        | _ => destruct x
        end
      end; intros Hc; try discriminate; injection Hc as <-; cbn; auto 10.
  - intros Hc. injection Hc as <-. auto 10.
Qed.

(** In any other state the token is read and the tables decide. *)
Lemma yynewstate_peek (c c1 : config) :
  simple (yys (top c)) = false ->
  lookahead h c = Some c1 ->
  yynewstate h c =
    match decide (yys (top c)) (yytoken c1) with
    | DShift a =>
      Done (yystack
              (mkConfig (lex c1) (lval c1) (-1) (-1) (lval c1) (top c1)
                 (below c1) (above c1)
                 (if 0 <? Errflag c1 then Errflag c1 - 1 else Errflag c1)
                 (Nerrs c1)) a)
    | DDefault => yydefault h c1
    | DCrash => Done Crash
    end.
Proof.
  unfold simple, yynewstate, decide. intros Hs Hl.
  destruct (idx yyPact (yys (top c))) as [p |]; [| reflexivity].
  rewrite Hs, Hl.
  destruct ((p + yytoken c1 <? 0) || (yyLast <=? p + yytoken c1));
    [reflexivity |].
  destruct (idx yyAct (p + yytoken c1)) as [a |]; [| reflexivity].
  destruct (idx yyChk a) as [chk |]; [| reflexivity].
  destruct (chk =? yytoken c1); reflexivity.
Qed.

(** A state whose default action is a production reduces by it. *)
Lemma yydefault_reduce (c : config) (r : Z) :
  idx yyDef (yys (top c)) = Some r -> 0 < r ->
  yydefault h c = Done (reduce c r).
Proof.
  unfold yydefault. intros -> Hr.
  destruct (Z.eqb_spec r (-2)); [lia |].
  destruct (Z.eqb_spec r 0); [lia |]. reflexivity.
Qed.

End ParserFacts.

(** ** Tokens *)

Lemma idx_in_range (t : list Z) (i : Z) :
  0 <= i < len t -> exists x, idx t i = Some x.
Proof.
  unfold idx, len. intros Hi.
  destruct (Z.ltb_spec i 0); [lia |].
  destruct (nth_error t (Z.to_nat i)) as [x |] eqn:Hn; [now exists x |].
  apply nth_error_None in Hn. lia.
Qed.

(** Every character has a token number. *)
Lemma yyTokOf_total (ch : Z) : exists k, yyTokOf ch = Some k.
Proof.
  assert (Hout : forall token : Z,
            exists k, (if token =? 0 then idx yyTok2 1 else Some token) = Some k).
  { intros token. destruct (token =? 0); [now exists 3 | now exists token]. }
  unfold yyTokOf.
  destruct (Z.leb_spec ch 0); [apply (Hout 1) |].
  destruct (Z.ltb_spec ch (len yyTok1)).
  { destruct (idx_in_range yyTok1 ch ltac:(lia)) as [x ->]. apply Hout. }
  destruct (Z.leb_spec yyPrivate ch); cbn [andb].
  - destruct (Z.ltb_spec ch (yyPrivate + len yyTok2)).
    + destruct (idx_in_range yyTok2 (ch - yyPrivate)) as [x ->]; [| apply Hout].
      unfold yyPrivate in *. lia.
    + change (idx yyTok3 0) with (Some 0); cbv beta iota.
      destruct (Z.eqb_spec 0 ch); [lia | exists 3; reflexivity].
  - change (idx yyTok3 0) with (Some 0); cbv beta iota.
    destruct (Z.eqb_spec 0 ch); [lia | exists 3; reflexivity].
Qed.

Lemma tok_known (t : tok) : yyTokOf (tok_char t) = Some (tokno t).
Proof.
  unfold tokno. destruct (yyTokOf_total (tok_char t)) as [k ->]. reflexivity.
Qed.

Lemma tok_char_nonneg (t : tok) : 0 <= tok_char t.
Proof.
  destruct t; cbn; try discriminate. unfold char_code. lia.
Qed.

Lemma holds_tok_sets (t : tok) (lv : yySymType) : holds t (tok_sets t lv).
Proof.
  destruct t; cbn; auto.
Qed.

Section MoveFacts.

Variable h : Host.

Lemma at_tokens_unread (c : config) (ts : list tok) :
  char c < 0 -> lexes h ts (src (lex c)) -> at_tokens h c ts.
Proof.
  intros Hc Hl. destruct ts as [| t ts]; cbn; [split | left]; auto.
Qed.

(** Reading the token that comes next. *)
Lemma peek_tok (c : config) (t : tok) (ts : list tok) :
  at_tokens h c (t :: ts) ->
  exists c1,
    lookahead h c = Some c1 /\ yytoken c1 = tokno t /\ holds t (lval c1) /\
    lexes h ts (src (lex c1)) /\ at_tokens h c1 (t :: ts).
Proof.
  intros [[Hc (s' & HLex & Hts)] | (Hc & Hpos & Htok & Hval & Hts)].
  - unfold lookahead, yylex1.
    destruct (Z.ltb_spec (char c) 0); [| lia].
    destruct (lex c) as [s a] eqn:Hlex. cbn in HLex.
    rewrite HLex, tok_known.
    eexists. split; [reflexivity |]. cbn.
    split; [reflexivity |]. split; [apply holds_tok_sets |].
    split; [exact Hts |]. right.
    repeat split; auto using tok_char_nonneg, holds_tok_sets.
  - exists c. unfold lookahead.
    destruct (Z.ltb_spec (char c) 0); [lia |].
    split; [reflexivity |]. split; [exact Htok |]. split; [exact Hval |].
    split; [exact Hts |]. right. auto.
Qed.

Lemma peek_eof (c : config) :
  at_tokens h c [] ->
  exists c1,
    lookahead h c = Some c1 /\ yytoken c1 = yyEofCode /\ at_tokens h c1 [].
Proof.
  intros [Hc Hs]. unfold lookahead, yylex1, Lex, Scan.
  destruct (Z.ltb_spec (char c) 0); [| lia].
  rewrite Hs. cbn.
  eexists. split; [reflexivity |]. cbn.
  split; [reflexivity |]. split; [lia | reflexivity].
Qed.

Lemma peek (c : config) (ts : list tok) :
  at_tokens h c ts ->
  exists c1,
    lookahead h c = Some c1 /\ yytoken c1 = next_tokno ts /\
    at_tokens h c1 ts.
Proof.
  destruct ts as [| t ts]; intros Hat.
  - now apply peek_eof.
  - destruct (peek_tok _ _ _ Hat) as (c1 & Hl & Hk & _ & _ & Hat1).
    exists c1. auto.
Qed.

(** A shift. *)
Lemma shift_move (c : config) (t : tok) (ts : list tok) (a : Z) :
  at_tokens h c (t :: ts) ->
  simple (yys (top c)) = false ->
  decide (yys (top c)) (tokno t) = DShift a ->
  exists c',
    yynewstate h c = Done (Continue c') /\
    yys (top c') = a /\ holds t (top c') /\
    below c' = top c :: below c /\
    at_tokens h c' ts /\ e (lex c') = e (lex c).
Proof.
  intros Hat Hs Hd.
  destruct (peek_tok _ _ _ Hat) as (c1 & Hl & Hk & Hval & Hts & _).
  destruct (lookahead_stack _ _ _ Hl) as (Ht & Hb & _ & _ & _ & _ & He).
  rewrite (yynewstate_peek h c c1 Hs Hl), Hk, Hd.
  eexists. split; [reflexivity |]. cbn.
  split; [reflexivity |].
  split; [destruct t; cbn in *; auto |].
  split; [now rewrite Ht, Hb |].
  split; [| exact He].
  apply at_tokens_unread; [cbn; lia | exact Hts].
Qed.

(** A reduction that is decided by the token that comes next. *)
Lemma reduce_peek (c : config) (ts : list tok) (r : Z) :
  at_tokens h c ts ->
  simple (yys (top c)) = false ->
  decide (yys (top c)) (next_tokno ts) = DDefault ->
  idx yyDef (yys (top c)) = Some r -> 0 < r ->
  exists c1,
    yynewstate h c = Done (reduce c1 r) /\
    top c1 = top c /\ below c1 = below c /\
    at_tokens h c1 ts /\ e (lex c1) = e (lex c).
Proof.
  intros Hat Hs Hd Hr Hpos.
  destruct (peek _ _ Hat) as (c1 & Hl & Hk & Hat1).
  destruct (lookahead_stack _ _ _ Hl) as (Ht & Hb & _ & _ & _ & _ & He).
  exists c1.
  rewrite (yynewstate_peek h c c1 Hs Hl), Hk, Hd.
  rewrite (yydefault_reduce h c1 r); [auto | now rewrite Ht | exact Hpos].
Qed.

(** A reduction in a simple state. *)
Lemma reduce_simple (c : config) (r : Z) :
  simple (yys (top c)) = true ->
  idx yyDef (yys (top c)) = Some r -> 0 < r ->
  yynewstate h c = Done (reduce c r).
Proof.
  intros Hs Hr Hpos.
  rewrite (yynewstate_simple h c Hs). now apply yydefault_reduce.
Qed.

End MoveFacts.

(** ** Reductions *)

Lemma at_tokens_same_input (h : Host) (c c' : config) (ts : list tok) :
  same_input c c' -> at_tokens h c ts -> at_tokens h c' ts.
Proof.
  intros (Hs & Hl & Hc & Hk). unfold at_tokens.
  rewrite Hs, Hl, Hc, Hk. auto.
Qed.

(** Production 7: expr -> LIT *)
Lemma reduce_LIT (c : config) (base : yySymType) (rest : list yySymType) (g : Z) :
  below c = base :: rest -> yygoto 7 (yys base) = Some g ->
  exists c',
    reduce c 7 = Continue c' /\ yys (top c') = g /\
    expr (top c') = LitExpr (lit (top c)) /\
    below c' = base :: rest /\ same_input c c' /\ e (lex c') = e (lex c).
Proof.
  destruct c as [l lv ch tk VAL tp bl ab ef ne]. cbn. intros -> Hg.
  reduce_by 1%Z 1%nat. rewrite Hg. reduced.
Qed.

(** Production 17: expr -> IDENT *)
Lemma reduce_IDENT (c : config) (base : yySymType) (rest : list yySymType) (g : Z) :
  below c = base :: rest -> yygoto 7 (yys base) = Some g ->
  exists c',
    reduce c 17 = Continue c' /\ yys (top c') = g /\
    expr (top c') = IdentExpr (str (top c)) /\
    below c' = base :: rest /\ same_input c c' /\ e (lex c') = e (lex c).
Proof.
  destruct c as [l lv ch tk VAL tp bl ab ef ne]. cbn. intros -> Hg.
  reduce_by 1%Z 1%nat. rewrite Hg. reduced.
Qed.

(** Production 8: expr -> '(' expr ')' *)
Lemma reduce_paren (c : config) (x lp base : yySymType)
    (rest : list yySymType) (g : Z) :
  below c = x :: lp :: base :: rest -> yygoto 7 (yys base) = Some g ->
  exists c',
    reduce c 8 = Continue c' /\ yys (top c') = g /\
    expr (top c') = expr x /\
    below c' = base :: rest /\ same_input c c' /\ e (lex c') = e (lex c).
Proof.
  destruct c as [l lv ch tk VAL tp bl ab ef ne]. cbn. intros -> Hg.
  reduce_by 3%Z 3%nat. rewrite Hg. reduced.
Qed.

(** Productions 9 to 12: expr -> expr op expr *)
Lemma reduce_op (o : opsym) (c : config) (x_op x_l base : yySymType)
    (rest : list yySymType) (g : Z) :
  below c = x_op :: x_l :: base :: rest -> yygoto 7 (yys base) = Some g ->
  exists c',
    reduce c (op_rule o) = Continue c' /\ yys (top c') = g /\
    expr (top c') = BinOpExpr (op_text o) (expr x_l) (expr (top c)) /\
    below c' = base :: rest /\ same_input c c' /\ e (lex c') = e (lex c).
Proof.
  destruct c as [l lv ch tk VAL tp bl ab ef ne]. cbn. intros -> Hg.
  destruct o; cbn [op_rule]; reduce_by 3%Z 3%nat; rewrite Hg; reduced.
Qed.

(** ** Expressions *)

Lemma expr_ctx_program : expr_ctx 0 3.
Proof.
  unfold expr_ctx. repeat split; try reflexivity. intros []; reflexivity.
Qed.

Lemma expr_ctx_paren : expr_ctx 5 14.
Proof.
  unfold expr_ctx. repeat split; try reflexivity. intros []; reflexivity.
Qed.

Lemma expr_ctx_op (o : opsym) : expr_ctx (op_state o) (op_goto o).
Proof.
  unfold expr_ctx. destruct o; repeat split; try reflexivity;
    intros []; reflexivity.
Qed.

Lemma expr_ctx_for1 : expr_ctx 16 27.
Proof.
  unfold expr_ctx. repeat split; try reflexivity. intros []; reflexivity.
Qed.

Lemma expr_ctx_for2 : expr_ctx 33 36.
Proof.
  unfold expr_ctx. repeat split; try reflexivity. intros []; reflexivity.
Qed.

Lemma closes_next (rest : list tok) :
  closes rest -> next_tokno rest = 1 \/ next_tokno rest = 10.
Proof.
  intros [-> | (r & ->)]; [left | right]; reflexivity.
Qed.

Lemma follows_next (rest : list tok) :
  follows rest ->
  In (next_tokno rest) [1; 10; 11; 12; 13; 14].
Proof.
  intros [Hc | (o & r & ->)].
  - destruct (closes_next _ Hc) as [-> | ->]; cbn; auto.
  - destruct o; cbn; auto 10.
Qed.

Section ExprFacts.

Variable h : Host.

Lemma parse_atom_chain :
  (forall (a : atom) (c : config) (s g : Z) (rest : list tok),
     yys (top c) = s -> expr_ctx s g ->
     at_tokens h c (atom_toks a ++ rest) -> follows rest ->
     parsed h (atom_cost a) c g (atom_ast a) rest) /\
  (forall (x : chain) (c : config) (s g : Z) (rest : list tok),
     yys (top c) = s -> expr_ctx s g ->
     at_tokens h c (chain_toks x ++ rest) -> closes rest ->
     parsed h (chain_cost x) c g (chain_ast x) rest).
Proof.
  apply atom_chain_mutind.
  - (* a literal: shift, then production 7 *)
    intros ds c s g rest Hs (Hsimple & _ & HLit & _ & _ & Hgoto & _) Hat _.
    cbn [atom_toks app] in Hat.
    destruct (shift_move h c _ _ 4 Hat) as (c1 & Hstep1 & Hs1 & Hv1 & Hb1 & Hat1 & He1);
      [congruence | now rewrite Hs |].
    destruct (reduce_LIT c1 (top c) (below c) g Hb1) as
      (c2 & Hstep2 & Hs2 & Hx2 & Hb2 & Hin2 & He2); [now rewrite Hs |].
    exists c2. split.
    { cbn [atom_cost run]. rewrite Hstep1.
      rewrite (reduce_simple h c1 7); [now rewrite Hstep2 | | |];
        rewrite ?Hs1; [reflexivity | reflexivity | lia]. }
    split; [exact Hs2 |]. split; [cbn in Hv1 |- *; now rewrite Hx2, Hv1 |].
    split; [exact Hb2 |].
    split; [now apply (at_tokens_same_input h c1) | congruence].
  - (* an identifier: shift, then production 17 once the next token is read *)
    intros w c s g rest Hs (Hsimple & _ & _ & HId & _ & Hgoto & _) Hat Hf.
    cbn [atom_toks app] in Hat.
    destruct (shift_move h c _ _ 6 Hat) as (c1 & Hstep1 & Hs1 & Hv1 & Hb1 & Hat1 & He1);
      [congruence | now rewrite Hs |].
    destruct (reduce_peek h c1 rest 17 Hat1) as
      (c1' & Hstep1' & Ht1' & Hb1' & Hat1' & He1').
    { now rewrite Hs1. }
    { rewrite Hs1. pose proof (follows_next _ Hf) as Hn. cbn in Hn.
      destruct Hn as [<- | [<- | [<- | [<- | [<- | [<- | []]]]]]]; reflexivity. }
    { now rewrite Hs1. }
    { lia. }
    destruct (reduce_IDENT c1' (top c) (below c) g) as
      (c2 & Hstep2 & Hs2 & Hx2 & Hb2 & Hin2 & He2);
      [congruence | now rewrite Hs |].
    exists c2. split.
    { cbn [atom_cost run]. now rewrite Hstep1, Hstep1', Hstep2. }
    split; [exact Hs2 |].
    split; [cbn in Hv1 |- *; now rewrite Hx2, Ht1', Hv1 |].
    split; [exact Hb2 |].
    split; [now apply (at_tokens_same_input h c1') | congruence].
  - (* parentheses: shift, the expression, shift, production 8 *)
    intros x IH c s g rest Hs (Hsimple & _ & _ & _ & HParen & Hgoto & _) Hat _.
    cbn [atom_toks app] in Hat. rewrite <- app_assoc in Hat.
    destruct (shift_move h c _ _ 5 Hat) as (c1 & Hstep1 & Hs1 & _ & Hb1 & Hat1 & He1);
      [congruence | now rewrite Hs |].
    destruct (IH c1 5 14 _ Hs1 expr_ctx_paren Hat1) as
      (c2 & Hrun2 & Hs2 & Hx2 & Hb2 & Hat2 & He2).
    { right. eexists. reflexivity. }
    cbn [app] in Hat2.
    destruct (shift_move h c2 _ _ 24 Hat2) as (c3 & Hstep3 & Hs3 & _ & Hb3 & Hat3 & He3);
      [now rewrite Hs2 | now rewrite Hs2 |].
    destruct (reduce_paren c3 (top c2) (top c1) (top c) (below c) g) as
      (c4 & Hstep4 & Hs4 & Hx4 & Hb4 & Hin4 & He4);
      [now rewrite Hb3, Hb2, Hb1 | now rewrite Hs |].
    exists c4. split.
    { cbn [atom_cost].
      replace (3 + chain_cost x)%nat with (1 + (chain_cost x + 2))%nat by lia.
      rewrite (run_add h 1 _ c c1) by (now apply run_one).
      rewrite (run_add h _ _ c1 c2 Hrun2).
      cbn [run]. rewrite Hstep3.
      rewrite (reduce_simple h c3 8); [now rewrite Hstep4 | | |];
        rewrite ?Hs3; [reflexivity | reflexivity | lia]. }
    split; [exact Hs4 |]. split; [cbn; congruence |].
    split; [exact Hb4 |].
    split; [now apply (at_tokens_same_input h c3) | congruence].
  - (* a single operand *)
    intros a IH c s g rest Hs Hctx Hat Hc.
    apply (IH c s g rest Hs Hctx Hat). now left.
  - (* operand, operator, and the rest: the operator's production comes
       last *)
    intros a IHa o x IHx c s g rest Hs Hctx Hat Hc.
    cbn [chain_toks] in Hat. rewrite <- app_assoc in Hat.
    destruct (IHa c s g _ Hs Hctx Hat) as
      (c1 & Hrun1 & Hs1 & Hx1 & Hb1 & Hat1 & He1).
    { right. eexists _, _. reflexivity. }
    cbn [app] in Hat1.
    destruct Hctx as (_ & Hsimpleg & _ & _ & _ & Hgoto & Hops).
    destruct (shift_move h c1 _ _ (op_state o) Hat1) as
      (c2 & Hstep2 & Hs2 & _ & Hb2 & Hat2 & He2);
      [now rewrite Hs1 | rewrite Hs1; apply Hops |].
    destruct (IHx c2 _ _ rest Hs2 (expr_ctx_op o) Hat2 Hc) as
      (c3 & Hrun3 & Hs3 & Hx3 & Hb3 & Hat3 & He3).
    destruct (reduce_peek h c3 rest (op_rule o) Hat3) as
      (c3' & Hstep3' & Ht3' & Hb3' & Hat3' & He3').
    { rewrite Hs3. now destruct o. }
    { rewrite Hs3. destruct (closes_next _ Hc) as [-> | ->]; now destruct o. }
    { rewrite Hs3. now destruct o. }
    { destruct o; reflexivity. }
    destruct (reduce_op o c3' (top c2) (top c1) (top c) (below c) g) as
      (c4 & Hstep4 & Hs4 & Hx4 & Hb4 & Hin4 & He4);
      [now rewrite Hb3', Hb3, Hb2, Hb1 | now rewrite Hs |].
    exists c4. split.
    { cbn [chain_cost].
      replace (atom_cost a + chain_cost x + 2)%nat
        with (atom_cost a + (1 + (chain_cost x + 1)))%nat by lia.
      rewrite (run_add h _ _ c c1 Hrun1).
      rewrite (run_add h 1 _ c1 c2) by (now apply run_one).
      rewrite (run_add h _ _ c2 c3 Hrun3).
      cbn [run]. now rewrite Hstep3', Hstep4. }
    split; [exact Hs4 |].
    split; [cbn [chain_ast]; now rewrite Hx4, Ht3', Hx1, Hx3 |].
    split; [exact Hb4 |].
    split; [now apply (at_tokens_same_input h c3') | congruence].
Qed.

End ExprFacts.

(** ** Programs *)

(** Production 3: program -> expr *)
Lemma reduce_program (c : config) (base : yySymType) (rest : list yySymType) :
  below c = base :: rest -> yygoto 3 (yys base) = Some 1 ->
  exists c',
    reduce c 3 = Continue c' /\ yys (top c') = 1 /\
    same_input c c' /\ e (lex c') = expr (top c).
Proof.
  destruct c as [l lv ch tk VAL tp bl ab ef ne]. cbn. intros -> Hg.
  unfold reduce. change (idx yyR2 3) with (Some 1). cbv beta iota.
  change (Z.to_nat 1) with 1%nat. cbn -[yygoto]. rewrite Hg.
  cbn. eexists. split; [reflexivity |]. cbn. unfold same_input. cbn. auto 10.
Qed.

(** Production 1: program -> FOR IDENT IN expr *)
Lemma reduce_for1 (c : config) (x_in x_id x_for base : yySymType)
    (rest : list yySymType) :
  below c = x_in :: x_id :: x_for :: base :: rest ->
  yygoto 1 (yys base) = Some 1 ->
  exists c',
    reduce c 1 = Continue c' /\ yys (top c') = 1 /\
    same_input c c' /\
    e (lex c') = ForExpr (str x_id) "" (expr (top c)).
Proof.
  destruct c as [l lv ch tk VAL tp bl ab ef ne]. cbn. intros -> Hg.
  unfold reduce. change (idx yyR2 1) with (Some 4). cbv beta iota.
  change (Z.to_nat 4) with 4%nat. cbn -[yygoto]. rewrite Hg.
  cbn. eexists. split; [reflexivity |]. cbn. unfold same_input. cbn. auto 10.
Qed.

(** Production 2: program -> FOR IDENT ',' IDENT IN expr *)
Lemma reduce_for2 (c : config) (x_in x_id2 x_comma x_id1 x_for base : yySymType)
    (rest : list yySymType) :
  below c = x_in :: x_id2 :: x_comma :: x_id1 :: x_for :: base :: rest ->
  yygoto 2 (yys base) = Some 1 ->
  exists c',
    reduce c 2 = Continue c' /\ yys (top c') = 1 /\
    same_input c c' /\
    e (lex c') = ForExpr (str x_id1) (str x_id2) (expr (top c)).
Proof.
  destruct c as [l lv ch tk VAL tp bl ab ef ne]. cbn. intros -> Hg.
  unfold reduce. change (idx yyR2 2) with (Some 6). cbv beta iota.
  change (Z.to_nat 6) with 6%nat. cbn -[yygoto]. rewrite Hg.
  cbn. eexists. split; [reflexivity |]. cbn. unfold same_input. cbn. auto 10.
Qed.

Section ProgramFacts.

Variable h : Host.

(** State 1 at the end of the input: the parse returns 0. *)
Lemma accept (c : config) :
  yys (top c) = 1 -> at_tokens h c [] ->
  exists l, yynewstate h c = Done (Return 0 l) /\ e l = e (lex c).
Proof.
  intros Hs Hat.
  destruct (peek_eof h c Hat) as (c1 & Hl & Hk & _).
  destruct (lookahead_stack _ _ _ Hl) as (_ & _ & _ & _ & _ & _ & He).
  exists (lex c1). split; [| exact He].
  rewrite (yynewstate_simple h c) by (now rewrite Hs).
  unfold yydefault. rewrite Hs.
  change (idx yyDef 1) with (Some (-2)). cbv beta iota.
  change (-2 =? -2) with true. cbv beta iota.
  rewrite Hl. cbn -[yyExca_scan]. rewrite Hk. reflexivity.
Qed.

(** The end of a parse: a production of [program], then state 1. *)
Lemma finish (c c1 c2 : config) (r : Z) (m : nat) :
  at_tokens h c [] ->
  yynewstate h c = Done (reduce c1 r) -> at_tokens h c1 [] ->
  reduce c1 r = Continue c2 -> yys (top c2) = 1 -> same_input c1 c2 ->
  exists l, yyloop h (2 + m) c = Some (0, l) /\ e l = e (lex c2).
Proof.
  intros Hat Hstep Hat1 Hred Hs2 Hin.
  destruct (accept c2 Hs2 (at_tokens_same_input h _ _ _ Hin Hat1))
    as (l & Hacc & He).
  exists l. split; [| exact He].
  cbn [yyloop Nat.add]. now rewrite Hstep, Hred, Hacc.
Qed.

Lemma at_tokens_init (s : string) (a : Expr) (ts : list tok) :
  lexes h ts s -> at_tokens h (yyinit (mkLexer s a)) ts.
Proof.
  intros Hl. apply at_tokens_unread; [cbn; lia | exact Hl].
Qed.

(** The parse of an expression. *)
Lemma yyParse_expr (x : chain) (s : string) (a : Expr) (m : nat) :
  lexes h (chain_toks x) s ->
  exists l,
    yyParse h (chain_cost x + (2 + m)) (mkLexer s a) = Some (0, l) /\
    e l = chain_ast x.
Proof.
  intros Hl. unfold yyParse.
  pose proof (at_tokens_init s a _ Hl) as Hat.
  rewrite <- (app_nil_r (chain_toks x)) in Hat.
  destruct (proj2 (parse_atom_chain h) x (yyinit (mkLexer s a)) 0 3 []
              eq_refl expr_ctx_program Hat)
    as (c1 & Hrun1 & Hs1 & Hx1 & Hb1 & Hat1 & He1); [now left |].
  rewrite (yyloop_run h _ _ _ c1 Hrun1).
  destruct (reduce_peek h c1 [] 3 Hat1) as (c1' & Hstep & Ht & Hb & Hat1' & He1');
    rewrite ?Hs1; try reflexivity.
  destruct (reduce_program c1' _ _ (eq_trans Hb Hb1) eq_refl)
    as (c2 & Hred & Hs2 & Hin & He2).
  destruct (finish c1 c1' c2 3 m Hat1 Hstep Hat1' Hred Hs2 Hin) as (l & Hloop & He).
  exists l. split; [exact Hloop | congruence].
Qed.

(** The parse of [for x in e]. *)
Lemma yyParse_for1 (w : string) (x : chain) (s : string) (a : Expr) (m : nat) :
  lexes h (TFor :: TId w :: TIn :: chain_toks x) s ->
  exists l,
    yyParse h (3 + chain_cost x + (2 + m)) (mkLexer s a) = Some (0, l) /\
    e l = ForExpr w "" (chain_ast x).
Proof.
  intros Hl. unfold yyParse.
  pose proof (at_tokens_init s a _ Hl) as Hat.
  destruct (shift_move h _ _ _ 2 Hat) as (c1 & Hstep1 & Hs1 & _ & Hb1 & Hat1 & _);
    [reflexivity | reflexivity |].
  destruct (shift_move h _ _ _ 7 Hat1) as (c2 & Hstep2 & Hs2 & Hv2 & Hb2 & Hat2 & _);
    [now rewrite Hs1 | now rewrite Hs1 |].
  destruct (shift_move h _ _ _ 16 Hat2) as (c3 & Hstep3 & Hs3 & _ & Hb3 & Hat3 & _);
    [now rewrite Hs2 | now rewrite Hs2 |].
  rewrite <- (app_nil_r (chain_toks x)) in Hat3.
  destruct (proj2 (parse_atom_chain h) x _ 16 27 [] Hs3 expr_ctx_for1 Hat3)
    as (c4 & Hrun4 & Hs4 & Hx4 & Hb4 & Hat4 & _); [now left |].
  assert (Hrun : run h (3 + chain_cost x) (yyinit (mkLexer s a)) = Some c4).
  { replace (3 + chain_cost x)%nat with (1 + (1 + (1 + chain_cost x)))%nat by lia.
    rewrite (run_add h 1 _ _ c1) by (now apply run_one).
    rewrite (run_add h 1 _ _ c2) by (now apply run_one).
    rewrite (run_add h 1 _ _ c3) by (now apply run_one).
    exact Hrun4. }
  rewrite (yyloop_run h _ _ _ c4 Hrun).
  destruct (reduce_peek h c4 [] 1 Hat4) as (c4' & Hstep & Ht & Hb & Hat4' & _);
    rewrite ?Hs4; try reflexivity.
  destruct (reduce_for1 c4' (top c3) (top c2) (top c1)
              (top (yyinit (mkLexer s a))) [])
    as (c5 & Hred & Hs5 & Hin & He5);
    [now rewrite Hb, Hb4, Hb3, Hb2, Hb1 | reflexivity |].
  destruct (finish c4 c4' c5 1 m Hat4 Hstep Hat4' Hred Hs5 Hin) as (l & Hloop & He).
  exists l. split; [exact Hloop |].
  cbn in Hv2. rewrite He, He5, Ht, Hx4, Hv2. reflexivity.
Qed.

(** The parse of [for i, x in e]. *)
Lemma yyParse_for2 (w1 w2 : string) (x : chain) (s : string) (a : Expr)
    (m : nat) :
  lexes h (TFor :: TId w1 :: TChar "," :: TId w2 :: TIn :: chain_toks x) s ->
  exists l,
    yyParse h (5 + chain_cost x + (2 + m)) (mkLexer s a) = Some (0, l) /\
    e l = ForExpr w1 w2 (chain_ast x).
Proof.
  intros Hl. unfold yyParse.
  pose proof (at_tokens_init s a _ Hl) as Hat.
  destruct (shift_move h _ _ _ 2 Hat) as (c1 & Hstep1 & Hs1 & _ & Hb1 & Hat1 & _);
    [reflexivity | reflexivity |].
  destruct (shift_move h _ _ _ 7 Hat1) as (c2 & Hstep2 & Hs2 & Hv2 & Hb2 & Hat2 & _);
    [now rewrite Hs1 | now rewrite Hs1 |].
  destruct (shift_move h _ _ _ 17 Hat2) as (c3 & Hstep3 & Hs3 & _ & Hb3 & Hat3 & _);
    [now rewrite Hs2 | now rewrite Hs2 |].
  destruct (shift_move h _ _ _ 28 Hat3) as (c4 & Hstep4 & Hs4 & Hv4 & Hb4 & Hat4 & _);
    [now rewrite Hs3 | now rewrite Hs3 |].
  destruct (shift_move h _ _ _ 33 Hat4) as (c5 & Hstep5 & Hs5 & _ & Hb5 & Hat5 & _);
    [now rewrite Hs4 | now rewrite Hs4 |].
  rewrite <- (app_nil_r (chain_toks x)) in Hat5.
  destruct (proj2 (parse_atom_chain h) x _ 33 36 [] Hs5 expr_ctx_for2 Hat5)
    as (c6 & Hrun6 & Hs6 & Hx6 & Hb6 & Hat6 & _); [now left |].
  assert (Hrun : run h (5 + chain_cost x) (yyinit (mkLexer s a)) = Some c6).
  { replace (5 + chain_cost x)%nat
      with (1 + (1 + (1 + (1 + (1 + chain_cost x)))))%nat by lia.
    rewrite (run_add h 1 _ _ c1) by (now apply run_one).
    rewrite (run_add h 1 _ _ c2) by (now apply run_one).
    rewrite (run_add h 1 _ _ c3) by (now apply run_one).
    rewrite (run_add h 1 _ _ c4) by (now apply run_one).
    rewrite (run_add h 1 _ _ c5) by (now apply run_one).
    exact Hrun6. }
  rewrite (yyloop_run h _ _ _ c6 Hrun).
  destruct (reduce_peek h c6 [] 2 Hat6) as (c6' & Hstep & Ht & Hb & Hat6' & _);
    rewrite ?Hs6; try reflexivity.
  destruct (reduce_for2 c6' (top c5) (top c4) (top c3) (top c2) (top c1)
              (top (yyinit (mkLexer s a))) [])
    as (c7 & Hred & Hs7 & Hin & He7);
    [now rewrite Hb, Hb6, Hb5, Hb4, Hb3, Hb2, Hb1 | reflexivity |].
  destruct (finish c6 c6' c7 2 m Hat6 Hstep Hat6' Hred Hs7 Hin) as (l & Hloop & He).
  exists l. split; [exact Hloop |].
  cbn in Hv2, Hv4. rewrite He, He7, Ht, Hx6, Hv2, Hv4. reflexivity.
Qed.

End ProgramFacts.

(** ** The lexer *)

Lemma digit_not_letter (c : ascii) : is_digit c = true -> is_letter c = false.
Proof.
  destruct c as [[|] [|] [|] [|] [|] [|] [|] [|]]; vm_compute; congruence.
Qed.

Lemma digit_not_space (c : ascii) : is_digit c = true -> is_space c = false.
Proof.
  destruct c as [[|] [|] [|] [|] [|] [|] [|] [|]]; vm_compute; congruence.
Qed.

Lemma letter_not_space (c : ascii) : is_letter c = true -> is_space c = false.
Proof.
  destruct c as [[|] [|] [|] [|] [|] [|] [|] [|]]; vm_compute; congruence.
Qed.

Lemma append_cons (c : ascii) (w s : string) :
  String c w +:+ s = String c (w +:+ s).
Proof. reflexivity. Qed.

Lemma skip_space_app (ws s : string) :
  all_space ws -> skip_space (ws +:+ s) = skip_space s.
Proof.
  unfold all_space. induction ws as [| c ws IH]; [reflexivity |].
  rewrite append_cons. cbn.
  destruct (is_space c); [exact IH | discriminate].
Qed.

Lemma skip_space_all (ws : string) : all_space ws -> skip_space ws = "".
Proof.
  unfold all_space. induction ws as [| c ws IH]; cbn; [reflexivity |].
  destruct (is_space c); [exact IH | discriminate].
Qed.

Lemma Scan_skip (s1 s2 : string) :
  skip_space s1 = skip_space s2 -> Scan s1 = Scan s2.
Proof.
  unfold Scan. now intros ->.
Qed.

Lemma span_app (p : ascii -> bool) (w s : string) :
  forallb p (list_ascii_of_string w) = true -> stops p s ->
  span p (w +:+ s) = (w, s).
Proof.
  intros Hw Hs. induction w as [| c w IH].
  - change ("" +:+ s) with s.
    destruct s as [| c s]; cbn in *; [reflexivity | now rewrite Hs].
  - rewrite append_cons. cbn in *.
    apply andb_prop in Hw as [Hc Hw]. rewrite Hc, (IH Hw). reflexivity.
Qed.

(** An integer literal reads as its value. *)
Lemma ParseInt_lit (ds : string) :
  lit_ok ds = true -> ParseInt ds = inl (digits_value ds).
Proof.
  unfold lit_ok, digits_value. intros Hok.
  apply andb_prop in Hok as [Hok Hlt]. apply andb_prop in Hok as [Hne Hds].
  assert (Hd : exists d, NilEmpty.uint_of_string ds = Some d).
  { clear Hne Hlt. induction ds as [| c ds IH]; cbn in *; [now eexists |].
    apply andb_prop in Hds as [Hc Hds]. destruct (IH Hds) as [d ->].
    destruct c as [[|] [|] [|] [|] [|] [|] [|] [|]]; try discriminate Hc;
      cbn; now eexists. }
  destruct Hd as [d Hd]. rewrite Hd in Hlt |- *.
  pose proof (NilEmpty.sus _ _ Hd) as Hs. rewrite <- Hs.
  apply ParseInt_digits.
  - intros ->. cbn in Hs. subst ds. discriminate Hne.
  - now apply Z.ltb_lt.
Qed.

Section LexerFacts.

Variable h : Host.

Lemma Lex_TLit (ds s : string) (a : Expr) (lv : yySymType) :
  lit_ok ds = true -> sep_ok (TLit ds) s ->
  Lex h (mkLexer (ds +:+ s) a) lv
    = (LIT, mkLexer s a, set_lit lv (VInt64 (digits_value ds))).
Proof.
  intros Hok Hsep. pose proof (ParseInt_lit ds Hok) as Hp.
  unfold lit_ok in Hok.
  apply andb_prop in Hok as [Hok _]. apply andb_prop in Hok as [Hne Hds].
  destruct ds as [| c ds]; [discriminate Hne |].
  pose proof Hds as Hds'. cbn in Hds'. apply andb_prop in Hds' as [Hc _].
  assert (Hspan : span is_digit (String c ds +:+ s) = (String c ds, s)).
  { apply span_app; [exact Hds |].
    destruct s as [| c' s]; cbn in *; [exact I | tauto]. }
  unfold Lex, Scan. cbn [src].
  change (String c ds +:+ s) with (String c (ds +:+ s)) in *.
  cbn [skip_space]. rewrite (digit_not_space c Hc).
  rewrite (digit_not_letter c Hc), Hc, Hspan.
  assert (Hrest :
    match s with
    | String "."%char (String d _ as r2) =>
      if is_digit d
      then let '(fs, rest2) := span is_digit r2 in
           (SFloat (String c ds +:+ String "."%char fs), rest2)
      else (SInt (String c ds), s)
    | _ => (SInt (String c ds), s)
    end = (SInt (String c ds), s)).
  { destruct s as [| c' s]; [reflexivity |]. cbn in Hsep.
    destruct Hsep as [_ Hdot].
    destruct c' as [[|] [|] [|] [|] [|] [|] [|] [|]]; try reflexivity.
    congruence. }
  rewrite Hrest, Hp. reflexivity.
Qed.

Lemma Scan_word (c : ascii) (w s : string) :
  is_letter c = true -> forallb is_alnum (list_ascii_of_string w) = true ->
  stops is_alnum s ->
  Scan (String c w +:+ s) = (SIdent (String c w), s).
Proof.
  intros Hc Hw Hs.
  assert (Hspan : span is_alnum (String c w +:+ s) = (String c w, s)).
  { apply span_app; [| exact Hs]. cbn. unfold is_alnum at 1. now rewrite Hc. }
  unfold Scan. change (String c w +:+ s) with (String c (w +:+ s)) in *.
  cbn [skip_space]. rewrite (letter_not_space c Hc), Hc, Hspan. reflexivity.
Qed.

Lemma sep_ok_stops (t : tok) (s : string) :
  match t with TId _ | TFor | TIn => True | _ => False end ->
  sep_ok t s -> stops is_alnum s.
Proof.
  destruct s as [| c s]; [easy |]. destruct t; cbn; tauto.
Qed.

Lemma Lex_TId (w s : string) (a : Expr) (lv : yySymType) :
  ident_ok w = true -> sep_ok (TId w) s ->
  Lex h (mkLexer (w +:+ s) a) lv = (IDENT, mkLexer s a, set_str lv w).
Proof.
  unfold ident_ok. intros Hok Hsep.
  apply andb_prop in Hok as [Hok Hin]. apply andb_prop in Hok as [Hw Hfor].
  destruct w as [| c w]; [discriminate Hw |].
  apply andb_prop in Hw as [Hc Hw].
  unfold Lex. cbn [src].
  rewrite (Scan_word c w s Hc Hw (sep_ok_stops (TId (String c w)) s I Hsep)).
  apply negb_true_iff in Hfor, Hin. rewrite Hfor, Hin. reflexivity.
Qed.

Lemma Lex_TFor (s : string) (a : Expr) (lv : yySymType) :
  sep_ok TFor s ->
  Lex h (mkLexer ("for" +:+ s) a) lv = (FOR, mkLexer s a, lv).
Proof.
  intros Hsep. unfold Lex. cbn [src].
  rewrite (Scan_word "f" "or" s eq_refl eq_refl (sep_ok_stops TFor s I Hsep)).
  reflexivity.
Qed.

Lemma Lex_TIn (s : string) (a : Expr) (lv : yySymType) :
  sep_ok TIn s ->
  Lex h (mkLexer ("in" +:+ s) a) lv = (IN, mkLexer s a, lv).
Proof.
  intros Hsep. unfold Lex. cbn [src].
  rewrite (Scan_word "i" "n" s eq_refl eq_refl (sep_ok_stops TIn s I Hsep)).
  reflexivity.
Qed.

Lemma Lex_TChar (c : ascii) (s : string) (a : Expr) (lv : yySymType) :
  punct_ok c = true ->
  Lex h (mkLexer (String c s) a) lv = (char_code c, mkLexer s a, lv).
Proof.
  unfold punct_ok. intros Hok.
  apply andb_prop in Hok as [Hok Hq]. apply andb_prop in Hok as [Hok Hd].
  apply andb_prop in Hok as [Hsp Hl].
  apply negb_true_iff in Hsp, Hl, Hd, Hq.
  unfold Lex, Scan. cbn [src skip_space]. rewrite Hsp, Hl, Hd, Hq. reflexivity.
Qed.

Lemma Lex_tok (t : tok) (s : string) (a : Expr) (lv : yySymType) :
  tok_ok t = true -> sep_ok t s ->
  Lex h (mkLexer (tok_text t +:+ s) a) lv
    = (tok_char t, mkLexer s a, tok_sets t lv).
Proof.
  destruct t; cbn [tok_ok tok_text tok_char tok_sets]; intros Hok Hsep.
  - now apply Lex_TLit.
  - now apply Lex_TId.
  - now apply Lex_TFor.
  - now apply Lex_TIn.
  - now apply Lex_TChar.
Qed.

Lemma Lex_skip (ws s : string) (a : Expr) (lv : yySymType) :
  all_space ws -> Lex h (mkLexer (ws +:+ s) a) lv = Lex h (mkLexer s a) lv.
Proof.
  intros Hws. unfold Lex. cbn [src].
  now rewrite (Scan_skip (ws +:+ s) s (skip_space_app ws s Hws)).
Qed.

(** The lexer returns the tokens a text spells. *)
Lemma spells_lexes (ts : list tok) (s : string) :
  forallb tok_ok ts = true -> spells ts s -> lexes h ts s.
Proof.
  intros Hok Hsp. induction Hsp as [ws Hws | ws t ts s Hws Hsep Hsp IH].
  - cbn. now apply skip_space_all.
  - cbn in Hok. apply andb_prop in Hok as [Ht Hts].
    cbn [lexes]. exists s. split; [| now apply IH].
    intros a lv. rewrite (Lex_skip _ _ _ _ Hws). now apply Lex_tok.
Qed.

End LexerFacts.

(** A text is at least as long as the number of its tokens. *)
Lemma spells_length (ts : list tok) (s : string) :
  forallb tok_ok ts = true -> spells ts s ->
  (length ts <= String.length s)%nat.
Proof.
  assert (Happ : forall a b, String.length (a +:+ b)
                             = (String.length a + String.length b)%nat).
  { intros a b. induction a as [| c a IH]; [reflexivity |].
    rewrite append_cons. cbn. now rewrite IH. }
  intros Hok Hsp. induction Hsp as [ws Hws | ws t ts s Hws Hsep Hsp IH].
  - cbn. lia.
  - cbn in Hok. apply andb_prop in Hok as [Ht Hts].
    rewrite !Happ. cbn [length].
    assert (1 <= String.length (tok_text t))%nat.
    { destruct t as [ds | w | | | c]; cbn in *; try lia.
      - destruct ds; [discriminate Ht | cbn; lia].
      - destruct w; [discriminate Ht | cbn; lia]. }
    specialize (IH Hts). lia.
Qed.

(** ** Compile *)

Lemma cost_le_toks :
  (forall a : atom, (atom_cost a <= 2 * length (atom_toks a))%nat) /\
  (forall x : chain, (chain_cost x <= 2 * length (chain_toks x))%nat).
Proof.
  apply atom_chain_mutind; cbn [atom_cost chain_cost atom_toks chain_toks];
    intros; rewrite ?length_app; cbn [length]; rewrite ?length_app;
    cbn [length]; lia.
Qed.

Lemma toks_ok :
  (forall a : atom, atom_ok a = true -> forallb tok_ok (atom_toks a) = true) /\
  (forall x : chain, chain_ok x = true -> forallb tok_ok (chain_toks x) = true).
Proof.
  apply atom_chain_mutind; cbn [atom_ok chain_ok atom_toks chain_toks].
  - intros ds Hds. cbn [forallb tok_ok]. now rewrite Hds.
  - intros w Hw. cbn [forallb tok_ok]. now rewrite Hw.
  - intros x IH Hx. cbn [forallb]. rewrite forallb_app, (IH Hx). reflexivity.
  - auto.
  - intros a IHa o x IHx Hok. apply andb_prop in Hok as [Ha Hx].
    rewrite forallb_app. cbn [forallb]. rewrite (IHa Ha), (IHx Hx).
    now destruct o.
Qed.

Section CompileFacts.

Variable h : Host.
Variable v : VM.

(** An expression compiles to its tree. *)
Lemma Compile_expr (x : chain) (s : string) :
  chain_ok x = true -> spells (chain_toks x) s ->
  Compile h v s = (Compiled (chain_ast x), v).
Proof.
  intros Hok Hsp.
  pose proof (proj2 toks_ok x Hok) as Htoks.
  pose proof (spells_length _ _ Htoks Hsp) as Hlen.
  pose proof (proj2 cost_le_toks x) as Hcost.
  destruct (yyParse_expr h x s NilExpr (turns s - chain_cost x - 2)
              (spells_lexes h _ _ Htoks Hsp)) as (l & Hp & He).
  unfold Compile.
  replace (turns s) with (chain_cost x + (2 + (turns s - chain_cost x - 2)))%nat
    by (unfold turns; lia).
  rewrite Hp. cbn. now rewrite He.
Qed.

(** [for w in x] compiles to a [ForExpr] whose second name is empty. *)
Lemma Compile_for1 (w : string) (x : chain) (s : string) :
  ident_ok w = true -> chain_ok x = true ->
  spells (TFor :: TId w :: TIn :: chain_toks x) s ->
  Compile h v s = (Compiled (ForExpr w "" (chain_ast x)), v).
Proof.
  intros Hw Hok Hsp.
  assert (Htoks : forallb tok_ok (TFor :: TId w :: TIn :: chain_toks x) = true)
    by (cbn; now rewrite Hw, (proj2 toks_ok x Hok)).
  pose proof (spells_length _ _ Htoks Hsp) as Hlen. cbn [length] in Hlen.
  pose proof (proj2 cost_le_toks x) as Hcost.
  destruct (yyParse_for1 h w x s NilExpr (turns s - chain_cost x - 5)
              (spells_lexes h _ _ Htoks Hsp)) as (l & Hp & He).
  unfold Compile.
  replace (turns s)
    with (3 + chain_cost x + (2 + (turns s - chain_cost x - 5)))%nat
    by (unfold turns; lia).
  rewrite Hp. cbn. now rewrite He.
Qed.

(** [for w1, w2 in x] compiles to a [ForExpr] with both names. *)
Lemma Compile_for2 (w1 w2 : string) (x : chain) (s : string) :
  ident_ok w1 = true -> ident_ok w2 = true -> chain_ok x = true ->
  spells (TFor :: TId w1 :: TChar "," :: TId w2 :: TIn :: chain_toks x) s ->
  Compile h v s = (Compiled (ForExpr w1 w2 (chain_ast x)), v).
Proof.
  intros Hw1 Hw2 Hok Hsp.
  assert (Htoks : forallb tok_ok
            (TFor :: TId w1 :: TChar "," :: TId w2 :: TIn :: chain_toks x) = true)
    by (cbn; now rewrite Hw1, Hw2, (proj2 toks_ok x Hok)).
  pose proof (spells_length _ _ Htoks Hsp) as Hlen. cbn [length] in Hlen.
  pose proof (proj2 cost_le_toks x) as Hcost.
  destruct (yyParse_for2 h w1 w2 x s NilExpr (turns s - chain_cost x - 7)
              (spells_lexes h _ _ Htoks Hsp)) as (l & Hp & He).
  unfold Compile.
  replace (turns s)
    with (5 + chain_cost x + (2 + (turns s - chain_cost x - 7)))%nat
    by (unfold turns; lia).
  rewrite Hp. cbn. now rewrite He.
Qed.

(** The value of the tree of an expression without identifiers. *)
Lemma lit_value_range (ds : string) :
  lit_ok ds = true -> in_int64 (digits_value ds).
Proof.
  unfold lit_ok, in_int64, MinInt64, MaxInt64. intros Hok.
  apply andb_prop in Hok as [_ Hlt]. apply Z.ltb_lt in Hlt.
  assert (0 <= digits_value ds); [| lia].
  unfold digits_value. destruct (NilEmpty.uint_of_string ds); lia.
Qed.

Lemma op_apply_range (o : opsym) (a b n : Z) :
  op_apply o a b = Some n -> in_int64 n.
Proof.
  destruct o; cbn; try (intros [= <-]; apply wrap64_range).
  destruct (b =? 0); [discriminate |]. intros [= <-]. apply wrap64_range.
Qed.

Lemma Eval_op (o : opsym) (l r : Expr) (a b : Z) :
  Eval h v l = Ret (VInt64 a) None -> Eval h v r = Ret (VInt64 b) None ->
  in_int64 a -> in_int64 b ->
  Eval h v (BinOpExpr (op_text o) l r) = value_outcome (op_apply o a b).
Proof.
  intros Hl Hr Ha Hb.
  rewrite (Eval_BinOpExpr h v _ _ _ _ _ Hl Hr).
  rewrite (binop_int h _ (VInt64 a) (VInt64 b) a b eq_refl eq_refl Ha Hb).
  destruct o; cbn; try reflexivity. now destruct (b =? 0).
Qed.

Lemma Eval_closed :
  (forall a : atom, atom_ok a = true -> atom_closed a = true ->
     Eval h v (atom_ast a) = value_outcome (atom_value a) /\
     forall n, atom_value a = Some n -> in_int64 n) /\
  (forall x : chain, chain_ok x = true -> chain_closed x = true ->
     Eval h v (chain_ast x) = value_outcome (chain_value x) /\
     forall n, chain_value x = Some n -> in_int64 n).
Proof.
  apply atom_chain_mutind;
    cbn [atom_ok chain_ok atom_closed chain_closed atom_ast chain_ast
         atom_value chain_value].
  - intros ds Hok _. split; [reflexivity |].
    intros n [= <-]. now apply lit_value_range.
  - discriminate.
  - auto.
  - auto.
  - intros a IHa o x IHx Hok Hcl.
    apply andb_prop in Hok as [Hoka Hokx]. apply andb_prop in Hcl as [Hcla Hclx].
    destruct (IHa Hoka Hcla) as [Hea Hra]. destruct (IHx Hokx Hclx) as [Hex Hrx].
    split.
    + destruct (atom_value a) as [na |].
      * destruct (chain_value x) as [nx |].
        -- apply Eval_op; auto.
        -- cbn [Eval]. cbn in Hea, Hex. now rewrite Hea, Hex.
      * cbn [Eval]. cbn in Hea. now rewrite Hea.
    + destruct (atom_value a), (chain_value x); try discriminate.
      intros n. apply op_apply_range.
Qed.

End CompileFacts.

(** ** Every parse returns *)

Lemma tables_ok_true : tables_ok = true.
Proof. vm_compute. reflexivity. Qed.

Lemma in_list_In (x : Z) (l : list Z) : in_list x l = true <-> In x l.
Proof.
  unfold in_list. rewrite existsb_exists. split.
  - intros (y & Hy & Heq). apply Z.eqb_eq in Heq. now subst.
  - intros Hx. exists x. split; [exact Hx | apply Z.eqb_refl].
Qed.

Lemma has_edge_In (E : list (Z * Z)) (p t : Z) :
  has_edge E p t = true <-> In (p, t) E.
Proof.
  unfold has_edge. rewrite existsb_exists. split.
  - intros ([p' t'] & Hin & Heq). cbn in Heq.
    apply andb_prop in Heq as [Hp Ht].
    apply Z.eqb_eq in Hp, Ht. now subst.
  - intros Hin. exists (p, t). split; [exact Hin |]. cbn.
    now rewrite !Z.eqb_refl.
Qed.

Lemma edge_states (p t : Z) :
  edge p t = true -> In p yyStates /\ In t yyStates /\ t <> 0.
Proof.
  unfold edge. intros He. apply has_edge_In in He.
  pose proof tables_ok_true as Hok. unfold tables_ok in Hok.
  apply andb_prop in Hok as [Hedges _].
  rewrite forallb_forall in Hedges. specialize (Hedges _ He).
  cbv beta in Hedges. cbn [fst snd] in Hedges.
  apply andb_prop in Hedges as [Hpt Hnz]. apply andb_prop in Hpt as [Hp Ht].
  apply in_list_In in Hp, Ht. apply negb_true_iff, Z.eqb_neq in Hnz. auto.
Qed.

Lemma state_checks (s : Z) :
  In s yyStates ->
  no_error_shift s = true /\
  forall k, In k yyTokens -> shift_ok s k = true /\ default_ok s k = true.
Proof.
  intros Hs. pose proof tables_ok_true as Hok. unfold tables_ok in Hok.
  apply andb_prop in Hok as [_ Hstates].
  rewrite forallb_forall in Hstates. specialize (Hstates _ Hs).
  apply andb_prop in Hstates as [Herr Htoks]. split; [exact Herr |].
  intros k Hk. rewrite forallb_forall in Htoks. specialize (Htoks _ Hk).
  now apply andb_prop in Htoks.
Qed.

(** Stacks *)

Lemma valid_stack_cons (s p : Z) (st : list Z) :
  valid_stack (s :: p :: st) = true ->
  edge p s = true /\ valid_stack (p :: st) = true.
Proof.
  cbn [valid_stack]. intros Hv. now apply andb_prop in Hv.
Qed.

Lemma valid_stack_top (s : Z) (st : list Z) :
  valid_stack (s :: st) = true -> In s yyStates.
Proof.
  destruct st as [| p st].
  - cbn. intros Hs. apply Z.eqb_eq in Hs. subst. cbn. auto.
  - intros Hv. apply valid_stack_cons in Hv as [He _].
    now apply edge_states in He.
Qed.

Lemma valid_stack_all (st : list Z) :
  valid_stack st = true -> Forall (fun s => In s yyStates) st.
Proof.
  induction st as [| s st IH]; [discriminate |].
  intros Hv. constructor; [now apply (valid_stack_top s st) |].
  destruct st as [| p st]; [constructor |].
  apply IH. now apply valid_stack_cons in Hv.
Qed.

Lemma preds_In (p t : Z) : edge p t = true -> In p (preds yyEdges t).
Proof.
  unfold edge, preds. intros He. apply has_edge_In in He.
  apply in_map_iff. exists (p, t). split; [reflexivity |].
  apply filter_In. split; [exact He | apply Z.eqb_refl].
Qed.

(** Walking down a stack stays within [back_w]. *)
Lemma back_w_walk (n : nat) :
  forall (s : Z) (st : list Z) (acc : nat),
    valid_stack (s :: st) = true -> (n <= length st)%nat ->
    In (nth n (s :: st) 0,
        (acc + list_sum (map weight (firstn n (s :: st))))%nat)
       (back_w n s acc).
Proof.
  induction n as [| n IH]; intros s st acc Hv Hn.
  - cbn. left. f_equal. lia.
  - destruct st as [| p st]; [cbn in Hn; lia |].
    apply valid_stack_cons in Hv as [He Hv].
    cbn [back_w]. apply in_flat_map. exists p.
    split; [now apply preds_In |].
    cbn in Hn.
    specialize (IH p st (acc + weight s)%nat Hv ltac:(lia)).
    change (nth (S n) (s :: p :: st) 0) with (nth n (p :: st) 0).
    change (firstn (S n) (s :: p :: st)) with (s :: firstn n (p :: st)).
    cbn [map].
    change (list_sum (weight s :: map weight (firstn n (p :: st))))
      with (weight s + list_sum (map weight (firstn n (p :: st))))%nat.
    replace (acc + (weight s + list_sum (map weight (firstn n (p :: st)))))%nat
      with (acc + weight s + list_sum (map weight (firstn n (p :: st))))%nat
      by lia.
    exact IH.
Qed.

Lemma valid_stack_bottom (st : list Z) :
  valid_stack st = true -> nth (length st - 1) st 0 = 0.
Proof.
  induction st as [| s st IH]; [discriminate |].
  destruct st as [| p st].
  - cbn. intros Hs. now apply Z.eqb_eq in Hs.
  - intros Hv. apply valid_stack_cons in Hv as [_ Hv].
    specialize (IH Hv). cbn [length] in *.
    replace (S (S (length st)) - 1)%nat with (S (length st)) by lia.
    replace (S (length st) - 1)%nat with (length st) in IH by lia.
    exact IH.
Qed.

(** A reduction that passed the check finds its right-hand side. *)
Lemma reduce_depth (s r : Z) (st : list Z) (n : nat) :
  valid_stack (s :: st) = true ->
  forallb
    (fun j => forallb (fun bw => negb (fst bw =? 0)) (back_w j s 0))
    (seq 0 n) = true ->
  (n <= length st)%nat.
Proof.
  intros Hv Hchk.
  destruct (Nat.le_gt_cases n (length st)) as [Hle | Hgt]; [exact Hle |].
  rewrite forallb_forall in Hchk.
  specialize (Hchk (length st)).
  rewrite in_seq in Hchk. specialize (Hchk ltac:(lia)).
  rewrite forallb_forall in Hchk.
  pose proof (back_w_walk (length st) s st 0 Hv (Nat.le_refl _)) as Hin.
  specialize (Hchk _ Hin). cbn [fst] in Hchk.
  pose proof (valid_stack_bottom _ Hv) as Hb. cbn [length] in Hb.
  replace (S (length st) - 1)%nat with (length st) in Hb by lia.
  rewrite Hb in Hchk. discriminate Hchk.
Qed.

(** The lexer consumes its input. *)

Lemma skip_space_length (s : string) :
  (String.length (skip_space s) <= String.length s)%nat.
Proof.
  induction s as [| c s IH]; cbn; [lia |].
  destruct (is_space c); cbn; lia.
Qed.

Lemma span_length (p : ascii -> bool) (s : string) :
  (String.length (snd (span p s)) <= String.length s)%nat.
Proof.
  induction s as [| c s IH]; cbn; [lia |].
  destruct (p c); [| cbn; lia].
  destruct (span p s) as [w rest]. cbn in *. lia.
Qed.

Lemma until_quote_length (s w rest : string) :
  until_quote s = Some (w, rest) ->
  (String.length rest < String.length s)%nat.
Proof.
  revert w rest. induction s as [| c s IH]; cbn; [discriminate |].
  intros w rest. destruct (Ascii.eqb c dquote).
  - intros [= <- <-]. lia.
  - destruct (until_quote s) as [[w' rest'] |]; [| discriminate].
    intros [= <- <-]. specialize (IH _ _ eq_refl). lia.
Qed.

(** What follows the digits of a number: the digits after a point, if any. *)
Lemma Scan_number_length (ds rest : string) (t : scanned) (rest' : string) :
  match rest with
  | String "."%char (String d _ as r2) =>
    if is_digit d
    then let '(fs, rest2) := span is_digit r2 in
         (SFloat (ds +:+ String "."%char fs), rest2)
    else (SInt ds, rest)
  | _ => (SInt ds, rest)
  end = (t, rest') ->
  t <> SEOF /\ (String.length rest' <= String.length rest)%nat.
Proof.
  destruct rest as [| c1 rest1].
  { intros [= <- <-]. split; [discriminate | lia]. }
  destruct rest1 as [| d r3].
  { destruct c1 as [[|] [|] [|] [|] [|] [|] [|] [|]];
      intros [= <- <-]; (split; [discriminate | lia]). }
  pose proof (span_length is_digit (String d r3)) as Hsp.
  destruct (span is_digit (String d r3)) as [fs rest2]. cbn [snd] in Hsp.
  destruct c1 as [[|] [|] [|] [|] [|] [|] [|] [|]];
    try (intros [= <- <-]; split; [discriminate | lia]).
  destruct (is_digit d); intros [= <- <-]; (split; [discriminate |]);
    cbn [String.length] in *; lia.
Qed.

Lemma Scan_length (s : string) (t : scanned) (rest : string) :
  Scan s = (t, rest) ->
  (t = SEOF /\ rest = EmptyString) \/
  (t <> SEOF /\ (String.length rest < String.length s)%nat).
Proof.
  unfold Scan. pose proof (skip_space_length s) as Hsk.
  destruct (skip_space s) as [| c r]; [intros [= <- <-]; now left |].
  cbn [String.length] in Hsk. intros H. right.
  destruct (is_letter c) eqn:Hl.
  { pose proof (span_length is_alnum r) as Hsp.
    cbn [span] in H. unfold is_alnum at 1 in H. rewrite Hl in H. cbn in H.
    destruct (span is_alnum r) as [w rest0]. cbn [snd] in Hsp.
    injection H as <- <-. split; [discriminate | lia]. }
  destruct (is_digit c) eqn:Hd.
  { pose proof (span_length is_digit r) as Hsp.
    cbn [span] in H. rewrite Hd in H.
    destruct (span is_digit r) as [w rest0]. cbn [snd] in Hsp.
    apply Scan_number_length in H as [Ht Hlen]. split; [exact Ht | lia]. }
  destruct (Ascii.eqb c dquote).
  { destruct (until_quote r) as [[w rest0] |] eqn:Hq.
    - apply until_quote_length in Hq. injection H as <- <-.
      split; [discriminate | lia].
    - injection H as <- <-. split; [discriminate | lia]. }
  injection H as <- <-. split; [discriminate | lia].
Qed.

Lemma Lex_length (h : Host) (l l' : Lexer) (lv lv' : yySymType) (ch : Z) :
  Lex h l lv = (ch, l', lv') ->
  (String.length (src l') <= String.length (src l))%nat /\
  (0 <= ch -> (String.length (src l') < String.length (src l))%nat).
Proof.
  unfold Lex. destruct (Scan (src l)) as [t rest] eqn:Hscan.
  apply Scan_length in Hscan as [[-> ->] | [Ht Hlen]].
  - intros [= <- <- <-]. cbn. split; lia.
  - destruct t; try congruence;
      repeat match goal with
      | |- context [if ?b then _ else _] => destruct b
      | |- context [match ?x with inl _ => _ | inr _ => _ end] => destruct x
      end; intros [= <- <- <-]; cbn; split; lia.
Qed.

Section TotalFacts.

Variable h : Host.

(** Every token number is one of the grammar's. *)
Lemma yyTokOf_range (ch k : Z) : yyTokOf ch = Some k -> In k yyTokens.
Proof.
  assert (Htab : forall (t : list Z) (i x : Z),
            forallb (fun y => in_list y yyTokens) t = true ->
            idx t i = Some x -> In x yyTokens).
  { intros t i x Hall Hi. unfold idx in Hi.
    destruct (i <? 0); [discriminate |].
    apply nth_error_In in Hi. rewrite forallb_forall in Hall.
    now apply in_list_In, Hall. }
  assert (Hout : forall (tok : option Z) (x : Z),
            (forall y, tok = Some y -> y = 0 \/ In y yyTokens) ->
            match tok with
            | None => None
            | Some token => if token =? 0 then idx yyTok2 1 else Some token
            end = Some x -> In x yyTokens).
  { intros [y |] x Hy; [| discriminate].
    destruct (Z.eqb_spec y 0) as [-> | Hne].
    - intros [= <-]. vm_compute. auto 20.
    - intros [= <-]. destruct (Hy y eq_refl); [contradiction | assumption]. }
  unfold yyTokOf.
  destruct (ch <=? 0).
  { apply Hout. intros y Hy. right. apply (Htab yyTok1 0 y); [reflexivity | exact Hy]. }
  destruct (ch <? len yyTok1).
  { apply Hout. intros y Hy. right. apply (Htab yyTok1 ch y); [reflexivity | exact Hy]. }
  destruct ((yyPrivate <=? ch) && (ch <? yyPrivate + len yyTok2)).
  { apply Hout. intros y Hy. right.
    apply (Htab yyTok2 (ch - yyPrivate) y); [reflexivity | exact Hy]. }
  change (idx yyTok3 0) with (Some 0). cbv beta iota.
  destruct (0 =? ch); intros Hk; vm_compute in Hk; [discriminate Hk |].
  injection Hk as <-. vm_compute. auto 20.
Qed.

Lemma yyTokOf_eof (ch k : Z) :
  yyTokOf ch = Some k -> k <> yyEofCode -> 0 < ch.
Proof.
  intros Hk Hne. destruct (Z.lt_ge_cases 0 ch) as [Hpos | Hle]; [exact Hpos |].
  unfold yyTokOf in Hk. destruct (Z.leb_spec ch 0); [| lia].
  vm_compute in Hk. injection Hk as <-. now contradiction Hne.
Qed.

(** Reading the next token keeps the invariant and does not raise the
    measure. *)
Lemma lookahead_total (c : config) :
  Inv c ->
  exists c1,
    lookahead h c = Some c1 /\
    top c1 = top c /\ below c1 = below c /\ Errflag c1 = 0 /\
    yyTokOf (char c1) = Some (yytoken c1) /\
    (input_measure c1 <= input_measure c)%nat.
Proof.
  intros (Hv & He & Htok). unfold lookahead.
  destruct (Z.ltb_spec (char c) 0) as [Hneg | Hpos].
  - unfold yylex1.
    destruct (Lex h (lex c) (lval c)) as [[ch l'] lv'] eqn:HLex.
    destruct (yyTokOf_total ch) as [k Hk]. rewrite Hk.
    eexists. split; [reflexivity |]. unfold input_measure. cbn.
    split; [reflexivity |]. split; [reflexivity |]. split; [exact He |].
    split; [exact Hk |].
    pose proof (Lex_length _ _ _ _ _ _ HLex) as [Hle Hlt].
    destruct (Z.leb_spec 0 ch) as [Hch | Hch];
      destruct (Z.leb_spec 0 (char c)); lia.
  - exists c. destruct Htok as [Hlt | Htok]; [lia |].
    split; [reflexivity |]. split; [reflexivity |]. split; [reflexivity |].
    split; [exact He |]. split; [exact Htok | lia].
Qed.

(** With no state that shifts [error], the recovery gives up. *)
Lemma error_recover_returns (c : config) (live above1 : list yySymType) :
  Forall (fun x => In (yys x) yyStates) live ->
  error_recover c live above1 = Return 1 (lex c).
Proof.
  revert above1. induction live as [| x live IH]; intros above1 Hall;
    [reflexivity |].
  inversion Hall as [| ? ? Hx Hlive]; subst.
  destruct (state_checks _ Hx) as [Hno _].
  cbn [error_recover]. rewrite (IH _ Hlive).
  unfold no_error_shift in Hno.
  destruct (idx yyPact (yys x)) as [pact |]; [| discriminate].
  destruct ((0 <=? pact + yyErrCode) && (pact + yyErrCode <? yyLast));
    [| reflexivity].
  destruct (idx yyAct (pact + yyErrCode)) as [a |]; [| discriminate].
  destruct (idx yyChk a) as [chk |]; [| discriminate].
  apply negb_true_iff in Hno. now rewrite Hno.
Qed.

Lemma states_all (c : config) :
  Inv c -> Forall (fun x => In (yys x) yyStates) (top c :: below c).
Proof.
  intros (Hv & _). apply valid_stack_all in Hv. unfold states_of in Hv.
  now rewrite Forall_map in Hv.
Qed.

End TotalFacts.

Lemma list_sum_app (a b : list nat) :
  list_sum (a ++ b) = (list_sum a + list_sum b)%nat.
Proof.
  induction a as [| x a IH]; [reflexivity |].
  change (list_sum ((x :: a) ++ b)) with (x + list_sum (a ++ b))%nat.
  change (list_sum (x :: a)) with (x + list_sum a)%nat. lia.
Qed.

Lemma valid_stack_skipn (n : nat) (st : list Z) :
  valid_stack st = true -> (n < length st)%nat ->
  valid_stack (skipn n st) = true.
Proof.
  revert st. induction n as [| n IH]; intros st Hv Hn; [exact Hv |].
  destruct st as [| s st]; [discriminate |].
  destruct st as [| p st]; [cbn in Hn; lia |].
  apply valid_stack_cons in Hv as [_ Hv].
  change (skipn (S n) (s :: p :: st)) with (skipn n (p :: st)).
  apply IH; [exact Hv | cbn in Hn |- *; lia].
Qed.

Lemma skipn_cons_nth {A : Type} (n : nat) (l : list A) (d : A) :
  (n < length l)%nat -> skipn n l = nth n l d :: skipn (S n) l.
Proof.
  revert l. induction n as [| n IH]; intros [| x l] Hn; cbn in Hn; try lia.
  - reflexivity.
  - change (skipn (S n) (x :: l)) with (skipn n l).
    change (nth (S n) (x :: l) d) with (nth n l d).
    change (skipn (S (S n)) (x :: l)) with (skipn (S n) l).
    apply IH. lia.
Qed.

(** The action of a production that finds its symbols on the stack. *)
Lemma action_total (r : Z) (c : config) (VAL : yySymType) :
  (yyDollarLen r < length (top c :: below c))%nat ->
  exists VAL' l',
    action r c VAL = Some (VAL', l') /\ src l' = src (lex c).
Proof.
  intros Hlen.
  assert (Hd : forall k, (k < length (top c :: below c))%nat ->
            exists d, yyDollar_of c k = Some d).
  { intros k Hk. unfold yyDollar_of.
    apply Nat.ltb_lt in Hk. rewrite Hk. now eexists. }
  unfold action.
  destruct r as [| p | p]; try (eexists _, _; split; reflexivity).
  do 5 (try destruct p as [p | p |]);
    try (eexists _, _; split; reflexivity);
    match goal with
    | |- context [yyDollar_of c ?k] =>
      destruct (Hd k) as [d Hdk]; [exact Hlen | rewrite Hdk]
    end;
    eexists _, _; split; reflexivity.
Qed.

(** A reduction that passed the check of the tables. *)
Lemma reduce_total (c : config) (r : Z) :
  Inv c -> reduce_ok (yys (top c)) r = true ->
  exists c',
    reduce c r = Continue c' /\ Inv c' /\ (potential c' < potential c)%nat.
Proof.
  intros (Hv & He & Htok) Hok. unfold reduce_ok in Hok.
  apply andb_prop in Hok as [_ Hok].
  destruct (idx yyR2 r) as [n |] eqn:Hn; [| discriminate].
  apply andb_prop in Hok as [Hok Hgoto]. apply andb_prop in Hok as [Hok Hdepth].
  apply andb_prop in Hok as [Hn0 Hdollar].
  apply Nat.eqb_eq in Hdollar.
  set (N := Z.to_nat n) in *.
  unfold states_of in Hv.
  change (map yys (top c :: below c)) with (yys (top c) :: map yys (below c)) in Hv.
  pose proof (reduce_depth _ r _ N Hv Hdepth) as HN.
  rewrite length_map in HN.
  pose proof (back_w_walk N _ _ 0%nat Hv ltac:(now rewrite length_map)) as Hin.
  rewrite forallb_forall in Hgoto. specialize (Hgoto _ Hin).
  cbn [fst snd] in Hgoto.
  change (yys (top c) :: map yys (below c)) with (map yys (top c :: below c)) in *.
  set (live := top c :: below c) in *.
  assert (Hlive : (N < length live)%nat) by (subst live; cbn; lia).
  assert (Hnth : nth N (map yys live) 0 = yys (nth N live yySymType_zero)).
  { change 0 with (yys yySymType_zero) at 1. apply map_nth. }
  rewrite Hnth in Hgoto.
  destruct (yygoto r (yys (nth N live yySymType_zero))) as [g |] eqn:Hg;
    [| discriminate].
  apply andb_prop in Hgoto as [Hedge Hw]. apply Nat.leb_le in Hw.
  destruct (action_total r c
              (hd yySymType_zero (rev (firstn N live) ++ above c)))
    as (VAL' & l' & Hact & Hsrc); [fold live; lia |].
  unfold reduce. rewrite Hn. fold N. fold live.
  rewrite (skipn_cons_nth N live yySymType_zero Hlive), Hg, Hact.
  eexists. split; [reflexivity |].
  split.
  - (* the invariant *)
    split; [| split; [exact He | exact Htok]].
    unfold states_of. cbn [top below map yys set_yys].
    pose proof (valid_stack_skipn N (map yys live) Hv
                  ltac:(now rewrite length_map)) as Hvs.
    rewrite skipn_map in Hvs.
    rewrite (skipn_cons_nth N live yySymType_zero Hlive) in Hvs.
    cbn [map] in Hvs.
    apply andb_true_intro. split; [exact Hedge | exact Hvs].
  - (* the measure *)
    unfold potential, input_measure, states_of.
    cbn [top below lex char]. rewrite Hsrc.
    rewrite <- (skipn_cons_nth N live yySymType_zero Hlive).
    fold live.
    change (map yys (set_yys VAL' g :: skipn N live))
      with (g :: map yys (skipn N live)).
    change (yys (set_yys VAL' g)) with g.
    rewrite <- (firstn_skipn N live) at 2.
    rewrite !map_app, list_sum_app.
    change (list_sum (map weight (g :: map yys (skipn N live))))
      with (weight g + list_sum (map weight (map yys (skipn N live))))%nat.
    rewrite firstn_map in Hw. lia.
Qed.

Section TurnFacts.

Variable h : Host.

Lemma yydefault_total (c : config) :
  Inv c -> goes_on_or_returns c (yydefault h c).
Proof.
  intros Hinv. pose proof Hinv as (Hv & He & Htok).
  pose proof (valid_stack_top _ _ Hv) as Hs.
  destruct (state_checks _ Hs) as [_ Hchk].
  unfold yydefault. cbv zeta.
  destruct (idx yyDef (yys (top c))) as [d |] eqn:Hd.
  2:{ destruct (Hchk 1 ltac:(vm_compute; auto)) as [_ Hdef].
      unfold default_ok in Hdef. now rewrite Hd in Hdef. }
  destruct (Z.eqb_spec d (-2)) as [-> | Hexca].
  - (* the exception table *)
    destruct (lookahead_total h c Hinv) as (c1 & Hl & Ht & Hb & He1 & Htok1 & Hm).
    rewrite Hl.
    destruct (Hchk (yytoken c1) (yyTokOf_range _ _ Htok1)) as [_ Hdef].
    unfold default_ok in Hdef. rewrite Hd in Hdef.
    change (-2 =? -2) with true in Hdef. cbv beta iota in Hdef.
    destruct (yyExca_find yyExca (yys (top c))) as [t |]; [| discriminate].
    destruct (yyExca_scan t (yytoken c1)) as [y |]; [| discriminate].
    apply Z.leb_le in Hdef. right.
    destruct (Z.ltb_spec y 0) as [Hneg | Hpos]; [now eexists _, _ |].
    cbn [andb]. replace y with 0 by lia. change (0 =? 0) with true.
    cbv beta iota. rewrite He1. change (0 =? 0) with true. cbv beta iota.
    assert (Hinv1 : Inv c1).
    { split; [| split; [exact He1 | now right]].
      unfold states_of. now rewrite Ht, Hb. }
    rewrite error_recover_returns
      by (cbn [top below]; now apply states_all).
    now eexists _, _.
  - destruct (Hchk 1 ltac:(vm_compute; auto)) as [_ Hdef].
    unfold default_ok in Hdef. rewrite Hd in Hdef.
    destruct (Z.eqb_spec d (-2)) as [-> | _]; [contradiction |].
    cbn [andb]. cbv beta iota.
    destruct (Z.eqb_spec d 0) as [-> | Hnz].
    + (* an error *)
      right. rewrite He. change (0 =? 0) with true. cbv beta iota.
      rewrite error_recover_returns
        by (cbn [top below]; now apply states_all).
      now eexists _, _.
    + (* a reduction *)
      left. destruct (reduce_total c d Hinv Hdef) as (c' & Hred & Hinv' & Hpot).
      exists c'. rewrite Hred. auto.
Qed.

Lemma yynewstate_total (c : config) :
  Inv c -> goes_on_or_returns c (yynewstate h c).
Proof.
  intros Hinv. pose proof Hinv as (Hv & He & Htok).
  pose proof (valid_stack_top _ _ Hv) as Hs.
  destruct (state_checks _ Hs) as [_ Hchk].
  destruct (simple (yys (top c))) eqn:Hsimple.
  { rewrite (yynewstate_simple h c Hsimple). now apply yydefault_total. }
  destruct (lookahead_total h c Hinv) as (c1 & Hl & Ht & Hb & He1 & Htok1 & Hm).
  assert (Hinv1 : Inv c1).
  { split; [| split; [exact He1 | now right]].
    unfold states_of. now rewrite Ht, Hb. }
  assert (Hpot1 : (potential c1 <= potential c)%nat).
  { unfold potential, states_of. rewrite Ht, Hb. lia. }
  rewrite (yynewstate_peek h c c1 Hsimple Hl).
  destruct (Hchk (yytoken c1) (yyTokOf_range _ _ Htok1)) as [Hshift _].
  unfold shift_ok in Hshift.
  destruct (decide (yys (top c)) (yytoken c1)) as [a | |]; [| | discriminate].
  - (* a shift *)
    apply andb_prop in Hshift as [Hshift Hw].
    apply andb_prop in Hshift as [Hedge Heof].
    apply Nat.leb_le in Hw. apply negb_true_iff, Z.eqb_neq in Heof.
    pose proof (yyTokOf_eof _ _ Htok1 Heof) as Hchar.
    left. eexists. split; [reflexivity |]. split.
    + split; [| split].
      * destruct Hinv1 as (Hv1 & _). unfold states_of in Hv1 |- *.
        cbn [top below map yys set_yys] in Hv1 |- *.
        change (valid_stack (a :: yys (top c1) :: map yys (below c1)))
          with (edge (yys (top c1)) a
                && valid_stack (yys (top c1) :: map yys (below c1))).
        rewrite Hv1, Ht, Hedge. reflexivity.
      * cbn. rewrite He1. reflexivity.
      * left. cbn. lia.
    + apply Nat.lt_le_trans with (m := potential c1); [| exact Hpot1].
      unfold potential, input_measure, states_of.
      cbn [top below lex char map yys set_yys].
      change (0 <=? -1) with false. cbv beta iota.
      destruct (Z.leb_spec 0 (char c1)); [| lia].
      change (list_sum (weight a :: weight (yys (top c1))
                          :: map weight (map yys (below c1))))
        with (weight a + list_sum (weight (yys (top c1))
                                     :: map weight (map yys (below c1))))%nat.
      lia.
  - (* the default action *)
    destruct (yydefault_total c1 Hinv1) as [(c' & Hd & Hinv' & Hpot) | Hret].
    + left. exists c'. split; [exact Hd |]. split; [exact Hinv' | lia].
    + now right.
Qed.

(** The loop returns within as many turns as the measure. *)
Lemma yyloop_total (fuel : nat) :
  forall c : config,
    Inv c -> (potential c < fuel)%nat ->
    exists code l, yyloop h fuel c = Some (code, l).
Proof.
  induction fuel as [| fuel IH]; intros c Hinv Hpot; [lia |].
  cbn [yyloop].
  destruct (yynewstate_total c Hinv) as [(c' & Hd & Hinv' & Hpot') | (code & l & Hr)].
  - rewrite Hd. apply IH; [exact Hinv' | lia].
  - rewrite Hr. now eexists _, _.
Qed.

Lemma yyParse_total (s : string) (a : Expr) :
  exists code l, yyParse h (turns s) (mkLexer s a) = Some (code, l).
Proof.
  unfold yyParse. apply yyloop_total.
  - split; [reflexivity |]. split; [reflexivity |]. left. cbn. lia.
  - unfold potential, input_measure, turns. cbn. lia.
Qed.

(** [Compile] returns, with a tree or with the syntax error. *)
Theorem Compile_returns (v : VM) (s : string) :
  (exists a, Compile h v s = (Compiled a, v)) \/
  Compile h v s = (CompileError (ErrNew ("syntax error: " +:+ s)), v).
Proof.
  unfold Compile.
  destruct (yyParse_total s NilExpr) as (code & l & ->).
  destruct (negb (code =? 0)); [now right | left; now eexists].
Qed.

End TurnFacts.

(** ** Compilation and evaluation of source texts *)

(** C1, as the code has it.  A source text made of integer literals within
    int64, the operators [+ - * /] and parentheses compiles to the tree in
    which the four operators have one precedence and group to the right,
    and that tree evaluates by int64 arithmetic with wrap-around: to its
    value, or to the panic of a division by zero. *)
Theorem C1_arithmetic_groups_to_the_right
    (h : Host) (v : VM) (x : chain) (s : string) :
  chain_ok x = true -> chain_closed x = true -> spells (chain_toks x) s ->
  Compile h v s = (Compiled (chain_ast x), v) /\
  Eval h v (chain_ast x) = value_outcome (chain_value x).
Proof.
  intros Hok Hcl Hsp. split.
  - now apply Compile_expr.
  - now apply (proj2 (Eval_closed h v)).
Qed.

Lemma C1_witness :
  (Compile sample_host New "2 + 3 * 4"
     = (Compiled (BinOpExpr "+" (LitExpr (VInt64 2))
                    (BinOpExpr "*" (LitExpr (VInt64 3)) (LitExpr (VInt64 4)))),
        New) /\
   Eval sample_host New
     (BinOpExpr "+" (LitExpr (VInt64 2))
        (BinOpExpr "*" (LitExpr (VInt64 3)) (LitExpr (VInt64 4))))
     = Ret (VInt64 14) None) /\
  (Compile sample_host New "(2 + 3) * 4"
     = (Compiled (BinOpExpr "*"
                    (BinOpExpr "+" (LitExpr (VInt64 2)) (LitExpr (VInt64 3)))
                    (LitExpr (VInt64 4))),
        New) /\
   Eval sample_host New
     (BinOpExpr "*" (BinOpExpr "+" (LitExpr (VInt64 2)) (LitExpr (VInt64 3)))
        (LitExpr (VInt64 4)))
     = Ret (VInt64 20) None).
Proof.
  split.
  - refine (C1_arithmetic_groups_to_the_right sample_host New
              (CCons (ALit "2") OpAdd (CCons (ALit "3") OpMul (CLast (ALit "4"))))
              "2 + 3 * 4" eq_refl eq_refl _).
    cbn [chain_toks atom_toks app op_char].
    spell "" (TLit "2") " + 3 * 4".
    spell " " (TChar "+") " 3 * 4".
    spell " " (TLit "3") " * 4".
    spell " " (TChar "*") " 4".
    spell " " (TLit "4") "".
    apply (spells_nil ""). reflexivity.
  - refine (C1_arithmetic_groups_to_the_right sample_host New
              (CCons (AParen (CCons (ALit "2") OpAdd (CLast (ALit "3")))) OpMul
                 (CLast (ALit "4")))
              "(2 + 3) * 4" eq_refl eq_refl _).
    cbn [chain_toks atom_toks app op_char].
    spell "" (TChar "(") "2 + 3) * 4".
    spell "" (TLit "2") " + 3) * 4".
    spell " " (TChar "+") " 3) * 4".
    spell " " (TLit "3") ") * 4".
    spell "" (TChar ")") " * 4".
    spell " " (TChar "*") " 4".
    spell " " (TLit "4") "".
    apply (spells_nil ""). reflexivity.
Defined.

(** The text [1 - 2 - 3], whose value is -4 when [-] groups to the left,
    compiles to [1 - (2 - 3)] and evaluates to 2; the text [2 * 3 + 4],
    whose value is 10 when [*] binds tighter than [+], compiles to
    [2 * (3 + 4)] and evaluates to 14. *)
Lemma C1_counterexample :
  (Standard.expr_source
     (Standard.Sub
        (Standard.Sub (Standard.Term (Standard.Factor (Standard.Lit 1)))
           (Standard.Factor (Standard.Lit 2)))
        (Standard.Factor (Standard.Lit 3))) = "1 - 2 - 3" /\
   Standard.expr_value
     (Standard.Sub
        (Standard.Sub (Standard.Term (Standard.Factor (Standard.Lit 1)))
           (Standard.Factor (Standard.Lit 2)))
        (Standard.Factor (Standard.Lit 3))) = Some (-4) /\
   fst (Compile sample_host New "1 - 2 - 3")
     = Compiled (BinOpExpr "-" (LitExpr (VInt64 1))
                   (BinOpExpr "-" (LitExpr (VInt64 2)) (LitExpr (VInt64 3)))) /\
   Eval sample_host New
     (BinOpExpr "-" (LitExpr (VInt64 1))
        (BinOpExpr "-" (LitExpr (VInt64 2)) (LitExpr (VInt64 3))))
     = Ret (VInt64 2) None) /\
  (Standard.expr_source
     (Standard.Add
        (Standard.Term
           (Standard.Mul (Standard.Factor (Standard.Lit 2)) (Standard.Lit 3)))
        (Standard.Factor (Standard.Lit 4))) = "2 * 3 + 4" /\
   Standard.expr_value
     (Standard.Add
        (Standard.Term
           (Standard.Mul (Standard.Factor (Standard.Lit 2)) (Standard.Lit 3)))
        (Standard.Factor (Standard.Lit 4))) = Some 10 /\
   fst (Compile sample_host New "2 * 3 + 4")
     = Compiled (BinOpExpr "*" (LitExpr (VInt64 2))
                   (BinOpExpr "+" (LitExpr (VInt64 3)) (LitExpr (VInt64 4)))) /\
   Eval sample_host New
     (BinOpExpr "*" (LitExpr (VInt64 2))
        (BinOpExpr "+" (LitExpr (VInt64 3)) (LitExpr (VInt64 4))))
     = Ret (VInt64 14) None) /\
  ~ C1_as_stated sample_host.
Proof.
  split; [repeat split; reflexivity |].
  split; [repeat split; reflexivity |].
  intros Hclaim.
  destruct (Hclaim
    (Standard.Sub
       (Standard.Sub (Standard.Term (Standard.Factor (Standard.Lit 1)))
          (Standard.Factor (Standard.Lit 2)))
       (Standard.Factor (Standard.Lit 3))) (-4) eq_refl eq_refl)
    as (a & Hc & He).
  vm_compute in Hc. injection Hc as <-. vm_compute in He. discriminate He.
Qed.

(** Texts that do not parse are syntax errors. *)
Example Compile_syntax_errors :
  fst (Compile sample_host New "1 +")
    = CompileError (ErrNew "syntax error: 1 +") /\
  fst (Compile sample_host New "")
    = CompileError (ErrNew "syntax error: ") /\
  fst (Compile sample_host New "for x xs")
    = CompileError (ErrNew "syntax error: for x xs") /\
  fst (Compile sample_host New "a % b")
    = CompileError (ErrNew "syntax error: a % b").
Proof. repeat split; reflexivity. Qed.

(** Calls, members and items chain to the left. *)
Example Compile_postfix :
  fst (Compile sample_host New "a.b(c)[d]")
    = Compiled (ItemExpr (MethodCallExpr (IdentExpr "a") "b" [IdentExpr "c"])
                  (IdentExpr "d")) /\
  fst (Compile sample_host New "f(1, x)")
    = Compiled (CallExpr "f" [LitExpr (VInt64 1); IdentExpr "x"]) /\
  fst (Compile sample_host New "a.b.c")
    = Compiled (MemberExpr (MemberExpr (IdentExpr "a") "b") "c").
Proof. repeat split; reflexivity. Qed.

(** C7.  [for x in xs] compiles to [ForExpr{"x", "", e}] and
    [for i, x in xs] to [ForExpr{"i", "x", e}], [e] being what [xs]
    compiles to; and so for every name and every expression of the
    arithmetic fragment: the form with one variable leaves the second name
    empty. *)
Theorem C7_for_statement (h : Host) (v : VM) :
  Compile h v "xs" = (Compiled (IdentExpr "xs"), v) /\
  Compile h v "for x in xs" = (Compiled (ForExpr "x" "" (IdentExpr "xs")), v) /\
  Compile h v "for i, x in xs"
    = (Compiled (ForExpr "i" "x" (IdentExpr "xs")), v) /\
  (forall w x s s',
     ident_ok w = true -> chain_ok x = true ->
     spells (chain_toks x) s' ->
     spells (TFor :: TId w :: TIn :: chain_toks x) s ->
     Compile h v s' = (Compiled (chain_ast x), v) /\
     Compile h v s = (Compiled (ForExpr w "" (chain_ast x)), v)) /\
  (forall w1 w2 x s s',
     ident_ok w1 = true -> ident_ok w2 = true -> chain_ok x = true ->
     spells (chain_toks x) s' ->
     spells (TFor :: TId w1 :: TChar "," :: TId w2 :: TIn :: chain_toks x) s ->
     Compile h v s' = (Compiled (chain_ast x), v) /\
     Compile h v s = (Compiled (ForExpr w1 w2 (chain_ast x)), v)).
Proof.
  split; [reflexivity |]. split; [reflexivity |]. split; [reflexivity |].
  split.
  - intros w x s s' Hw Hx Hs' Hs. split.
    + now apply Compile_expr.
    + now apply Compile_for1.
  - intros w1 w2 x s s' Hw1 Hw2 Hx Hs' Hs. split.
    + now apply Compile_expr.
    + now apply Compile_for2.
Qed.

Lemma C7_witness :
  Compile sample_host New "n+1" =
    (Compiled (BinOpExpr "+" (IdentExpr "n") (LitExpr (VInt64 1))), New) /\
  Compile sample_host New "for item in n+1" =
    (Compiled (ForExpr "item" ""
                 (BinOpExpr "+" (IdentExpr "n") (LitExpr (VInt64 1)))), New).
Proof.
  refine (proj1 (proj2 (proj2 (proj2 (C7_for_statement sample_host New))))
            "item" (CCons (AId "n") OpAdd (CLast (ALit "1")))
            "for item in n+1" "n+1" eq_refl eq_refl _ _).
  - cbn [chain_toks atom_toks app op_char].
    spell "" (TId "n") "+1".
    spell "" (TChar "+") "1".
    spell "" (TLit "1") "".
    apply (spells_nil ""). reflexivity.
  - cbn [chain_toks atom_toks app op_char].
    spell "" TFor " item in n+1".
    spell " " (TId "item") " in n+1".
    spell " " TIn " n+1".
    spell " " (TId "n") "+1".
    spell "" (TChar "+") "1".
    spell "" (TLit "1") "".
    apply (spells_nil ""). reflexivity.
Defined.

(** C8.  [Compile] returns on every text, with a tree or with the syntax
    error, and it reads and writes nothing but its argument: a second call
    on the same text returns the same result as the first, tree or error,
    the result does not depend on the environment, and the VM is the same
    after as before. *)
Theorem C8_Compile_deterministic_and_pure (h : Host) (v : VM) (s : string) :
  ((exists a, fst (Compile h v s) = Compiled a) \/
   fst (Compile h v s) = CompileError (ErrNew ("syntax error: " +:+ s))) /\
  fst (Compile h (snd (Compile h v s)) s) = fst (Compile h v s) /\
  snd (Compile h v s) = v /\
  snd (Compile h (snd (Compile h v s)) s) = v /\
  (forall v', fst (Compile h v' s) = fst (Compile h v s)) /\
  env (snd (Compile h v s)) = env v.
Proof.
  unfold Compile.
  destruct (yyParse_total h s NilExpr) as (code & l & ->).
  destruct (negb (code =? 0)); cbn; repeat split; eauto.
Qed.

(** ** The environment *)

Lemma Get_Set (v : VM) (n m : string) (x : value) :
  Get (Set_ v n x) m = if String.eqb m n then (x, true) else Get v m.
Proof.
  unfold Get, Set_. cbn [env].
  destruct (String.eqb_spec m n) as [-> | Hne].
  - now rewrite lookup_insert_eq.
  - now rewrite lookup_insert_ne by congruence.
Qed.

(** ** Operands and arguments *)

Lemma wrap64_congruent (z : Z) : (wrap64 z - z) mod 2 ^ 64 = 0.
Proof.
  unfold wrap64.
  pose proof (Z.div_mod z (2 ^ 64) ltac:(lia)) as Hz.
  destruct (z mod 2 ^ 64 <? 2 ^ 63).
  - replace (z mod 2 ^ 64 - z) with (- (z / 2 ^ 64) * 2 ^ 64) by lia.
    apply Z.mod_mul. lia.
  - replace (z mod 2 ^ 64 - 2 ^ 64 - z) with ((- (z / 2 ^ 64) - 1) * 2 ^ 64)
      by lia.
    apply Z.mod_mul. lia.
Qed.

(** Go's [/] on int64 is the quotient truncated toward zero, but for the
    least integer divided by -1, which wraps around. *)
Lemma int64_quo_spec (a b : Z) :
  in_int64 a -> in_int64 b -> b <> 0 ->
  int64_quo a b =
    if (a =? MinInt64) && (b =? -1) then MinInt64 else Z.quot a b.
Proof.
  unfold in_int64, MinInt64, MaxInt64, int64_quo. intros Ha Hb Hnz.
  destruct (Z.eqb_spec a (- 2 ^ 63)) as [-> | Hmin];
    destruct (Z.eqb_spec b (-1)) as [-> | Hone]; cbn [andb];
    try reflexivity; apply wrap64_id; unfold in_int64, MinInt64, MaxInt64.
  - assert (Hq : Z.abs (Z.quot (- 2 ^ 63) b) <= 2 ^ 62 \/ b = 1).
    { destruct (Z.eq_dec b 1) as [-> | Hb1]; [now right | left].
      rewrite <- Z.quot_abs by lia.
      rewrite Z.quot_div_nonneg by lia.
      apply Z.lt_succ_r, Z.div_lt_upper_bound; lia. }
    destruct Hq as [Hq | ->]; [lia |]. rewrite Z.quot_1_r. lia.
  - change (-1) with (Z.opp 1). rewrite Z.quot_opp_r, Z.quot_1_r by lia. lia.
  - assert (Hq : Z.abs (Z.quot a b) <= Z.abs a).
    { rewrite <- Z.quot_abs by lia.
      rewrite Z.quot_div_nonneg by lia.
      apply Z.div_le_upper_bound; nia. }
    lia.
Qed.

Lemma ret_values_returned (h : Host) (r : call_result) :
  ret_values h r = returned h r.
Proof.
  destruct r as [[| x [| y rest]] | p]; try reflexivity.
  cbn. now destruct (as_error h y).
Qed.

Lemma MethodByName_receiver (rv : value) (n : string) (m : method) :
  MethodByName rv n = Some m -> snd m = rv.
Proof.
  unfold MethodByName.
  destruct (assoc n (method_set rv)); [| discriminate]. now intros [= <-].
Qed.

Section ArgumentFacts.

Variable h : Host.
Variable v : VM.

Lemma eval_args_values (exprs : list Expr) (args : list value) :
  Forall2 (fun a x => Eval h v a = Ret x None) exprs args ->
  eval_args (Eval h v) exprs = inl args.
Proof.
  induction 1 as [| a x exprs args Ha _ IH]; [reflexivity |].
  cbn. now rewrite Ha, IH.
Qed.

Lemma eval_deref_args_values (exprs : list Expr) (args : list value) :
  Forall2 (fun a y => evalAndDerefRv h v a = inl y) exprs args ->
  eval_deref_args (Eval h v) exprs = inl args.
Proof.
  unfold evalAndDerefRv.
  induction 1 as [| a x exprs args Ha _ IH]; [reflexivity |].
  cbn. now rewrite Ha, IH.
Qed.

Lemma eval_args_cons (a : Expr) (l : list Expr) :
  eval_args (Eval h v) (a :: l) =
  match Eval h v a with
  | Panic p => inr (Panic p)
  | Ret _ (Some err) => inr (Ret VNil (Some err))
  | Ret x None =>
    match eval_args (Eval h v) l with
    | inr o => inr o
    | inl xs => inl (x :: xs)
    end
  end.
Proof. reflexivity. Qed.

Lemma eval_args_fails (pre post : list Expr) (a : Expr) (xs : list value) :
  Forall2 (fun a x => Eval h v a = Ret x None) pre xs ->
  fails (Eval h v a) = true ->
  eval_args (Eval h v) (pre ++ a :: post) = inr (passed_on (Eval h v a)).
Proof.
  intros Hpre Ha. induction Hpre as [| b x pre xs Hb _ IH].
  - cbn [app]. rewrite eval_args_cons.
    destruct (Eval h v a) as [y [err |] | p]; try discriminate; reflexivity.
  - cbn [app]. now rewrite eval_args_cons, Hb, IH.
Qed.

Lemma eval_deref_args_fails (pre post : list Expr) (a : Expr)
    (ys : list value) (o : outcome) :
  Forall2 (fun a y => evalAndDerefRv h v a = inl y) pre ys ->
  evalAndDerefRv h v a = inr o ->
  eval_deref_args (Eval h v) (pre ++ a :: post) = inr o.
Proof.
  unfold evalAndDerefRv.
  intros Hpre Ha. induction Hpre as [| b y pre ys Hb _ IH].
  - cbn [app]. now rewrite eval_deref_args_cons, Ha.
  - cbn [app]. now rewrite eval_deref_args_cons, Hb, IH.
Qed.

End ArgumentFacts.

(** ** Further properties of the evaluator *)

(** X1.  What [Set] stores under a name, [Get] and the evaluation of the
    name return; the other names keep what they had; a new VM has no name;
    the last [Set] of a name wins. *)
Theorem X1_Set_then_Get (h : Host) (v : VM) (n m : string) (x y : value) :
  Get (Set_ v n x) n = (x, true) /\
  Get (Set_ v n x) m = (if String.eqb m n then (x, true) else Get v m) /\
  Get New m = (VNil, false) /\
  Set_ (Set_ v n x) n y = Set_ v n y /\
  Eval h (Set_ v n x) (IdentExpr n) = Ret x None /\
  Eval h New (IdentExpr m) = UnboundName m.
Proof.
  split; [now rewrite Get_Set, String.eqb_refl |].
  split; [apply Get_Set |].
  split; [reflexivity |].
  split; [unfold Set_; cbn [env]; now rewrite insert_insert_eq |].
  split; [| reflexivity].
  cbn [Eval]. unfold Set_. cbn [env]. now rewrite lookup_insert_eq.
Qed.

(** X2.  Binding a name changes the evaluation of no expression that
    makes no call and does not read that name.  (A function or a method
    that is called is code of the host, which may read the VM itself; the
    text of an operand is what [fmt.Sprint] gives for the value alone.) *)
Theorem X2_Set_leaves_other_names
    (h : Host) (v : VM) (n : string) (x : value) (a : Expr) :
  calls a = false -> mentions n a = false ->
  Eval h (Set_ v n x) a = Eval h v a.
Proof.
  assert (Hlook : forall m, String.eqb m n = false ->
            env (Set_ v n x) !! m = env v !! m).
  { intros m Hm. apply String.eqb_neq in Hm. unfold Set_. cbn [env].
    now rewrite lookup_insert_ne by congruence. }
  induction a as [| m | lit | op l IHl r IHr | m args | l IHl m args
                 | l IHl m | l IHl i IHi | v1 v2 r IHr];
    cbn [calls mentions]; intros Hc Hm; try reflexivity; try discriminate.
  - cbn [Eval]. now rewrite (Hlook m Hm).
  - apply orb_false_elim in Hc as [Hcl Hcr].
    apply orb_false_elim in Hm as [Hl Hr].
    cbn [Eval]. now rewrite (IHl Hcl Hl), (IHr Hcr Hr).
  - cbn [Eval]. now rewrite (IHl Hc Hm).
  - apply orb_false_elim in Hc as [Hcl Hci].
    apply orb_false_elim in Hm as [Hl Hi].
    cbn [Eval]. now rewrite (IHl Hcl Hl), (IHi Hci Hi).
Qed.

Lemma X2_witness :
  Eval sample_host (Set_ sample_vm "y" (VInt64 5))
    (BinOpExpr "+" (IdentExpr "x") (ItemExpr (IdentExpr "xs") (LitExpr (VInt64 1))))
  = Eval sample_host sample_vm
      (BinOpExpr "+" (IdentExpr "x") (ItemExpr (IdentExpr "xs") (LitExpr (VInt64 1)))).
Proof.
  exact (X2_Set_leaves_other_names sample_host sample_vm "y" (VInt64 5)
           (BinOpExpr "+" (IdentExpr "x")
              (ItemExpr (IdentExpr "xs") (LitExpr (VInt64 1))))
           eq_refl eq_refl).
Defined.

(** X3.  When [Eval] returns an error for an expression that is not itself
    a call or a method call, the value it returns with the error is nil:
    only a call passes on the value its function returned beside an
    error. *)
Theorem X3_error_comes_with_nil
    (h : Host) (v : VM) (a : Expr) (x : value) (err : error) :
  Eval h v a = Ret x (Some err) -> is_call a = false -> x = VNil.
Proof.
  destruct a as [| m | lit | op l r | m args | l m args | l m | l i | v1 v2 r];
    cbn [is_call]; try discriminate; cbn [Eval];
    unfold binop, item, member, field_Interface, derefOutcome;
    repeat match goal with
           | |- context [match ?X with _ => _ end] =>
             match X with
             | context [match _ with _ => _ end] => fail 1
             | _ => destruct X
             end
           end;
    intros Hev _; congruence.
Qed.

Lemma X3_witness :
  Eval sample_host sample_vm (MemberExpr (IdentExpr "c") "Missing")
    = Ret VNil (Some (ErrNew "cannot reference member")) /\
  VNil = VNil.
Proof.
  split; [reflexivity |].
  exact (X3_error_comes_with_nil sample_host sample_vm
           (MemberExpr (IdentExpr "c") "Missing") VNil
           (ErrNew "cannot reference member") eq_refl eq_refl).
Defined.

Section OperandFacts.

Variable h : Host.
Variable v : VM.

(** X4.  With integer operands of any of the types [int], [int32] and
    [int64], the result of [+], [-] and [*] is an [int64] that wraps around:
    it is in the range of int64, congruent to the exact result modulo 2^64,
    and equal to it when that is in range.  [/] by a divisor other than zero
    is the quotient truncated toward zero, but for the least integer divided
    by -1, which is the least integer again. *)
Theorem X4_integer_operands_widen_and_wrap
    (l r : Expr) (lhs rhs : value) (a b : Z) :
  Eval h v l = Ret lhs None -> Eval h v r = Ret rhs None ->
  int_of lhs = Some a -> int_of rhs = Some b -> in_int64 a -> in_int64 b ->
  Eval h v (BinOpExpr "+" l r) = Ret (VInt64 (wrap64 (a + b))) None /\
  Eval h v (BinOpExpr "-" l r) = Ret (VInt64 (wrap64 (a - b))) None /\
  Eval h v (BinOpExpr "*" l r) = Ret (VInt64 (wrap64 (a * b))) None /\
  (b <> 0 ->
     Eval h v (BinOpExpr "/" l r) =
       Ret (VInt64 (if (a =? MinInt64) && (b =? -1) then MinInt64
                    else Z.quot a b)) None) /\
  (forall z, in_int64 (wrap64 z) /\ (wrap64 z - z) mod 2 ^ 64 = 0 /\
             (in_int64 z -> wrap64 z = z)).
Proof.
  intros Hl Hr Ha Hb Hra Hrb.
  rewrite !(Eval_BinOpExpr h v _ _ _ _ _ Hl Hr).
  rewrite !(binop_int h _ lhs rhs a b Ha Hb Hra Hrb).
  split; [reflexivity |]. split; [reflexivity |]. split; [reflexivity |].
  split.
  - intros Hnz. cbn. destruct (Z.eqb_spec b 0); [contradiction |].
    now rewrite int64_quo_spec.
  - intros z. split; [apply wrap64_range |].
    split; [apply wrap64_congruent | apply wrap64_id].
Qed.

(** X5.  With an integer on the left, the right operand is read from its
    text: a value that prints as a decimal integer, a string among them, is
    added as that integer, and a value whose text does not parse, nil among
    them, is the error of [strconv.ParseInt], whatever the operator. *)
Theorem X5_integer_with_text
    (op : string) (l r : Expr) (lhs rhs : value) (a : Z) :
  Eval h v l = Ret lhs None -> Eval h v r = Ret rhs None ->
  int_of lhs = Some a -> in_int64 a ->
  (forall b, Sprint h rhs = FormatInt b -> in_int64 b ->
     Eval h v (BinOpExpr "+" l r) = Ret (VInt64 (wrap64 (a + b))) None) /\
  (forall err, ParseInt (Sprint h rhs) = inr err ->
     Eval h v (BinOpExpr op l r) = Ret VNil (Some err)) /\
  (rhs = VNil ->
     Eval h v (BinOpExpr op l r)
       = Ret VNil (Some (ErrNum "ParseInt" "<nil>" ErrSyntax))).
Proof.
  intros Hl Hr Ha Hra.
  rewrite !(Eval_BinOpExpr h v _ _ _ _ _ Hl Hr).
  assert (Hpl : ParseInt (Sprint h lhs) = inl a)
    by (rewrite (Sprint_int h _ _ Ha); now apply ParseInt_FormatInt).
  assert (Hbin : forall err, ParseInt (Sprint h rhs) = inr err ->
            binop h op lhs rhs = Ret VNil (Some err)).
  { intros err Herr.
    destruct lhs; cbn in Ha; try discriminate; cbn [binop];
      now rewrite Hpl, Herr. }
  split; [| split].
  - intros b Hs Hrb.
    assert (Hpr : ParseInt (Sprint h rhs) = inl b)
      by (rewrite Hs; now apply ParseInt_FormatInt).
    destruct lhs; cbn in Ha; try discriminate; cbn [binop];
      now rewrite Hpl, Hpr.
  - exact Hbin.
  - intros ->. now apply Hbin.
Qed.

(** X6.  A left operand that is neither a string, nor an integer of the
    types [int], [int32], [int64], nor a float is the error "invalid type
    conversion", once both operands are evaluated: a boolean, nil, a
    struct, and also a pointer to a number, which is not dereferenced. *)
Theorem X6_invalid_type_conversion
    (op : string) (l r : Expr) (lhs rhs : value) :
  Eval h v l = Ret lhs None -> Eval h v r = Ret rhs None ->
  kind_of lhs <> KString -> int_of lhs = None -> is_float lhs = false ->
  Eval h v (BinOpExpr op l r) = InvalidTypeConversion.
Proof.
  intros Hl Hr Hs Hi Hf.
  rewrite (Eval_BinOpExpr h v _ _ _ _ _ Hl Hr).
  destruct lhs; cbn in Hs, Hi, Hf; try discriminate; try congruence;
    reflexivity.
Qed.





(** X8.  A member access and the item access with the name as a string
    index do the same: they return the same value and panic alike, and
    where one is the error "cannot reference member" the other is the
    error "cannot reference item". *)
Theorem X8_member_is_item_by_name (l : Expr) (n : string) :
  (forall x, Eval h v (MemberExpr l n) = Ret x None <->
             Eval h v (ItemExpr l (LitExpr (VString n))) = Ret x None) /\
  (forall p, Eval h v (MemberExpr l n) = Panic p <->
             Eval h v (ItemExpr l (LitExpr (VString n))) = Panic p) /\
  (Eval h v (ItemExpr l (LitExpr (VString n))) = Eval h v (MemberExpr l n) \/
   (Eval h v (MemberExpr l n) = MemberError /\
    Eval h v (ItemExpr l (LitExpr (VString n))) = IndexError)).
Proof.
  cbn [Eval]. destruct (derefOutcome (Eval h v l)) as [rv | o].
  - unfold item, member, MemberError, IndexError, field_Interface.
    cbn [Sprint TypeOf_Kind kind_of plain_kind Kind_eqb].
    destruct (kind_of rv); cbn [Kind_eqb];
      try match goal with
          | |- context [FieldByName rv n] =>
            destruct (FieldByName rv n) as [[[|] x] |]
          | |- context [MapIndex rv n] =>
            destruct (MapIndex rv n) as [[x |] | p]
          end;
      (split; [| split]);
      try (intros; split; congruence); try (now left); now right.
  - split; [| split]; try (intros; reflexivity). now left.
Qed.

(** X9.  On a slice, an index that is nil panics, an [int64] index below
    zero or not below the length panics, and an [int64] index is never the
    error "cannot reference item": the test that follows
    [reflect.Value.Index] is not reached with a value that is not valid. *)
Theorem X9_slice_index_panics
    (l idx : Expr) (elems : list value) (rhs : value) :
  evalAndDerefRv h v l = inl (VSlice elems) -> Eval h v idx = Ret rhs None ->
  (rhs = VNil -> Eval h v (ItemExpr l idx) = Panic NilTypeKind) /\
  (forall i, rhs = VInt64 i -> i < 0 \/ Z.of_nat (length elems) <= i ->
     Eval h v (ItemExpr l idx) = Panic IndexOutOfRange) /\
  (forall i, rhs = VInt64 i -> Eval h v (ItemExpr l idx) <> IndexError).
Proof.
  unfold evalAndDerefRv. intros Hd Hi. cbn [Eval]. rewrite Hd, Hi.
  split; [| split].
  - intros ->. reflexivity.
  - intros i -> Hout. cbn.
    destruct (Z.ltb_spec i 0); [reflexivity |].
    destruct (Z.leb_spec (Z.of_nat (length elems)) i); [reflexivity | lia].
  - intros i ->. cbn.
    destruct ((i <? 0) || (Z.of_nat (length elems) <=? i)); discriminate.
Qed.

(** X10.  A call of a name bound to a function, of a defined function
    type or not, evaluates the arguments in turn and passes their values as
    they are, with nothing dereferenced; when the function returns nothing
    the result is nil, the first value it returns is the result, and the
    values after the second are dropped.  The second value is the error of
    the result when its type has the method [Error() string]: a pointer,
    a nil pointer among them, a struct or a value of any other defined
    type; a nil interface is not. *)
Theorem X10_call_passes_values
    (n : string) (fv : value) (f : func_id) (exprs : list Expr)
    (args : list value) :
  env v !! n = Some fv -> underlying fv = VFunc f ->
  Forall2 (fun a x => Eval h v a = Ret x None) exprs args ->
  Eval h v (CallExpr n exprs) = returned h (host_call h f args) /\
  (forall x y rest,
     host_call h f args = Returns (x :: y :: rest) ->
     Eval h v (CallExpr n exprs) =
       match assoc "Error" (method_set y) with
       | Some m => if error_method h m then Ret x (Some (ErrHost y))
                   else Ret x None
       | None => Ret x None
       end).
Proof.
  intros Hn Hf Hargs.
  assert (He : Eval h v (CallExpr n exprs) = returned h (host_call h f args)).
  { cbn [Eval]. rewrite Hn, (eval_args_values h v _ _ Hargs).
    unfold Call. rewrite Hf. apply ret_values_returned. }
  split; [exact He |].
  intros x y rest Hret. rewrite He, Hret. cbn [returned].
  unfold as_error, MethodByName.
  destruct (assoc "Error" (method_set y)) as [m |]; [| reflexivity].
  cbn [fst]. now destruct (error_method h m).
Qed.

(** X11.  A method call dereferences the receiver and every argument: the
    method, found in the method set of the type of the receiver, a struct
    type or any other defined type, or in that of a pointer to it, is bound
    to the one it was found on and is called with the values under the
    pointers and interfaces of the arguments; the values it returns are
    handled as those of a call. *)
Theorem X11_method_call_dereferences_arguments
    (l : Expr) (n : string) (exprs : list Expr) (rv : value) (m : method)
    (args : list value) :
  evalAndDerefRv h v l = inl rv -> resolve_method rv n = Some m ->
  Forall2 (fun a y => evalAndDerefRv h v a = inl y) exprs args ->
  Eval h v (MethodCallExpr l n exprs)
    = returned h (host_method h (fst m) (snd m) args) /\
  (snd m = rv \/ snd m = VPtr (Some rv)).
Proof.
  unfold evalAndDerefRv at 1. intros Hd Hm Hargs. split.
  - cbn [Eval]. rewrite Hd, Hm, (eval_deref_args_values h v _ _ Hargs).
    apply ret_values_returned.
  - unfold resolve_method in Hm.
    destruct (MethodByName rv n) as [m' |] eqn:Hv.
    + injection Hm as <-. left. now apply (MethodByName_receiver rv n).
    + right. now apply (MethodByName_receiver (New_ptr rv) n).
Qed.

(** X12.  The first argument that fails ends a call: the function or the
    method is not called, and the result is the error of the argument, with
    a nil value, or its panic.  For a call this holds whatever the name is
    bound to; for a method call an argument also fails when its value is a
    nil pointer or interface. *)
Theorem X12_first_failing_argument
    (pre post : list Expr) (a : Expr) :
  (forall n f xs,
     env v !! n = Some f ->
     Forall2 (fun a x => Eval h v a = Ret x None) pre xs ->
     fails (Eval h v a) = true ->
     Eval h v (CallExpr n (pre ++ a :: post)) = passed_on (Eval h v a)) /\
  (forall l n rv m ys o,
     evalAndDerefRv h v l = inl rv -> resolve_method rv n = Some m ->
     Forall2 (fun a y => evalAndDerefRv h v a = inl y) pre ys ->
     evalAndDerefRv h v a = inr o ->
     Eval h v (MethodCallExpr l n (pre ++ a :: post)) = o /\
     (fails (Eval h v a) = true -> o = passed_on (Eval h v a)) /\
     (fails (Eval h v a) = false -> o = cannot_reference_value)).
Proof.
  split.
  - intros n f xs Hn Hpre Ha. cbn [Eval].
    now rewrite Hn, (eval_args_fails h v _ _ _ _ Hpre Ha).
  - intros l n rv m ys o Hd Hm Hpre Ha. split; [| split].
    + unfold evalAndDerefRv in Hd. cbn [Eval].
      now rewrite Hd, Hm, (eval_deref_args_fails h v _ _ _ _ _ Hpre Ha).
    + unfold evalAndDerefRv, derefOutcome in Ha.
      destruct (Eval h v a) as [y [err |] | p]; try discriminate;
        intros _; now injection Ha as <-.
    + unfold evalAndDerefRv, derefOutcome in Ha.
      destruct (Eval h v a) as [y [err |] | p]; try discriminate. intros _.
      destruct (deref y) as [c | err] eqn:Hy; [discriminate |].
      injection Ha as <-.
      destruct (deref_error _ _ Hy) as [-> _]. reflexivity.
Qed.


End OperandFacts.

Lemma X4_witness :
  Eval sample_host sample_vm
    (BinOpExpr "+" (LitExpr (VInt MaxInt64)) (LitExpr (VInt32 1)))
    = Ret (VInt64 MinInt64) None /\
  Eval sample_host sample_vm
    (BinOpExpr "/" (LitExpr (VInt64 (-7))) (LitExpr (VInt 2)))
    = Ret (VInt64 (-3)) None.
Proof.
  split.
  - refine (proj1 (X4_integer_operands_widen_and_wrap sample_host sample_vm
                     (LitExpr (VInt MaxInt64)) (LitExpr (VInt32 1))
                     (VInt MaxInt64) (VInt32 1) MaxInt64 1
                     eq_refl eq_refl eq_refl eq_refl _ _));
      unfold in_int64, MinInt64, MaxInt64; lia.
  - refine (proj1 (proj2 (proj2 (proj2
              (X4_integer_operands_widen_and_wrap sample_host sample_vm
                 (LitExpr (VInt64 (-7))) (LitExpr (VInt 2))
                 (VInt64 (-7)) (VInt 2) (-7) 2
                 eq_refl eq_refl eq_refl eq_refl _ _)))) _);
      unfold in_int64, MinInt64, MaxInt64; lia.
Defined.

Lemma X5_witness :
  Eval sample_host sample_vm
    (BinOpExpr "+" (LitExpr (VInt64 1)) (LitExpr (VString "2")))
    = Ret (VInt64 3) None /\
  Eval sample_host sample_vm
    (BinOpExpr "+" (LitExpr (VInt64 1)) (LitExpr VNil))
    = Ret VNil (Some (ErrNum "ParseInt" "<nil>" ErrSyntax)).
Proof.
  split.
  - refine (proj1 (X5_integer_with_text sample_host sample_vm "+"
                     (LitExpr (VInt64 1)) (LitExpr (VString "2"))
                     (VInt64 1) (VString "2") 1 eq_refl eq_refl eq_refl _)
              2 eq_refl _);
      unfold in_int64, MinInt64, MaxInt64; lia.
  - refine (proj2 (proj2 (X5_integer_with_text sample_host sample_vm "+"
                     (LitExpr (VInt64 1)) (LitExpr VNil)
                     (VInt64 1) VNil 1 eq_refl eq_refl eq_refl _)) eq_refl);
      unfold in_int64, MinInt64, MaxInt64; lia.
Defined.

Lemma X6_witness :
  Eval sample_host sample_vm
    (BinOpExpr "+" (LitExpr (VPtr (Some (VInt64 1)))) (LitExpr (VInt64 1)))
    = InvalidTypeConversion /\
  Eval sample_host sample_vm
    (BinOpExpr "+" (LitExpr (VBool true)) (LitExpr (VInt64 1)))
    = InvalidTypeConversion.
Proof.
  split.
  - refine (X6_invalid_type_conversion sample_host sample_vm "+"
              (LitExpr (VPtr (Some (VInt64 1)))) (LitExpr (VInt64 1))
              (VPtr (Some (VInt64 1))) (VInt64 1) eq_refl eq_refl _
              eq_refl eq_refl).
    discriminate.
  - refine (X6_invalid_type_conversion sample_host sample_vm "+"
              (LitExpr (VBool true)) (LitExpr (VInt64 1))
              (VBool true) (VInt64 1) eq_refl eq_refl _ eq_refl eq_refl).
    discriminate.
Defined.


Lemma X9_witness :
  Eval sample_host sample_vm (ItemExpr (IdentExpr "xs") (LitExpr (VInt64 3)))
    = Panic IndexOutOfRange /\
  Eval sample_host sample_vm (ItemExpr (IdentExpr "xs") (LitExpr (VInt64 (-1))))
    = Panic IndexOutOfRange /\
  Eval sample_host sample_vm (ItemExpr (IdentExpr "xs") (LitExpr VNil))
    = Panic NilTypeKind.
Proof.
  split; [| split].
  - refine (proj1 (proj2 (X9_slice_index_panics sample_host sample_vm
                            (IdentExpr "xs") (LitExpr (VInt64 3))
                            [VInt64 10; VInt64 20; VInt64 30] (VInt64 3)
                            eq_refl eq_refl)) 3 eq_refl _).
    right. cbn. lia.
  - refine (proj1 (proj2 (X9_slice_index_panics sample_host sample_vm
                            (IdentExpr "xs") (LitExpr (VInt64 (-1)))
                            [VInt64 10; VInt64 20; VInt64 30] (VInt64 (-1))
                            eq_refl eq_refl)) (-1) eq_refl _).
    left. lia.
  - exact (proj1 (X9_slice_index_panics sample_host sample_vm
                    (IdentExpr "xs") (LitExpr VNil)
                    [VInt64 10; VInt64 20; VInt64 30] VNil
                    eq_refl eq_refl) eq_refl).
Defined.

Lemma X10_witness :
  Eval sample_host sample_vm (CallExpr "answer" []) = Ret (VInt64 42) None /\
  Eval sample_host sample_vm (CallExpr "answer" [IdentExpr "p"])
    = Panic (HostPanic "reflect: Call with too many input arguments") /\
  Eval sample_host typed_vm (CallExpr "fail" [])
    = Ret (VInt64 0) (Some (ErrHost (VNilPtr Problem))) /\
  Eval sample_host typed_vm (CallExpr "errno" [])
    = Ret (VInt64 0) (Some (ErrHost (VDefined Errno (VOther "uintptr")))) /\
  Eval sample_host typed_vm (CallExpr "pair" []) = Ret (VInt64 1) None.
Proof.
  split; [| split; [| split; [| split]]].
  - exact (proj1 (X10_call_passes_values sample_host sample_vm "answer"
                    (VFunc "answer") "answer" [] [] eq_refl eq_refl
                    (List.Forall2_nil _))).
  - exact (proj1 (X10_call_passes_values sample_host sample_vm "answer"
                    (VFunc "answer") "answer" [IdentExpr "p"] [VPtr None]
                    eq_refl eq_refl
                    (List.Forall2_cons (IdentExpr "p") (VPtr None) eq_refl
                       (List.Forall2_nil _)))).
  - exact (proj2 (X10_call_passes_values sample_host typed_vm "fail"
                    (VFunc "fail") "fail" [] [] eq_refl eq_refl
                    (List.Forall2_nil _))
             (VInt64 0) (VNilPtr Problem) [] eq_refl).
  - exact (proj2 (X10_call_passes_values sample_host typed_vm "errno"
                    (VFunc "errno") "errno" [] [] eq_refl eq_refl
                    (List.Forall2_nil _))
             (VInt64 0) (VDefined Errno (VOther "uintptr")) [] eq_refl).
  - exact (proj2 (X10_call_passes_values sample_host typed_vm "pair"
                    (VFunc "pair") "pair" [] [] eq_refl eq_refl
                    (List.Forall2_nil _))
             (VInt64 1) (VInt64 2) [] eq_refl).
Defined.

Lemma X11_witness :
  Eval sample_host sample_vm (MethodCallExpr (IdentExpr "c") "Inc" [])
    = Ret (VInt64 2) None /\
  Eval sample_host sample_vm (MethodCallExpr (IdentExpr "c") "Get" [])
    = Ret (VInt64 1) None /\
  Eval sample_host typed_vm (MethodCallExpr (IdentExpr "t") "Sign" [])
    = Ret (VBool false) None.
Proof.
  split; [| split].
  - exact (proj1 (X11_method_call_dereferences_arguments sample_host sample_vm
                    (IdentExpr "c") "Inc" []
                    (VStruct Counter [("N", (true, VInt64 1))])
                    ("Counter.Inc",
                     VPtr (Some (VStruct Counter [("N", (true, VInt64 1))])))
                    [] eq_refl eq_refl (List.Forall2_nil _))).
  - exact (proj1 (X11_method_call_dereferences_arguments sample_host sample_vm
                    (IdentExpr "c") "Get" []
                    (VStruct Counter [("N", (true, VInt64 1))])
                    ("Counter.Get", VStruct Counter [("N", (true, VInt64 1))])
                    [] eq_refl eq_refl (List.Forall2_nil _))).
  - exact (proj1 (X11_method_call_dereferences_arguments sample_host typed_vm
                    (IdentExpr "t") "Sign" []
                    (VDefined Celsius (VFloat64 one_f64))
                    ("Celsius.Sign", VDefined Celsius (VFloat64 one_f64))
                    [] eq_refl eq_refl (List.Forall2_nil _))).
Defined.

Lemma X12_witness :
  Eval sample_host sample_vm
    (CallExpr "answer" [IdentExpr "x"; IdentExpr "nope"; IdentExpr "p"])
    = UnboundName "nope" /\
  Eval sample_host sample_vm
    (MethodCallExpr (IdentExpr "c") "Get" [IdentExpr "x"; IdentExpr "p"])
    = cannot_reference_value.
Proof.
  split.
  - exact (proj1 (X12_first_failing_argument sample_host sample_vm
                    [IdentExpr "x"] [IdentExpr "p"] (IdentExpr "nope"))
             "answer" (VFunc "answer") [VInt64 1] eq_refl
             (List.Forall2_cons (IdentExpr "x") (VInt64 1) eq_refl
                (List.Forall2_nil _)) eq_refl).
  - exact (proj1 (proj2 (X12_first_failing_argument sample_host sample_vm
                           [IdentExpr "x"] [] (IdentExpr "p"))
                    (IdentExpr "c") "Get"
                    (VStruct Counter [("N", (true, VInt64 1))])
                    ("Counter.Get", VStruct Counter [("N", (true, VInt64 1))])
                    [VInt64 1] cannot_reference_value
                    eq_refl eq_refl
                    (List.Forall2_cons (IdentExpr "x") (VInt64 1) eq_refl
                (List.Forall2_nil _)) eq_refl)).
Defined.


(** ** The numbering of the tokens *)

Lemma token_named_low :
  forallb token_named (map Z.of_nat (seq 0 94)) = true.
Proof. vm_compute. reflexivity. Qed.

Lemma token_named_private :
  forallb token_named (map (fun i => yyPrivate + Z.of_nat i) (seq 0 6)) = true.
Proof. vm_compute. reflexivity. Qed.

Lemma token_named_all (ch : Z) : token_named ch = true.
Proof.
  destruct (Z.leb_spec ch 0) as [Hneg | Hpos].
  { unfold token_named, yyTokOf, token_name_of.
    destruct (Z.leb_spec ch 0); [reflexivity | lia]. }
  destruct (Z.ltb_spec ch 94) as [Hlow | Hhigh].
  { pose proof token_named_low as Hall. rewrite forallb_forall in Hall.
    apply Hall. rewrite <- (Z2Nat.id ch) by lia.
    apply in_map, in_seq. lia. }
  destruct (Z.ltb_spec ch yyPrivate) as [Hmid | Hpriv].
  { unfold token_named, yyTokOf, token_name_of, yyPrivate, IDENT, LIT, FOR, IN in *.
    destruct (Z.leb_spec ch 0); [lia |].
    change (len yyTok1) with 94.
    destruct (Z.ltb_spec ch 94); [lia |].
    destruct (Z.leb_spec 57344 ch); [lia |]. cbn [andb].
    change (idx yyTok3 0) with (Some 0). cbv beta iota.
    destruct (Z.eqb_spec 0 ch); [lia |].
    repeat match goal with
           | |- context [?a =? ?b] => destruct (Z.eqb_spec a b); [lia |]
           end.
    reflexivity. }
  destruct (Z.ltb_spec ch (yyPrivate + 6)) as [Hin | Hout].
  { pose proof token_named_private as Hall. rewrite forallb_forall in Hall.
    apply Hall.
    replace ch with (yyPrivate + Z.of_nat (Z.to_nat (ch - yyPrivate))) by lia.
    apply (in_map (fun i => yyPrivate + Z.of_nat i)), in_seq. lia. }
  unfold token_named, yyTokOf, token_name_of, yyPrivate, IDENT, LIT, FOR, IN in *.
  destruct (Z.leb_spec ch 0); [lia |].
  change (len yyTok1) with 94. change (len yyTok2) with 6.
  destruct (Z.ltb_spec ch 94); [lia |].
  destruct (Z.leb_spec 57344 ch); [| lia].
  destruct (Z.ltb_spec ch (57344 + 6)); [lia |]. cbn [andb].
  change (idx yyTok3 0) with (Some 0). cbv beta iota.
  destruct (Z.eqb_spec 0 ch); [lia |].
  repeat match goal with
         | |- context [?a =? ?b] => destruct (Z.eqb_spec a b); [lia |]
         end.
  reflexivity.
Qed.

(** X13.  [yylex1] gives what the lexer returns the number under which
    [yyToknames] names it: the end of the input is [$end], each of the ten
    characters of the grammar is the token of that character, the four token
    codes are [IDENT], [LIT], [FOR] and [IN], and every other character is
    [$unk]. *)
Theorem X13_token_numbers_agree_with_names (ch : Z) :
  exists k,
    yyTokOf ch = Some k /\ 1 <= k <= 17 /\ yyTokname k = token_name_of ch.
Proof.
  pose proof (token_named_all ch) as Hc. unfold token_named in Hc.
  destruct (yyTokOf ch) as [k |]; [| discriminate].
  apply andb_prop in Hc as [Hc Hn]. apply andb_prop in Hc as [Hlo Hhi].
  exists k. split; [reflexivity |].
  split; [lia |]. now apply String.eqb_eq.
Qed.

(** ** The whole grammar *)

Section ReachFacts.

Variable h : Host.

Lemma reaches_refl (c : config) : reaches h c c.
Proof. now exists 0%nat. Qed.

Lemma reaches_trans (c1 c2 c3 : config) :
  reaches h c1 c2 -> reaches h c2 c3 -> reaches h c1 c3.
Proof.
  intros [n Hn] [m Hm]. exists (n + m)%nat.
  now rewrite (run_add h n m c1 c2 Hn).
Qed.

Lemma reaches_step (c c' : config) :
  yynewstate h c = Done (Continue c') -> reaches h c c'.
Proof.
  intros Hs. exists 1%nat. now apply run_one.
Qed.

(** The loop returns what the state it reaches returns. *)
Lemma yyloop_reaches (c c' : config) (code : Z) (l : Lexer) (fuel : nat)
    (r : Z * Lexer) :
  reaches h c c' -> yynewstate h c' = Done (Return code l) ->
  yyloop h fuel c = Some r -> r = (code, l).
Proof.
  intros [n Hn]. revert c fuel Hn.
  induction n as [| n IH]; intros c fuel Hn Hret Hloop.
  - cbn in Hn. injection Hn as ->.
    destruct fuel; [discriminate |]. cbn in Hloop.
    rewrite Hret in Hloop. now injection Hloop as <-.
  - destruct fuel; [discriminate |]. cbn in Hn, Hloop.
    destruct (yynewstate h c) as [[c1 | |] | c1]; try discriminate; eauto.
Qed.

Lemma yyParse_reaches (s : string) (a : Expr) (c' : config) (code : Z)
    (l : Lexer) :
  reaches h (yyinit (mkLexer s a)) c' ->
  yynewstate h c' = Done (Return code l) ->
  yyParse h (turns s) (mkLexer s a) = Some (code, l).
Proof.
  intros Hr Hret. destruct (yyParse_total h s a) as (code' & l' & Hp).
  rewrite Hp. f_equal. unfold yyParse in Hp.
  exact (yyloop_reaches _ _ _ _ _ _ Hr Hret Hp).
Qed.

(** The invariant of the loop holds in every state it reaches. *)
Lemma reaches_Inv (c c' : config) : Inv c -> reaches h c c' -> Inv c'.
Proof.
  intros Hinv [n Hn]. revert c Hinv Hn.
  induction n as [| n IH]; intros c Hinv Hn.
  - cbn in Hn. now injection Hn as <-.
  - cbn in Hn.
    destruct (yynewstate_total h c Hinv)
      as [(c1 & Hd & Hinv1 & _) | (code & l & Hr)].
    + rewrite Hd in Hn. eauto.
    + rewrite Hr in Hn. discriminate.
Qed.

End ReachFacts.

(** Production 13: expr -> IDENT '(' exprs ')' *)
Lemma reduce_call (c : config) (x_args x_lp x_id base : yySymType)
    (rest : list yySymType) (g : Z) :
  below c = x_args :: x_lp :: x_id :: base :: rest ->
  yygoto 7 (yys base) = Some g ->
  exists c',
    reduce c 13 = Continue c' /\ yys (top c') = g /\
    expr (top c') = CallExpr (str x_id) (exprs x_args) /\
    below c' = base :: rest /\ same_input c c' /\ e (lex c') = e (lex c).
Proof.
  destruct c as [l lv ch tk VAL tp bl ab ef ne]. cbn. intros -> Hg.
  reduce_by 4%Z 4%nat. rewrite Hg. reduced.
Qed.

(** Production 14: expr -> expr '.' IDENT '(' exprs ')' *)
Lemma reduce_method (c : config) (x_args x_lp x_id x_dot x_l base : yySymType)
    (rest : list yySymType) (g : Z) :
  below c = x_args :: x_lp :: x_id :: x_dot :: x_l :: base :: rest ->
  yygoto 7 (yys base) = Some g ->
  exists c',
    reduce c 14 = Continue c' /\ yys (top c') = g /\
    expr (top c') = MethodCallExpr (expr x_l) (str x_id) (exprs x_args) /\
    below c' = base :: rest /\ same_input c c' /\ e (lex c') = e (lex c).
Proof.
  destruct c as [l lv ch tk VAL tp bl ab ef ne]. cbn. intros -> Hg.
  reduce_by 6%Z 6%nat. rewrite Hg. reduced.
Qed.

(** Production 15: expr -> expr '.' IDENT *)
Lemma reduce_member (c : config) (x_dot x_l base : yySymType)
    (rest : list yySymType) (g : Z) :
  below c = x_dot :: x_l :: base :: rest ->
  yygoto 7 (yys base) = Some g ->
  exists c',
    reduce c 15 = Continue c' /\ yys (top c') = g /\
    expr (top c') = MemberExpr (expr x_l) (str (top c)) /\
    below c' = base :: rest /\ same_input c c' /\ e (lex c') = e (lex c).
Proof.
  destruct c as [l lv ch tk VAL tp bl ab ef ne]. cbn. intros -> Hg.
  reduce_by 3%Z 3%nat. rewrite Hg. reduced.
Qed.

(** Production 16: expr -> expr '[' expr ']' *)
Lemma reduce_item (c : config) (x_i x_lb x_l base : yySymType)
    (rest : list yySymType) (g : Z) :
  below c = x_i :: x_lb :: x_l :: base :: rest ->
  yygoto 7 (yys base) = Some g ->
  exists c',
    reduce c 16 = Continue c' /\ yys (top c') = g /\
    expr (top c') = ItemExpr (expr x_l) (expr x_i) /\
    below c' = base :: rest /\ same_input c c' /\ e (lex c') = e (lex c).
Proof.
  destruct c as [l lv ch tk VAL tp bl ab ef ne]. cbn. intros -> Hg.
  reduce_by 4%Z 4%nat. rewrite Hg. reduced.
Qed.

(** Production 4: exprs -> (nothing) *)
Lemma reduce_args_none (c : config) (gl : Z) :
  yygoto 4 (yys (top c)) = Some gl ->
  exists c',
    reduce c 4 = Continue c' /\ yys (top c') = gl /\
    exprs (top c') = [] /\
    below c' = top c :: below c /\ same_input c c' /\ e (lex c') = e (lex c).
Proof.
  destruct c as [l lv ch tk VAL tp bl ab ef ne]. cbn. intros Hg.
  unfold reduce. change (idx yyR2 4) with (Some 0). cbv beta iota.
  change (Z.to_nat 0) with 0%nat. cbn -[yygoto]. rewrite Hg. reduced.
Qed.

(** Production 5: exprs -> expr *)
Lemma reduce_args_first (c : config) (base : yySymType)
    (rest : list yySymType) (gl : Z) :
  below c = base :: rest -> yygoto 4 (yys base) = Some gl ->
  exists c',
    reduce c 5 = Continue c' /\ yys (top c') = gl /\
    exprs (top c') = [expr (top c)] /\
    below c' = base :: rest /\ same_input c c' /\ e (lex c') = e (lex c).
Proof.
  destruct c as [l lv ch tk VAL tp bl ab ef ne]. cbn. intros -> Hg.
  unfold reduce. change (idx yyR2 5) with (Some 1). cbv beta iota.
  change (Z.to_nat 1) with 1%nat. cbn -[yygoto].
  change (yygoto 5 (yys base)) with (yygoto 4 (yys base)).
  rewrite Hg. reduced.
Qed.

(** Production 6: exprs -> exprs ',' expr *)
Lemma reduce_args_more (c : config) (x_comma x_l base : yySymType)
    (rest : list yySymType) (gl : Z) :
  below c = x_comma :: x_l :: base :: rest ->
  yygoto 4 (yys base) = Some gl ->
  exists c',
    reduce c 6 = Continue c' /\ yys (top c') = gl /\
    exprs (top c') = (exprs x_l ++ [expr (top c)])%list /\
    below c' = base :: rest /\ same_input c c' /\ e (lex c') = e (lex c).
Proof.
  destruct c as [l lv ch tk VAL tp bl ab ef ne]. cbn. intros -> Hg.
  unfold reduce. change (idx yyR2 6) with (Some 3). cbv beta iota.
  change (Z.to_nat 3) with 3%nat. cbn -[yygoto].
  change (yygoto 6 (yys base)) with (yygoto 4 (yys base)).
  rewrite Hg. reduced.
Qed.

Lemma operand_ctx_program : operand_ctx 0 3.
Proof. split; [apply expr_ctx_program | split; reflexivity]. Qed.

Lemma operand_ctx_paren : operand_ctx 5 14.
Proof. split; [apply expr_ctx_paren | split; reflexivity]. Qed.

Lemma operand_ctx_op (o : opsym) : operand_ctx (op_state o) (op_goto o).
Proof. split; [apply expr_ctx_op | destruct o; split; reflexivity]. Qed.

Lemma operand_ctx_for1 : operand_ctx 16 27.
Proof. split; [apply expr_ctx_for1 | split; reflexivity]. Qed.

Lemma operand_ctx_for2 : operand_ctx 33 36.
Proof. split; [apply expr_ctx_for2 | split; reflexivity]. Qed.

Lemma operand_ctx_item : operand_ctx 13 23.
Proof.
  split; [| split; reflexivity].
  unfold expr_ctx. repeat split; try reflexivity. intros []; reflexivity.
Qed.

Lemma operand_ctx_args (s gl close : Z) : args_ctx s gl close -> operand_ctx s 26.
Proof.
  intros [(-> & _) | (-> & _)]; (split; [| split; reflexivity]);
    unfold expr_ctx; repeat split; try reflexivity; intros []; reflexivity.
Qed.

Lemma operand_ctx_more : operand_ctx 31 35.
Proof.
  split; [| split; reflexivity].
  unfold expr_ctx. repeat split; try reflexivity. intros []; reflexivity.
Qed.

Lemma after_phrase_operand (k : Z) : In k after_phrase -> In k after_operand.
Proof.
  unfold after_operand. intros Hk. apply in_or_app. now left.
Qed.

(** One of a list of token numbers, case by case. *)
Ltac each_token H :=
  cbn in H;
  repeat (destruct H as [<- | H]; [reflexivity |]);
  destruct H.

Section GrammarFacts.

Variable h : Host.

Lemma parses_intro (c c' : config) (g : Z) (P : yySymType -> Prop)
    (rest : list tok) :
  reaches h c c' -> yys (top c') = g -> P (top c') ->
  below c' = top c :: below c -> at_tokens h c' rest ->
  e (lex c') = e (lex c) ->
  parses h c g P rest.
Proof.
  intros. exists c'. auto 10.
Qed.

(** The parser builds the tree of every operand, phrase and list of
    arguments of the grammar. *)
Lemma parse_grammar :
  (forall (a : operand) (c : config) (s g : Z) (rest : list tok),
     yys (top c) = s -> operand_ctx s g ->
     at_tokens h c (operand_toks a ++ rest) ->
     In (next_tokno rest) after_operand ->
     parses h c g (fun x => expr x = operand_ast a) rest) /\
  (forall (x : phrase) (c : config) (s g : Z) (rest : list tok),
     yys (top c) = s -> operand_ctx s g ->
     at_tokens h c (phrase_toks x ++ rest) ->
     In (next_tokno rest) after_phrase ->
     parses h c g (fun y => expr y = phrase_ast x) rest) /\
  (forall (l : arglist) (c : config) (s gl close : Z) (rest : list tok),
     yys (top c) = s -> args_ctx s gl close ->
     at_tokens h c (arglist_toks l ++ rest) ->
     In (next_tokno rest) [1; 8; 10] ->
     parses h c gl (fun y => exprs y = arglist_asts l) rest).
Proof.
  apply grammar_mutind.
  - (* a literal: shift, then production 7 *)
    intros ds c s g rest Hs [(Hsimple & _ & HLit & _ & _ & Hgoto & _) _] Hat _.
    cbn [operand_toks app] in Hat.
    destruct (shift_move h c _ _ 4 Hat)
      as (c1 & Hstep1 & Hs1 & Hv1 & Hb1 & Hat1 & He1);
      [congruence | now rewrite Hs |].
    destruct (reduce_LIT c1 (top c) (below c) g Hb1)
      as (c2 & Hstep2 & Hs2 & Hx2 & Hb2 & Hin2 & He2); [now rewrite Hs |].
    apply (parses_intro c c2); auto.
    + apply (reaches_trans h c c1 c2); apply reaches_step; [exact Hstep1 |].
      rewrite (reduce_simple h c1 7); [now rewrite Hstep2 | | |];
        rewrite ?Hs1; [reflexivity | reflexivity | lia].
    + cbn in Hv1 |- *. now rewrite Hx2, Hv1.
    + now apply (at_tokens_same_input h c1).
    + congruence.
  - (* an identifier: shift, then production 17 once the next token is
       read *)
    intros w c s g rest Hs [(Hsimple & _ & _ & HId & _ & Hgoto & _) _] Hat Hf.
    cbn [operand_toks app] in Hat.
    destruct (shift_move h c _ _ 6 Hat)
      as (c1 & Hstep1 & Hs1 & Hv1 & Hb1 & Hat1 & He1);
      [congruence | now rewrite Hs |].
    destruct (reduce_peek h c1 rest 17 Hat1)
      as (c1' & Hstep1' & Ht1' & Hb1' & Hat1' & He1').
    { now rewrite Hs1. }
    { rewrite Hs1. each_token Hf. }
    { now rewrite Hs1. }
    { lia. }
    destruct (reduce_IDENT c1' (top c) (below c) g)
      as (c2 & Hstep2 & Hs2 & Hx2 & Hb2 & Hin2 & He2);
      [congruence | now rewrite Hs |].
    apply (parses_intro c c2); auto.
    + apply (reaches_trans h c c1 c2); apply reaches_step; [exact Hstep1 |].
      now rewrite Hstep1', Hstep2.
    + cbn in Hv1 |- *. now rewrite Hx2, Ht1', Hv1.
    + now apply (at_tokens_same_input h c1').
    + congruence.
  - (* parentheses: shift, the phrase, shift, production 8 *)
    intros x IH c s g rest Hs [(Hsimple & _ & _ & _ & HParen & Hgoto & _) _] Hat _.
    cbn [operand_toks app] in Hat. rewrite <- app_assoc in Hat.
    destruct (shift_move h c _ _ 5 Hat)
      as (c1 & Hstep1 & Hs1 & _ & Hb1 & Hat1 & He1);
      [congruence | now rewrite Hs |].
    destruct (IH c1 5 14 _ Hs1 operand_ctx_paren Hat1)
      as (c2 & Hrun2 & Hs2 & Hx2 & Hb2 & Hat2 & He2).
    { cbn. auto 20. }
    cbn [app] in Hat2.
    destruct (shift_move h c2 _ _ 24 Hat2)
      as (c3 & Hstep3 & Hs3 & _ & Hb3 & Hat3 & He3);
      [now rewrite Hs2 | now rewrite Hs2 |].
    destruct (reduce_paren c3 (top c2) (top c1) (top c) (below c) g)
      as (c4 & Hstep4 & Hs4 & Hx4 & Hb4 & Hin4 & He4);
      [now rewrite Hb3, Hb2, Hb1 | now rewrite Hs |].
    apply (parses_intro c c4); auto.
    + apply (reaches_trans h c c1); [now apply reaches_step |].
      apply (reaches_trans h c1 c2); [exact Hrun2 |].
      apply (reaches_trans h c2 c3); apply reaches_step; [exact Hstep3 |].
      rewrite (reduce_simple h c3 8); [now rewrite Hstep4 | | |];
        rewrite ?Hs3; [reflexivity | reflexivity | lia].
    + cbn [operand_ast]. congruence.
    + now apply (at_tokens_same_input h c3).
    + congruence.
  - (* a call: the name, the parenthesis, the arguments, the parenthesis,
       production 13 *)
    intros f args IH c s g rest Hs [(Hsimple & _ & _ & HId & _ & Hgoto & _) _] Hat _.
    cbn [operand_toks app] in Hat. rewrite <- app_assoc in Hat.
    cbn [app] in Hat.
    destruct (shift_move h c _ _ 6 Hat)
      as (c1 & Hstep1 & Hs1 & Hv1 & Hb1 & Hat1 & He1);
      [congruence | now rewrite Hs |].
    destruct (shift_move h c1 _ _ 15 Hat1)
      as (c2 & Hstep2 & Hs2 & _ & Hb2 & Hat2 & He2);
      [now rewrite Hs1 | now rewrite Hs1 |].
    destruct (IH c2 15 25 32 _ Hs2 (or_introl (conj eq_refl (conj eq_refl eq_refl))) Hat2)
      as (c3 & Hrun3 & Hs3 & Hx3 & Hb3 & Hat3 & He3).
    { cbn. auto. }
    destruct (shift_move h c3 _ _ 32 Hat3)
      as (c4 & Hstep4 & Hs4 & _ & Hb4 & Hat4 & He4);
      [now rewrite Hs3 | now rewrite Hs3 |].
    destruct (reduce_call c4 (top c3) (top c2) (top c1) (top c) (below c) g)
      as (c5 & Hstep5 & Hs5 & Hx5 & Hb5 & Hin5 & He5);
      [now rewrite Hb4, Hb3, Hb2, Hb1 | now rewrite Hs |].
    apply (parses_intro c c5); auto.
    + apply (reaches_trans h c c1); [now apply reaches_step |].
      apply (reaches_trans h c1 c2); [now apply reaches_step |].
      apply (reaches_trans h c2 c3); [exact Hrun3 |].
      apply (reaches_trans h c3 c4); apply reaches_step; [exact Hstep4 |].
      rewrite (reduce_simple h c4 13); [now rewrite Hstep5 | | |];
        rewrite ?Hs4; [reflexivity | reflexivity | lia].
    + cbn [operand_ast]. cbn in Hv1. now rewrite Hx5, Hv1, Hx3.
    + now apply (at_tokens_same_input h c4).
    + congruence.
  - (* a member access: the operand, the point, the name, production 15
       once the next token is read *)
    intros a IH n c s g rest Hs Hctx Hat Hf.
    cbn [operand_toks] in Hat. rewrite <- app_assoc in Hat. cbn [app] in Hat.
    destruct (IH c s g _ Hs Hctx Hat)
      as (c1 & Hrun1 & Hs1 & Hx1 & Hb1 & Hat1 & He1).
    { cbn. auto 20. }
    destruct Hctx as [(_ & Hsimpleg & _ & _ & _ & Hgoto & _) [Hdot _]].
    destruct (shift_move h c1 _ _ 12 Hat1)
      as (c2 & Hstep2 & Hs2 & _ & Hb2 & Hat2 & He2);
      [now rewrite Hs1 | now rewrite Hs1 |].
    destruct (shift_move h c2 _ _ 22 Hat2)
      as (c3 & Hstep3 & Hs3 & Hv3 & Hb3 & Hat3 & He3);
      [now rewrite Hs2 | now rewrite Hs2 |].
    destruct (reduce_peek h c3 rest 15 Hat3)
      as (c3' & Hstep3' & Ht3' & Hb3' & Hat3' & He3').
    { now rewrite Hs3. }
    { rewrite Hs3. each_token Hf. }
    { now rewrite Hs3. }
    { lia. }
    destruct (reduce_member c3' (top c2) (top c1) (top c) (below c) g)
      as (c4 & Hstep4 & Hs4 & Hx4 & Hb4 & Hin4 & He4);
      [now rewrite Hb3', Hb3, Hb2, Hb1 | now rewrite Hs |].
    apply (parses_intro c c4); auto.
    + apply (reaches_trans h c c1); [exact Hrun1 |].
      apply (reaches_trans h c1 c2); [now apply reaches_step |].
      apply (reaches_trans h c2 c3); apply reaches_step; [exact Hstep3 |].
      now rewrite Hstep3', Hstep4.
    + cbn [operand_ast]. cbn in Hv3. now rewrite Hx4, Ht3', Hv3, Hx1.
    + now apply (at_tokens_same_input h c3').
    + congruence.
  - (* a method call: the operand, the point, the name, the parenthesis,
       the arguments, the parenthesis, production 14 *)
    intros a IHa n args IHargs c s g rest Hs Hctx Hat _.
    cbn [operand_toks] in Hat. rewrite <- app_assoc in Hat. cbn [app] in Hat.
    rewrite <- app_assoc in Hat. cbn [app] in Hat.
    destruct (IHa c s g _ Hs Hctx Hat)
      as (c1 & Hrun1 & Hs1 & Hx1 & Hb1 & Hat1 & He1).
    { cbn. auto 20. }
    destruct Hctx as [(_ & Hsimpleg & _ & _ & _ & Hgoto & _) [Hdot _]].
    destruct (shift_move h c1 _ _ 12 Hat1)
      as (c2 & Hstep2 & Hs2 & _ & Hb2 & Hat2 & He2);
      [now rewrite Hs1 | now rewrite Hs1 |].
    destruct (shift_move h c2 _ _ 22 Hat2)
      as (c3 & Hstep3 & Hs3 & Hv3 & Hb3 & Hat3 & He3);
      [now rewrite Hs2 | now rewrite Hs2 |].
    destruct (shift_move h c3 _ _ 29 Hat3)
      as (c4 & Hstep4 & Hs4 & _ & Hb4 & Hat4 & He4);
      [now rewrite Hs3 | now rewrite Hs3 |].
    destruct (IHargs c4 29 34 37 _ Hs4
                (or_intror (conj eq_refl (conj eq_refl eq_refl))) Hat4)
      as (c5 & Hrun5 & Hs5 & Hx5 & Hb5 & Hat5 & He5).
    { cbn. auto. }
    destruct (shift_move h c5 _ _ 37 Hat5)
      as (c6 & Hstep6 & Hs6 & _ & Hb6 & Hat6 & He6);
      [now rewrite Hs5 | now rewrite Hs5 |].
    destruct (reduce_method c6 (top c5) (top c4) (top c3) (top c2) (top c1)
                (top c) (below c) g)
      as (c7 & Hstep7 & Hs7 & Hx7 & Hb7 & Hin7 & He7);
      [now rewrite Hb6, Hb5, Hb4, Hb3, Hb2, Hb1 | now rewrite Hs |].
    apply (parses_intro c c7); auto.
    + apply (reaches_trans h c c1); [exact Hrun1 |].
      apply (reaches_trans h c1 c2); [now apply reaches_step |].
      apply (reaches_trans h c2 c3); [now apply reaches_step |].
      apply (reaches_trans h c3 c4); [now apply reaches_step |].
      apply (reaches_trans h c4 c5); [exact Hrun5 |].
      apply (reaches_trans h c5 c6); apply reaches_step; [exact Hstep6 |].
      rewrite (reduce_simple h c6 14); [now rewrite Hstep7 | | |];
        rewrite ?Hs6; [reflexivity | reflexivity | lia].
    + cbn [operand_ast]. cbn in Hv3. now rewrite Hx7, Hv3, Hx1, Hx5.
    + now apply (at_tokens_same_input h c6).
    + congruence.
  - (* an item access: the operand, the bracket, the phrase, the bracket,
       production 16 *)
    intros a IHa i IHi c s g rest Hs Hctx Hat _.
    cbn [operand_toks] in Hat. rewrite <- app_assoc in Hat. cbn [app] in Hat.
    rewrite <- app_assoc in Hat. cbn [app] in Hat.
    destruct (IHa c s g _ Hs Hctx Hat)
      as (c1 & Hrun1 & Hs1 & Hx1 & Hb1 & Hat1 & He1).
    { cbn. auto 20. }
    destruct Hctx as [(_ & Hsimpleg & _ & _ & _ & Hgoto & _) [_ Hbr]].
    destruct (shift_move h c1 _ _ 13 Hat1)
      as (c2 & Hstep2 & Hs2 & _ & Hb2 & Hat2 & He2);
      [now rewrite Hs1 | now rewrite Hs1 |].
    destruct (IHi c2 13 23 _ Hs2 operand_ctx_item Hat2)
      as (c3 & Hrun3 & Hs3 & Hx3 & Hb3 & Hat3 & He3).
    { cbn. auto 20. }
    destruct (shift_move h c3 _ _ 30 Hat3)
      as (c4 & Hstep4 & Hs4 & _ & Hb4 & Hat4 & He4);
      [now rewrite Hs3 | now rewrite Hs3 |].
    destruct (reduce_item c4 (top c3) (top c2) (top c1) (top c) (below c) g)
      as (c5 & Hstep5 & Hs5 & Hx5 & Hb5 & Hin5 & He5);
      [now rewrite Hb4, Hb3, Hb2, Hb1 | now rewrite Hs |].
    apply (parses_intro c c5); auto.
    + apply (reaches_trans h c c1); [exact Hrun1 |].
      apply (reaches_trans h c1 c2); [now apply reaches_step |].
      apply (reaches_trans h c2 c3); [exact Hrun3 |].
      apply (reaches_trans h c3 c4); apply reaches_step; [exact Hstep4 |].
      rewrite (reduce_simple h c4 16); [now rewrite Hstep5 | | |];
        rewrite ?Hs4; [reflexivity | reflexivity | lia].
    + cbn [operand_ast]. now rewrite Hx5, Hx1, Hx3.
    + now apply (at_tokens_same_input h c4).
    + congruence.
  - (* a single operand *)
    intros a IH c s g rest Hs Hctx Hat Hc.
    apply (IH c s g rest Hs Hctx Hat). now apply after_phrase_operand.
  - (* operand, operator, and the rest: the operator's production comes
       last *)
    intros a IHa o x IHx c s g rest Hs Hctx Hat Hc.
    cbn [phrase_toks] in Hat. rewrite <- app_assoc in Hat. cbn [app] in Hat.
    destruct (IHa c s g _ Hs Hctx Hat)
      as (c1 & Hrun1 & Hs1 & Hx1 & Hb1 & Hat1 & He1).
    { destruct o; cbn; auto 20. }
    destruct Hctx as [(_ & Hsimpleg & _ & _ & _ & Hgoto & Hops) _].
    destruct (shift_move h c1 _ _ (op_state o) Hat1)
      as (c2 & Hstep2 & Hs2 & _ & Hb2 & Hat2 & He2);
      [now rewrite Hs1 | rewrite Hs1; apply Hops |].
    destruct (IHx c2 _ _ rest Hs2 (operand_ctx_op o) Hat2 Hc)
      as (c3 & Hrun3 & Hs3 & Hx3 & Hb3 & Hat3 & He3).
    destruct (reduce_peek h c3 rest (op_rule o) Hat3)
      as (c3' & Hstep3' & Ht3' & Hb3' & Hat3' & He3').
    { rewrite Hs3. now destruct o. }
    { rewrite Hs3. destruct o; each_token Hc. }
    { rewrite Hs3. now destruct o. }
    { destruct o; reflexivity. }
    destruct (reduce_op o c3' (top c2) (top c1) (top c) (below c) g)
      as (c4 & Hstep4 & Hs4 & Hx4 & Hb4 & Hin4 & He4);
      [now rewrite Hb3', Hb3, Hb2, Hb1 | now rewrite Hs |].
    apply (parses_intro c c4); auto.
    + apply (reaches_trans h c c1); [exact Hrun1 |].
      apply (reaches_trans h c1 c2); [now apply reaches_step |].
      apply (reaches_trans h c2 c3); [exact Hrun3 |].
      apply reaches_step. now rewrite Hstep3', Hstep4.
    + cbn [phrase_ast]. now rewrite Hx4, Ht3', Hx1, Hx3.
    + now apply (at_tokens_same_input h c3').
    + congruence.
  - (* no argument: production 4 once the next token is read *)
    intros c s gl close rest Hs Hctx Hat Hc.
    cbn [arglist_toks app] in Hat.
    destruct (reduce_peek h c rest 4 Hat)
      as (c' & Hstep & Ht & Hb & Hat' & He').
    { rewrite Hs. destruct Hctx as [(-> & _) | (-> & _)]; reflexivity. }
    { rewrite Hs. destruct Hctx as [(-> & _) | (-> & _)]; each_token Hc. }
    { rewrite Hs. destruct Hctx as [(-> & _) | (-> & _)]; reflexivity. }
    { lia. }
    destruct (reduce_args_none c' gl)
      as (c1 & Hstep1 & Hs1 & Hx1 & Hb1 & Hin1 & He1).
    { rewrite Ht, Hs.
      destruct Hctx as [(-> & -> & _) | (-> & -> & _)]; reflexivity. }
    apply (parses_intro c c1); auto.
    + apply reaches_step. now rewrite Hstep, Hstep1.
    + now rewrite Hb1, Ht, Hb.
    + now apply (at_tokens_same_input h c').
    + congruence.
  - (* one argument: the phrase, then production 5 *)
    intros x IH c s gl close rest Hs Hctx Hat Hc.
    cbn [arglist_toks] in Hat.
    destruct (IH c s 26 rest Hs (operand_ctx_args _ _ _ Hctx) Hat)
      as (c1 & Hrun1 & Hs1 & Hx1 & Hb1 & Hat1 & He1).
    { cbn in Hc |- *. destruct Hc as [<- | [<- | [<- | []]]]; auto 20. }
    destruct (reduce_peek h c1 rest 5 Hat1)
      as (c1' & Hstep1' & Ht1' & Hb1' & Hat1' & He1').
    { now rewrite Hs1. }
    { rewrite Hs1. each_token Hc. }
    { now rewrite Hs1. }
    { lia. }
    destruct (reduce_args_first c1' (top c) (below c) gl)
      as (c2 & Hstep2 & Hs2 & Hx2 & Hb2 & Hin2 & He2).
    { now rewrite Hb1', Hb1. }
    { rewrite Hs.
      destruct Hctx as [(-> & -> & _) | (-> & -> & _)]; reflexivity. }
    apply (parses_intro c c2); auto.
    + apply (reaches_trans h c c1); [exact Hrun1 |].
      apply reaches_step. now rewrite Hstep1', Hstep2.
    + cbn [arglist_asts]. now rewrite Hx2, Ht1', Hx1.
    + now apply (at_tokens_same_input h c1').
    + congruence.
  - (* more arguments: those before, the comma, the phrase, production 6 *)
    intros l IHl x IHx c s gl close rest Hs Hctx Hat Hc.
    cbn [arglist_toks] in Hat. rewrite <- app_assoc in Hat. cbn [app] in Hat.
    destruct (IHl c s gl close _ Hs Hctx Hat)
      as (c1 & Hrun1 & Hs1 & Hx1 & Hb1 & Hat1 & He1).
    { cbn. auto. }
    destruct (shift_move h c1 _ _ 31 Hat1)
      as (c2 & Hstep2 & Hs2 & _ & Hb2 & Hat2 & He2).
    { rewrite Hs1.
      destruct Hctx as [(_ & -> & _) | (_ & -> & _)]; reflexivity. }
    { rewrite Hs1.
      destruct Hctx as [(_ & -> & _) | (_ & -> & _)]; reflexivity. }
    destruct (IHx c2 31 35 rest Hs2 operand_ctx_more Hat2)
      as (c3 & Hrun3 & Hs3 & Hx3 & Hb3 & Hat3 & He3).
    { cbn in Hc |- *. destruct Hc as [<- | [<- | [<- | []]]]; auto 20. }
    destruct (reduce_peek h c3 rest 6 Hat3)
      as (c3' & Hstep3' & Ht3' & Hb3' & Hat3' & He3').
    { now rewrite Hs3. }
    { rewrite Hs3. each_token Hc. }
    { now rewrite Hs3. }
    { lia. }
    destruct (reduce_args_more c3' (top c2) (top c1) (top c) (below c) gl)
      as (c4 & Hstep4 & Hs4 & Hx4 & Hb4 & Hin4 & He4).
    { now rewrite Hb3', Hb3, Hb2, Hb1. }
    { rewrite Hs.
      destruct Hctx as [(-> & -> & _) | (-> & -> & _)]; reflexivity. }
    apply (parses_intro c c4); auto.
    + apply (reaches_trans h c c1); [exact Hrun1 |].
      apply (reaches_trans h c1 c2); [now apply reaches_step |].
      apply (reaches_trans h c2 c3); [exact Hrun3 |].
      apply reaches_step. now rewrite Hstep3', Hstep4.
    + cbn [arglist_asts]. now rewrite Hx4, Ht3', Hx1, Hx3.
    + now apply (at_tokens_same_input h c3').
    + congruence.
Qed.

End GrammarFacts.

Lemma grammar_toks_ok :
  (forall a : operand,
     operand_ok a = true -> forallb tok_ok (operand_toks a) = true) /\
  (forall x : phrase,
     phrase_ok x = true -> forallb tok_ok (phrase_toks x) = true) /\
  (forall l : arglist,
     arglist_ok l = true -> forallb tok_ok (arglist_toks l) = true).
Proof.
  apply grammar_mutind;
    cbn [operand_ok phrase_ok arglist_ok operand_toks phrase_toks arglist_toks].
  - intros ds Hds. cbn [forallb tok_ok]. now rewrite Hds.
  - intros w Hw. cbn [forallb tok_ok]. now rewrite Hw.
  - intros x IH Hx. cbn [forallb]. rewrite forallb_app, (IH Hx). reflexivity.
  - intros f args IH Hok. apply andb_prop in Hok as [Hf Hargs].
    cbn [forallb tok_ok]. rewrite Hf, forallb_app, (IH Hargs). reflexivity.
  - intros a IH n Hok. apply andb_prop in Hok as [Ha Hn].
    rewrite forallb_app, (IH Ha). cbn [forallb tok_ok]. now rewrite Hn.
  - intros a IHa n args IHargs Hok. apply andb_prop in Hok as [Hok Hargs].
    apply andb_prop in Hok as [Ha Hn].
    rewrite forallb_app, (IHa Ha). cbn [forallb tok_ok].
    rewrite Hn, forallb_app, (IHargs Hargs). reflexivity.
  - intros a IHa i IHi Hok. apply andb_prop in Hok as [Ha Hi].
    rewrite forallb_app, (IHa Ha). cbn [forallb].
    rewrite forallb_app, (IHi Hi). reflexivity.
  - auto.
  - intros a IHa o x IHx Hok. apply andb_prop in Hok as [Ha Hx].
    rewrite forallb_app. cbn [forallb]. rewrite (IHa Ha), (IHx Hx).
    now destruct o.
  - reflexivity.
  - auto.
  - intros l IHl x IHx Hok. apply andb_prop in Hok as [Hl Hx].
    rewrite forallb_app. cbn [forallb]. rewrite (IHl Hl), (IHx Hx).
    reflexivity.
Qed.

Lemma Inv_yyinit (l : Lexer) : Inv (yyinit l).
Proof.
  split; [reflexivity |]. split; [reflexivity |]. left. cbn. lia.
Qed.

Section ProgramsOfTheGrammar.

Variable h : Host.

(** A state whose action on the token that comes next is the error: the
    parse returns 1. *)
Lemma error_turn (c : config) (ts : list tok) :
  Inv c -> at_tokens h c ts ->
  simple (yys (top c)) = false ->
  decide (yys (top c)) (next_tokno ts) = DDefault ->
  idx yyDef (yys (top c)) = Some 0 ->
  exists l, yynewstate h c = Done (Return 1 l).
Proof.
  intros Hinv Hat Hs Hd Hdef.
  destruct (peek h _ _ Hat) as (c1 & Hl & Hk & _).
  destruct (lookahead_stack _ _ _ Hl) as (Ht & Hb & _ & _ & He & _).
  rewrite (yynewstate_peek h c c1 Hs Hl), Hk, Hd.
  unfold yydefault. cbv zeta. rewrite Ht, Hdef.
  change (0 =? -2) with false. cbv beta iota. cbn [andb].
  change (0 =? 0) with true. cbv beta iota.
  destruct Hinv as (Hv & Hflag & _). rewrite He, Hflag.
  change (0 =? 0) with true. cbv beta iota.
  rewrite error_recover_returns.
  - now eexists.
  - cbn [top below]. rewrite Ht, Hb.
    apply valid_stack_all in Hv. unfold states_of in Hv.
    now rewrite Forall_map in Hv.
Qed.

(** State 1 before a token that is not the end of the input: the parse
    returns 1. *)
Lemma reject_at_end (c : config) (t : tok) (ts : list tok) :
  Inv c -> yys (top c) = 1 -> at_tokens h c (t :: ts) -> tokno t <> 1 ->
  exists l, yynewstate h c = Done (Return 1 l).
Proof.
  intros Hinv Hs Hat Hne.
  destruct (peek_tok h _ _ _ Hat) as (c1 & Hl & Hk & _).
  destruct (lookahead_stack _ _ _ Hl) as (Ht & Hb & _ & _ & He & _).
  rewrite (yynewstate_simple h c) by (now rewrite Hs).
  unfold yydefault. cbv zeta. rewrite Hs.
  change (idx yyDef 1) with (Some (-2)). cbv beta iota.
  change (-2 =? -2) with true. cbv beta iota.
  rewrite Hl, Hk.
  change (yyExca_find yyExca 1) with (Some [1; -1; -2; 0]). cbv beta iota.
  cbn [yyExca_scan].
  change (1 <? 0) with false. cbn [orb].
  destruct (Z.eqb_spec 1 (tokno t)) as [Heq | _]; [congruence |].
  change (-2 <? 0) with true. cbn [orb andb].
  change (0 <? 0) with false. cbv beta iota.
  change (0 =? 0) with true. cbv beta iota.
  destruct Hinv as (Hv & Hflag & _). rewrite He, Hflag.
  change (0 =? 0) with true. cbv beta iota.
  rewrite error_recover_returns.
  - now eexists.
  - cbn [top below]. rewrite Ht, Hb.
    apply valid_stack_all in Hv. unfold states_of in Hv.
    now rewrite Forall_map in Hv.
Qed.

(** A production of [program] at the end of the input, then state 1: the
    parse returns 0. *)
Lemma accepted (c c1 c2 : config) (r : Z) :
  yynewstate h c = Done (reduce c1 r) -> at_tokens h c1 [] ->
  reduce c1 r = Continue c2 -> yys (top c2) = 1 -> same_input c1 c2 ->
  exists l, reaches h c c2 /\ yynewstate h c2 = Done (Return 0 l) /\
            e l = e (lex c2).
Proof.
  intros Hstep Hat1 Hred Hs2 Hin.
  destruct (accept h c2 Hs2 (at_tokens_same_input h _ _ _ Hin Hat1))
    as (l & Hacc & He).
  exists l. split; [| auto].
  apply reaches_step. now rewrite Hstep, Hred.
Qed.

(** The parse of a phrase. *)
Lemma yyParse_phrase (x : phrase) (s : string) (a : Expr) :
  lexes h (phrase_toks x) s ->
  exists l,
    yyParse h (turns s) (mkLexer s a) = Some (0, l) /\ e l = phrase_ast x.
Proof.
  intros Hl.
  pose proof (at_tokens_init h s a _ Hl) as Hat.
  rewrite <- (app_nil_r (phrase_toks x)) in Hat.
  destruct (proj1 (proj2 (parse_grammar h)) x (yyinit (mkLexer s a)) 0 3 []
              eq_refl operand_ctx_program Hat)
    as (c1 & Hrun1 & Hs1 & Hx1 & Hb1 & Hat1 & He1); [cbn; auto |].
  destruct (reduce_peek h c1 [] 3 Hat1) as (c1' & Hstep & Ht & Hb & Hat1' & He1');
    rewrite ?Hs1; try reflexivity.
  destruct (reduce_program c1' _ _ (eq_trans Hb Hb1) eq_refl)
    as (c2 & Hred & Hs2 & Hin & He2).
  destruct (accepted c1 c1' c2 3 Hstep Hat1' Hred Hs2 Hin) as (l & Hr & Hacc & He).
  exists l. split; [| congruence].
  apply (yyParse_reaches h s a c2); [| exact Hacc].
  now apply (reaches_trans h _ c1).
Qed.

(** The parse of [for w in x]. *)
Lemma yyParse_for_in (w : string) (x : phrase) (s : string) (a : Expr) :
  lexes h (TFor :: TId w :: TIn :: phrase_toks x) s ->
  exists l,
    yyParse h (turns s) (mkLexer s a) = Some (0, l) /\
    e l = ForExpr w "" (phrase_ast x).
Proof.
  intros Hl.
  pose proof (at_tokens_init h s a _ Hl) as Hat.
  destruct (shift_move h _ _ _ 2 Hat) as (c1 & Hstep1 & Hs1 & _ & Hb1 & Hat1 & _);
    [reflexivity | reflexivity |].
  destruct (shift_move h _ _ _ 7 Hat1) as (c2 & Hstep2 & Hs2 & Hv2 & Hb2 & Hat2 & _);
    [now rewrite Hs1 | now rewrite Hs1 |].
  destruct (shift_move h _ _ _ 16 Hat2) as (c3 & Hstep3 & Hs3 & _ & Hb3 & Hat3 & _);
    [now rewrite Hs2 | now rewrite Hs2 |].
  rewrite <- (app_nil_r (phrase_toks x)) in Hat3.
  destruct (proj1 (proj2 (parse_grammar h)) x _ 16 27 [] Hs3 operand_ctx_for1 Hat3)
    as (c4 & Hrun4 & Hs4 & Hx4 & Hb4 & Hat4 & _); [cbn; auto |].
  destruct (reduce_peek h c4 [] 1 Hat4) as (c4' & Hstep & Ht & Hb & Hat4' & _);
    rewrite ?Hs4; try reflexivity.
  destruct (reduce_for1 c4' (top c3) (top c2) (top c1)
              (top (yyinit (mkLexer s a))) [])
    as (c5 & Hred & Hs5 & Hin & He5);
    [now rewrite Hb, Hb4, Hb3, Hb2, Hb1 | reflexivity |].
  destruct (accepted c4 c4' c5 1 Hstep Hat4' Hred Hs5 Hin) as (l & Hr & Hacc & He).
  exists l. split.
  - apply (yyParse_reaches h s a c5); [| exact Hacc].
    apply (reaches_trans h _ c1); [now apply reaches_step |].
    apply (reaches_trans h _ c2); [now apply reaches_step |].
    apply (reaches_trans h _ c3); [now apply reaches_step |].
    now apply (reaches_trans h _ c4).
  - cbn in Hv2. rewrite He, He5, Ht, Hx4, Hv2. reflexivity.
Qed.

(** The parse of [for w1, w2 in x]. *)
Lemma yyParse_for_pair (w1 w2 : string) (x : phrase) (s : string) (a : Expr) :
  lexes h (TFor :: TId w1 :: TChar "," :: TId w2 :: TIn :: phrase_toks x) s ->
  exists l,
    yyParse h (turns s) (mkLexer s a) = Some (0, l) /\
    e l = ForExpr w1 w2 (phrase_ast x).
Proof.
  intros Hl.
  pose proof (at_tokens_init h s a _ Hl) as Hat.
  destruct (shift_move h _ _ _ 2 Hat) as (c1 & Hstep1 & Hs1 & _ & Hb1 & Hat1 & _);
    [reflexivity | reflexivity |].
  destruct (shift_move h _ _ _ 7 Hat1) as (c2 & Hstep2 & Hs2 & Hv2 & Hb2 & Hat2 & _);
    [now rewrite Hs1 | now rewrite Hs1 |].
  destruct (shift_move h _ _ _ 17 Hat2) as (c3 & Hstep3 & Hs3 & _ & Hb3 & Hat3 & _);
    [now rewrite Hs2 | now rewrite Hs2 |].
  destruct (shift_move h _ _ _ 28 Hat3) as (c4 & Hstep4 & Hs4 & Hv4 & Hb4 & Hat4 & _);
    [now rewrite Hs3 | now rewrite Hs3 |].
  destruct (shift_move h _ _ _ 33 Hat4) as (c5 & Hstep5 & Hs5 & _ & Hb5 & Hat5 & _);
    [now rewrite Hs4 | now rewrite Hs4 |].
  rewrite <- (app_nil_r (phrase_toks x)) in Hat5.
  destruct (proj1 (proj2 (parse_grammar h)) x _ 33 36 [] Hs5 operand_ctx_for2 Hat5)
    as (c6 & Hrun6 & Hs6 & Hx6 & Hb6 & Hat6 & _); [cbn; auto |].
  destruct (reduce_peek h c6 [] 2 Hat6) as (c6' & Hstep & Ht & Hb & Hat6' & _);
    rewrite ?Hs6; try reflexivity.
  destruct (reduce_for2 c6' (top c5) (top c4) (top c3) (top c2) (top c1)
              (top (yyinit (mkLexer s a))) [])
    as (c7 & Hred & Hs7 & Hin & He7);
    [now rewrite Hb, Hb6, Hb5, Hb4, Hb3, Hb2, Hb1 | reflexivity |].
  destruct (accepted c6 c6' c7 2 Hstep Hat6' Hred Hs7 Hin) as (l & Hr & Hacc & He).
  exists l. split.
  - apply (yyParse_reaches h s a c7); [| exact Hacc].
    apply (reaches_trans h _ c1); [now apply reaches_step |].
    apply (reaches_trans h _ c2); [now apply reaches_step |].
    apply (reaches_trans h _ c3); [now apply reaches_step |].
    apply (reaches_trans h _ c4); [now apply reaches_step |].
    apply (reaches_trans h _ c5); [now apply reaches_step |].
    now apply (reaches_trans h _ c6).
  - cbn in Hv2, Hv4. rewrite He, He7, Ht, Hx6, Hv2, Hv4. reflexivity.
Qed.

(** What [Compile] makes of the result of the parse. *)
Lemma Compile_accepts (v : VM) (s : string) (l : Lexer) :
  yyParse h (turns s) (mkLexer s NilExpr) = Some (0, l) ->
  Compile h v s = (Compiled (e l), v).
Proof.
  intros Hp. unfold Compile. now rewrite Hp.
Qed.

Lemma Compile_rejects (v : VM) (s : string) (c : config) (l : Lexer) :
  reaches h (yyinit (mkLexer s NilExpr)) c ->
  yynewstate h c = Done (Return 1 l) ->
  Compile h v s = (SyntaxError s, v).
Proof.
  intros Hr Hret. unfold Compile.
  now rewrite (yyParse_reaches h s NilExpr c 1 l Hr Hret).
Qed.

Lemma Compile_phrase (v : VM) (x : phrase) (s : string) :
  phrase_ok x = true -> spells (phrase_toks x) s ->
  Compile h v s = (Compiled (phrase_ast x), v).
Proof.
  intros Hok Hsp.
  pose proof (proj1 (proj2 grammar_toks_ok) x Hok) as Htoks.
  destruct (yyParse_phrase x s NilExpr (spells_lexes h _ _ Htoks Hsp))
    as (l & Hp & He).
  now rewrite (Compile_accepts v s l Hp), He.
Qed.

End ProgramsOfTheGrammar.

Lemma spells_text_of (ts : list tok) : spells ts (text_of ts).
Proof.
  induction ts as [| t ts IH]; cbn [text_of].
  - now apply (spells_nil "").
  - apply (spells_cons " " t ts (text_of ts)); [reflexivity | | exact IH].
    destruct ts as [| t' ts']; cbn [text_of]; [exact I |].
    change (" " +:+ tok_text t' +:+ text_of ts')
      with (String " "%char (tok_text t' +:+ text_of ts')).
    destruct t; cbn; auto; try (split; [reflexivity | discriminate]).
Qed.

Lemma starts_nothing_error (t : tok) :
  starts_nothing t -> decide 0 (tokno t) = DDefault.
Proof.
  destruct t as [ds | w | | | c]; cbn [starts_nothing]; try contradiction.
  - reflexivity.
  - intros Hc.
    destruct c as [[|] [|] [|] [|] [|] [|] [|] [|]];
      try reflexivity; now contradiction Hc.
Qed.

Section SyntaxErrors.

Variable h : Host.
Variable v : VM.

Lemma Compile_blank (s : string) :
  all_space s -> Compile h v s = (SyntaxError s, v).
Proof.
  intros Hs.
  assert (Hat : at_tokens h (yyinit (mkLexer s NilExpr)) []).
  { apply at_tokens_init. cbn. now apply skip_space_all. }
  destruct (error_turn h _ [] (Inv_yyinit _) Hat) as [l Hret];
    try reflexivity.
  apply (Compile_rejects h v s _ l (reaches_refl h _) Hret).
Qed.

Lemma Compile_bad_start (t : tok) (rest : list tok) (s : string) :
  forallb tok_ok (t :: rest) = true -> starts_nothing t ->
  spells (t :: rest) s ->
  Compile h v s = (SyntaxError s, v).
Proof.
  intros Hok Ht Hsp.
  pose proof (at_tokens_init h s NilExpr _ (spells_lexes h _ _ Hok Hsp)) as Hat.
  destruct (error_turn h _ _ (Inv_yyinit _) Hat) as [l Hret];
    try reflexivity.
  { now apply starts_nothing_error. }
  apply (Compile_rejects h v s _ l (reaches_refl h _) Hret).
Qed.

(** A phrase, an operator, and the end of the text. *)
Lemma dangling_operator (o : opsym) (x : phrase) :
  forall (c : config) (s g : Z),
    Inv c -> yys (top c) = s -> operand_ctx s g ->
    at_tokens h c (phrase_toks x ++ [TChar (op_char o)]) ->
    exists c' l, reaches h c c' /\ yynewstate h c' = Done (Return 1 l).
Proof.
  induction x as [a | a o1 x IH]; intros c s g Hinv Hs Hctx Hat.
  - cbn [phrase_toks] in Hat.
    destruct (proj1 (parse_grammar h) a c s g _ Hs Hctx Hat)
      as (c1 & Hrun1 & Hs1 & _ & _ & Hat1 & _).
    { destruct o; cbn; auto 20. }
    destruct Hctx as [(_ & Hsimpleg & _ & _ & _ & _ & Hops) _].
    destruct (shift_move h c1 _ _ (op_state o) Hat1)
      as (c2 & Hstep2 & Hs2 & _ & _ & Hat2 & _);
      [now rewrite Hs1 | rewrite Hs1; apply Hops |].
    assert (Hreach : reaches h c c2)
      by (apply (reaches_trans h _ c1); [exact Hrun1 | now apply reaches_step]).
    destruct (error_turn h c2 [] (reaches_Inv h _ _ Hinv Hreach) Hat2)
      as [l Hret]; rewrite ?Hs2; try (now destruct o).
    now exists c2, l.
  - cbn [phrase_toks] in Hat. rewrite <- app_assoc in Hat. cbn [app] in Hat.
    destruct (proj1 (parse_grammar h) a c s g _ Hs Hctx Hat)
      as (c1 & Hrun1 & Hs1 & _ & _ & Hat1 & _).
    { destruct o1; cbn; auto 20. }
    destruct Hctx as [(_ & Hsimpleg & _ & _ & _ & _ & Hops) _].
    destruct (shift_move h c1 _ _ (op_state o1) Hat1)
      as (c2 & Hstep2 & Hs2 & _ & _ & Hat2 & _);
      [now rewrite Hs1 | rewrite Hs1; apply Hops |].
    assert (Hreach : reaches h c c2)
      by (apply (reaches_trans h _ c1); [exact Hrun1 | now apply reaches_step]).
    destruct (IH c2 _ _ (reaches_Inv h _ _ Hinv Hreach) Hs2
                (operand_ctx_op o1) Hat2) as (c3 & l & Hr3 & Hret).
    exists c3, l. split; [| exact Hret].
    now apply (reaches_trans h _ c2).
Qed.

Lemma Compile_dangling (x : phrase) (o : opsym) (s : string) :
  phrase_ok x = true ->
  spells (phrase_toks x ++ [TChar (op_char o)]) s ->
  Compile h v s = (SyntaxError s, v).
Proof.
  intros Hx Hsp.
  assert (Htoks : forallb tok_ok (phrase_toks x ++ [TChar (op_char o)]) = true).
  { rewrite forallb_app, (proj1 (proj2 grammar_toks_ok) x Hx). now destruct o. }
  pose proof (at_tokens_init h s NilExpr _ (spells_lexes h _ _ Htoks Hsp)) as Hat.
  destruct (dangling_operator o x (yyinit (mkLexer s NilExpr)) 0 3
              (Inv_yyinit _) eq_refl
              operand_ctx_program Hat) as (c' & l & Hr & Hret).
  apply (Compile_rejects h v s c' l Hr Hret).
Qed.

(** A parenthesis that is not closed. *)
Lemma Compile_unclosed_paren (x : phrase) (s : string) :
  phrase_ok x = true ->
  spells (TChar "(" :: phrase_toks x) s ->
  Compile h v s = (SyntaxError s, v).
Proof.
  intros Hx Hsp.
  assert (Htoks : forallb tok_ok (TChar "(" :: phrase_toks x) = true)
    by (cbn [forallb]; now rewrite (proj1 (proj2 grammar_toks_ok) x Hx)).
  pose proof (at_tokens_init h s NilExpr _ (spells_lexes h _ _ Htoks Hsp)) as Hat.
  destruct (shift_move h _ _ _ 5 Hat) as (c1 & Hstep1 & Hs1 & _ & _ & Hat1 & _);
    [reflexivity | reflexivity |].
  rewrite <- (app_nil_r (phrase_toks x)) in Hat1.
  destruct (proj1 (proj2 (parse_grammar h)) x c1 5 14 [] Hs1
              operand_ctx_paren Hat1)
    as (c2 & Hrun2 & Hs2 & _ & _ & Hat2 & _); [cbn; auto |].
  assert (Hreach : reaches h (yyinit (mkLexer s NilExpr)) c2)
    by (apply (reaches_trans h _ c1); [now apply reaches_step | exact Hrun2]).
  destruct (error_turn h c2 [] (reaches_Inv h _ _ (Inv_yyinit _) Hreach) Hat2)
    as [l Hret]; rewrite ?Hs2; try reflexivity.
  apply (Compile_rejects h v s c2 l Hreach Hret).
Qed.

(** A comma after the last argument of a call. *)
Lemma Compile_trailing_comma (f : string) (args : arglist) (s : string) :
  ident_ok f = true -> arglist_ok args = true ->
  spells (TId f :: TChar "(" :: arglist_toks args ++ [TChar ","; TChar ")"]) s ->
  Compile h v s = (SyntaxError s, v).
Proof.
  intros Hf Hargs Hsp.
  assert (Htoks : forallb tok_ok
            (TId f :: TChar "(" :: arglist_toks args ++ [TChar ","; TChar ")"])
            = true).
  { cbn [forallb tok_ok]. rewrite Hf, forallb_app.
    now rewrite (proj2 (proj2 grammar_toks_ok) args Hargs). }
  pose proof (at_tokens_init h s NilExpr _ (spells_lexes h _ _ Htoks Hsp)) as Hat.
  destruct (shift_move h _ _ _ 6 Hat) as (c1 & Hstep1 & Hs1 & _ & _ & Hat1 & _);
    [reflexivity | reflexivity |].
  destruct (shift_move h _ _ _ 15 Hat1) as (c2 & Hstep2 & Hs2 & _ & _ & Hat2 & _);
    [now rewrite Hs1 | now rewrite Hs1 |].
  destruct (proj2 (proj2 (parse_grammar h)) args c2 15 25 32 _ Hs2
              (or_introl (conj eq_refl (conj eq_refl eq_refl))) Hat2)
    as (c3 & Hrun3 & Hs3 & _ & _ & Hat3 & _); [cbn; auto |].
  destruct (shift_move h c3 _ _ 31 Hat3) as (c4 & Hstep4 & Hs4 & _ & _ & Hat4 & _);
    [now rewrite Hs3 | now rewrite Hs3 |].
  assert (Hreach : reaches h (yyinit (mkLexer s NilExpr)) c4).
  { apply (reaches_trans h _ c1); [now apply reaches_step |].
    apply (reaches_trans h _ c2); [now apply reaches_step |].
    apply (reaches_trans h _ c3); [exact Hrun3 | now apply reaches_step]. }
  destruct (error_turn h c4 _ (reaches_Inv h _ _ (Inv_yyinit _) Hreach) Hat4)
    as [l Hret]; rewrite ?Hs4; try reflexivity.
  apply (Compile_rejects h v s c4 l Hreach Hret).
Qed.

(** The arguments of a call whose parenthesis is not closed. *)
Lemma Compile_unclosed_call (f : string) (args : arglist) (s : string) :
  ident_ok f = true -> arglist_ok args = true ->
  spells (TId f :: TChar "(" :: arglist_toks args) s ->
  Compile h v s = (SyntaxError s, v).
Proof.
  intros Hf Hargs Hsp.
  assert (Htoks : forallb tok_ok (TId f :: TChar "(" :: arglist_toks args) = true).
  { cbn [forallb tok_ok]. rewrite Hf.
    now rewrite (proj2 (proj2 grammar_toks_ok) args Hargs). }
  pose proof (at_tokens_init h s NilExpr _ (spells_lexes h _ _ Htoks Hsp)) as Hat.
  destruct (shift_move h _ _ _ 6 Hat) as (c1 & Hstep1 & Hs1 & _ & _ & Hat1 & _);
    [reflexivity | reflexivity |].
  destruct (shift_move h _ _ _ 15 Hat1) as (c2 & Hstep2 & Hs2 & _ & _ & Hat2 & _);
    [now rewrite Hs1 | now rewrite Hs1 |].
  rewrite <- (app_nil_r (arglist_toks args)) in Hat2.
  destruct (proj2 (proj2 (parse_grammar h)) args c2 15 25 32 _ Hs2
              (or_introl (conj eq_refl (conj eq_refl eq_refl))) Hat2)
    as (c3 & Hrun3 & Hs3 & _ & _ & Hat3 & _); [cbn; auto |].
  assert (Hreach : reaches h (yyinit (mkLexer s NilExpr)) c3).
  { apply (reaches_trans h _ c1); [now apply reaches_step |].
    apply (reaches_trans h _ c2); [now apply reaches_step | exact Hrun3]. }
  destruct (error_turn h c3 _ (reaches_Inv h _ _ (Inv_yyinit _) Hreach) Hat3)
    as [l Hret]; rewrite ?Hs3; try reflexivity.
  apply (Compile_rejects h v s c3 l Hreach Hret).
Qed.

(** An operand at the start of the text, before the tokens [rest]. *)
Lemma first_operand (a : operand) (rest : list tok) (s : string) :
  operand_ok a = true -> forallb tok_ok rest = true ->
  In (next_tokno rest) after_operand ->
  spells (operand_toks a ++ rest) s ->
  exists c,
    reaches h (yyinit (mkLexer s NilExpr)) c /\ Inv c /\ yys (top c) = 3 /\
    at_tokens h c rest.
Proof.
  intros Ha Hrest Hnext Hsp.
  assert (Htoks : forallb tok_ok (operand_toks a ++ rest) = true)
    by (rewrite forallb_app, (proj1 grammar_toks_ok a Ha); exact Hrest).
  pose proof (at_tokens_init h s NilExpr _ (spells_lexes h _ _ Htoks Hsp)) as Hat.
  destruct (proj1 (parse_grammar h) a (yyinit (mkLexer s NilExpr)) 0 3 rest
              eq_refl operand_ctx_program Hat Hnext)
    as (c1 & Hrun1 & Hs1 & _ & _ & Hat1 & _).
  exists c1. split; [exact Hrun1 |].
  split; [exact (reaches_Inv h _ _ (Inv_yyinit _) Hrun1) | auto].
Qed.

(** The index of an item access whose bracket is not closed. *)
Lemma Compile_unclosed_bracket (a : operand) (x : phrase) (s : string) :
  operand_ok a = true -> phrase_ok x = true ->
  spells (operand_toks a ++ TChar "[" :: phrase_toks x) s ->
  Compile h v s = (SyntaxError s, v).
Proof.
  intros Ha Hx Hsp.
  destruct (first_operand a (TChar "[" :: phrase_toks x) s Ha)
    as (c1 & Hrun1 & Hinv1 & Hs1 & Hat1).
  { cbn [forallb]. now rewrite (proj1 (proj2 grammar_toks_ok) x Hx). }
  { cbn. auto 20. }
  { exact Hsp. }
  destruct (shift_move h c1 _ _ 13 Hat1) as (c2 & Hstep2 & Hs2 & _ & _ & Hat2 & _);
    [now rewrite Hs1 | now rewrite Hs1 |].
  rewrite <- (app_nil_r (phrase_toks x)) in Hat2.
  destruct (proj1 (proj2 (parse_grammar h)) x c2 13 23 [] Hs2
              operand_ctx_item Hat2)
    as (c3 & Hrun3 & Hs3 & _ & _ & Hat3 & _); [cbn; auto |].
  assert (Hreach : reaches h (yyinit (mkLexer s NilExpr)) c3).
  { apply (reaches_trans h _ c1); [exact Hrun1 |].
    apply (reaches_trans h _ c2); [now apply reaches_step | exact Hrun3]. }
  destruct (error_turn h c3 _ (reaches_Inv h _ _ (Inv_yyinit _) Hreach) Hat3)
    as [l Hret]; rewrite ?Hs3; try reflexivity.
  apply (Compile_rejects h v s c3 l Hreach Hret).
Qed.

(** A point that no name follows. *)
Lemma Compile_point_without_name (a : operand) (s : string) :
  operand_ok a = true ->
  spells (operand_toks a ++ [TChar "."]) s ->
  Compile h v s = (SyntaxError s, v).
Proof.
  intros Ha Hsp.
  destruct (first_operand a [TChar "."] s Ha)
    as (c1 & Hrun1 & Hinv1 & Hs1 & Hat1);
    [reflexivity | cbn; auto 20 | exact Hsp |].
  destruct (shift_move h c1 _ _ 12 Hat1) as (c2 & Hstep2 & Hs2 & _ & _ & Hat2 & _);
    [now rewrite Hs1 | now rewrite Hs1 |].
  assert (Hreach : reaches h (yyinit (mkLexer s NilExpr)) c2)
    by (apply (reaches_trans h _ c1); [exact Hrun1 | now apply reaches_step]).
  destruct (error_turn h c2 _ (reaches_Inv h _ _ (Inv_yyinit _) Hreach) Hat2)
    as [l Hret]; rewrite ?Hs2; try reflexivity.
  apply (Compile_rejects h v s c2 l Hreach Hret).
Qed.

(** The token that comes next has one of the numbers of the grammar. *)
Lemma next_tokno_range (ts : list tok) : In (next_tokno ts) yyTokens.
Proof.
  destruct ts as [| t ts]; cbn [next_tokno].
  - vm_compute. auto.
  - apply (yyTokOf_range (tok_char t)), tok_known.
Qed.

(** A state where every token but those of [ks] is an error. *)
Lemma error_but (c : config) (ts : list tok) (ks : list Z) :
  Inv c -> at_tokens h c ts ->
  simple (yys (top c)) = false ->
  idx yyDef (yys (top c)) = Some 0 ->
  forallb (fun k => in_list k ks
                    || match decide (yys (top c)) k with
                       | DDefault => true
                       | _ => false
                       end) yyTokens = true ->
  ~ In (next_tokno ts) ks ->
  exists l, yynewstate h c = Done (Return 1 l).
Proof.
  intros Hinv Hat Hs Hdef Hall Hk.
  apply (error_turn h c ts Hinv Hat Hs); [| exact Hdef].
  rewrite forallb_forall in Hall.
  specialize (Hall _ (next_tokno_range ts)).
  apply orb_prop in Hall as [Hin | Hd].
  - apply in_list_In in Hin. contradiction.
  - now destruct (decide (yys (top c)) (next_tokno ts)).
Qed.

(** A [for] statement that lacks one of its parts. *)
Lemma Compile_for_without_name (rest : list tok) (s : string) :
  forallb tok_ok rest = true -> ~ In (next_tokno rest) [4] ->
  spells (TFor :: rest) s ->
  Compile h v s = (SyntaxError s, v).
Proof.
  intros Hrest Hk Hsp.
  pose proof (at_tokens_init h s NilExpr _
                (spells_lexes h (TFor :: rest) _ Hrest Hsp)) as Hat.
  destruct (shift_move h _ _ _ 2 Hat) as (c1 & Hstep1 & Hs1 & _ & _ & Hat1 & _);
    [reflexivity | reflexivity |].
  assert (Hreach : reaches h (yyinit (mkLexer s NilExpr)) c1)
    by (now apply reaches_step).
  destruct (error_but c1 rest [4] (reaches_Inv h _ _ (Inv_yyinit _) Hreach) Hat1)
    as [l Hret]; rewrite ?Hs1; try reflexivity; [exact Hk |].
  apply (Compile_rejects h v s c1 l Hreach Hret).
Qed.

Lemma Compile_for_without_in (w : string) (rest : list tok) (s : string) :
  ident_ok w = true -> forallb tok_ok rest = true ->
  ~ In (next_tokno rest) [7; 8] ->
  spells (TFor :: TId w :: rest) s ->
  Compile h v s = (SyntaxError s, v).
Proof.
  intros Hw Hrest Hk Hsp.
  assert (Htoks : forallb tok_ok (TFor :: TId w :: rest) = true)
    by (cbn [forallb tok_ok]; now rewrite Hw).
  pose proof (at_tokens_init h s NilExpr _ (spells_lexes h _ _ Htoks Hsp)) as Hat.
  destruct (shift_move h _ _ _ 2 Hat) as (c1 & Hstep1 & Hs1 & _ & _ & Hat1 & _);
    [reflexivity | reflexivity |].
  destruct (shift_move h _ _ _ 7 Hat1) as (c2 & Hstep2 & Hs2 & _ & _ & Hat2 & _);
    [now rewrite Hs1 | now rewrite Hs1 |].
  assert (Hreach : reaches h (yyinit (mkLexer s NilExpr)) c2).
  { apply (reaches_trans h _ c1); now apply reaches_step. }
  destruct (error_but c2 rest [7; 8] (reaches_Inv h _ _ (Inv_yyinit _) Hreach) Hat2)
    as [l Hret]; rewrite ?Hs2; try reflexivity; [exact Hk |].
  apply (Compile_rejects h v s c2 l Hreach Hret).
Qed.

Lemma Compile_for_without_expression (w : string) (rest : list tok)
    (s : string) :
  ident_ok w = true -> forallb tok_ok rest = true ->
  ~ In (next_tokno rest) [4; 5; 9] ->
  spells (TFor :: TId w :: TIn :: rest) s ->
  Compile h v s = (SyntaxError s, v).
Proof.
  intros Hw Hrest Hk Hsp.
  assert (Htoks : forallb tok_ok (TFor :: TId w :: TIn :: rest) = true)
    by (cbn [forallb tok_ok]; now rewrite Hw).
  pose proof (at_tokens_init h s NilExpr _ (spells_lexes h _ _ Htoks Hsp)) as Hat.
  destruct (shift_move h _ _ _ 2 Hat) as (c1 & Hstep1 & Hs1 & _ & _ & Hat1 & _);
    [reflexivity | reflexivity |].
  destruct (shift_move h _ _ _ 7 Hat1) as (c2 & Hstep2 & Hs2 & _ & _ & Hat2 & _);
    [now rewrite Hs1 | now rewrite Hs1 |].
  destruct (shift_move h _ _ _ 16 Hat2) as (c3 & Hstep3 & Hs3 & _ & _ & Hat3 & _);
    [now rewrite Hs2 | now rewrite Hs2 |].
  assert (Hreach : reaches h (yyinit (mkLexer s NilExpr)) c3).
  { apply (reaches_trans h _ c1); [now apply reaches_step |].
    apply (reaches_trans h _ c2); now apply reaches_step. }
  destruct (error_but c3 rest [4; 5; 9]
              (reaches_Inv h _ _ (Inv_yyinit _) Hreach) Hat3)
    as [l Hret]; rewrite ?Hs3; try reflexivity; [exact Hk |].
  apply (Compile_rejects h v s c3 l Hreach Hret).
Qed.

End SyntaxErrors.

(** ** Further properties of the compiler *)

Section CompilerFacts.

Variable h : Host.
Variable v : VM.

Lemma Compile_for_in (w : string) (x : phrase) (s : string) :
  ident_ok w = true -> phrase_ok x = true ->
  spells (TFor :: TId w :: TIn :: phrase_toks x) s ->
  Compile h v s = (Compiled (ForExpr w "" (phrase_ast x)), v).
Proof.
  intros Hw Hok Hsp.
  assert (Htoks : forallb tok_ok (TFor :: TId w :: TIn :: phrase_toks x) = true)
    by (cbn; now rewrite Hw, (proj1 (proj2 grammar_toks_ok) x Hok)).
  destruct (yyParse_for_in h w x s NilExpr (spells_lexes h _ _ Htoks Hsp))
    as (l & Hp & He).
  now rewrite (Compile_accepts h v s l Hp), He.
Qed.

Lemma Compile_for_pair (w1 w2 : string) (x : phrase) (s : string) :
  ident_ok w1 = true -> ident_ok w2 = true -> phrase_ok x = true ->
  spells (TFor :: TId w1 :: TChar "," :: TId w2 :: TIn :: phrase_toks x) s ->
  Compile h v s = (Compiled (ForExpr w1 w2 (phrase_ast x)), v).
Proof.
  intros Hw1 Hw2 Hok Hsp.
  assert (Htoks : forallb tok_ok
            (TFor :: TId w1 :: TChar "," :: TId w2 :: TIn :: phrase_toks x)
            = true)
    by (cbn; now rewrite Hw1, Hw2, (proj1 (proj2 grammar_toks_ok) x Hok)).
  destruct (yyParse_for_pair h w1 w2 x s NilExpr (spells_lexes h _ _ Htoks Hsp))
    as (l & Hp & He).
  now rewrite (Compile_accepts h v s l Hp), He.
Qed.

(** X14.  [Compile] builds the tree of every expression of the grammar:
    literals, names, parentheses, calls, member and item accesses, method
    calls and the four operators, whatever the white space between the
    tokens.  The accesses and method calls apply to the operand before them,
    and an operator takes all that follows as its right operand. *)
Theorem X14_Compile_whole_grammar (x : phrase) (s : string) :
  phrase_ok x = true -> spells (phrase_toks x) s ->
  Compile h v s = (Compiled (phrase_ast x), v).
Proof.
  apply Compile_phrase.
Qed.

(** X15.  Both forms of the [for] statement compile over every expression
    of the grammar, to a [ForExpr] with the names and the tree of the
    expression. *)
Theorem X15_for_over_any_expression
    (w1 w2 : string) (x : phrase) (s1 s2 : string) :
  ident_ok w1 = true -> ident_ok w2 = true -> phrase_ok x = true ->
  (spells (TFor :: TId w1 :: TIn :: phrase_toks x) s1 ->
   Compile h v s1 = (Compiled (ForExpr w1 "" (phrase_ast x)), v)) /\
  (spells (TFor :: TId w1 :: TChar "," :: TId w2 :: TIn :: phrase_toks x) s2 ->
   Compile h v s2 = (Compiled (ForExpr w1 w2 (phrase_ast x)), v)).
Proof.
  intros Hw1 Hw2 Hx. split; intros Hsp.
  - now apply Compile_for_in.
  - now apply Compile_for_pair.
Qed.

(** X16.  In the arguments of a call a comma before the first argument is
    accepted and adds no argument; a comma after the last argument is a
    syntax error. *)
Theorem X16_commas_in_arguments
    (f : string) (args : arglist) (x : phrase) (s1 s2 : string) :
  ident_ok f = true -> arglist_ok args = true -> phrase_ok x = true ->
  (spells (TId f :: TChar "(" :: TChar "," :: phrase_toks x ++ [TChar ")"]) s1 ->
   Compile h v s1 = (Compiled (CallExpr f [phrase_ast x]), v)) /\
  (spells (TId f :: TChar "(" :: arglist_toks args ++ [TChar ","; TChar ")"]) s2 ->
   Compile h v s2 = (SyntaxError s2, v)).
Proof.
  intros Hf Hargs Hx. split; intros Hsp.
  - apply (Compile_phrase h v (PLast (OCall f (AMore ANone x)))).
    + cbn. now rewrite Hf, Hx.
    + exact Hsp.
  - now apply (Compile_trailing_comma h v f args).
Qed.

(** X17.  A text that is empty or all white space is a syntax error, and
    so is every text whose first token is not a literal, a name, [for] or a
    parenthesis that opens: an operator, and so a sign before a number,
    among them. *)
Theorem X17_no_program_starts_so (s : string) :
  (all_space s -> Compile h v s = (SyntaxError s, v)) /\
  (forall t rest,
     forallb tok_ok (t :: rest) = true -> starts_nothing t ->
     spells (t :: rest) s ->
     Compile h v s = (SyntaxError s, v)).
Proof.
  split.
  - apply Compile_blank.
  - intros t rest. apply Compile_bad_start.
Qed.

(** X18.  A whole expression followed by a token that is neither an
    operator, nor a point, nor a parenthesis or a bracket that opens, is a
    syntax error, whatever comes after that token. *)
Theorem X18_nothing_follows_an_expression
    (x : phrase) (t : tok) (rest : list tok) (s : string) :
  phrase_ok x = true -> forallb tok_ok (t :: rest) = true ->
  stops_program t ->
  spells (phrase_toks x ++ t :: rest) s ->
  Compile h v s = (SyntaxError s, v).
Proof.
  intros Hx Hok Ht Hsp.
  assert (Htoks : forallb tok_ok (phrase_toks x ++ t :: rest) = true)
    by (rewrite forallb_app, (proj1 (proj2 grammar_toks_ok) x Hx); exact Hok).
  pose proof (at_tokens_init h s NilExpr _ (spells_lexes h _ _ Htoks Hsp)) as Hat.
  assert (Hafter : In (tokno t) after_phrase).
  { unfold stops_program in Ht. cbn in Ht |- *. intuition. }
  destruct (proj1 (proj2 (parse_grammar h)) x (yyinit (mkLexer s NilExpr)) 0 3
              (t :: rest)
              eq_refl operand_ctx_program Hat Hafter)
    as (c1 & Hrun1 & Hs1 & Hx1 & Hb1 & Hat1 & He1).
  destruct (reduce_peek h c1 (t :: rest) 3 Hat1)
    as (c1' & Hstep & Ht1 & Hb & Hat1' & He1').
  { now rewrite Hs1. }
  { rewrite Hs1. cbn [next_tokno]. unfold stops_program in Ht. each_token Ht. }
  { now rewrite Hs1. }
  { lia. }
  destruct (reduce_program c1' _ _ (eq_trans Hb Hb1) eq_refl)
    as (c2 & Hred & Hs2 & Hin & He2).
  assert (Hreach : reaches h (yyinit (mkLexer s NilExpr)) c2).
  { apply (reaches_trans h _ c1); [exact Hrun1 |].
    apply reaches_step. now rewrite Hstep, Hred. }
  destruct (reject_at_end h c2 t rest) as [l Hret].
  { exact (reaches_Inv h _ _ (Inv_yyinit _) Hreach). }
  { exact Hs2. }
  { now apply (at_tokens_same_input h c1'). }
  { unfold stops_program in Ht. cbn in Ht. intros Heq. rewrite Heq in Ht.
    intuition discriminate. }
  apply (Compile_rejects h v s c2 l Hreach Hret).
Qed.

(** X19.  Texts that stop too early are syntax errors: an expression that
    ends with an operator; an expression after a parenthesis that is not
    closed; the arguments of a call without the parenthesis that closes
    them; the index of an item access without the bracket that closes it;
    a point that no name follows. *)
Theorem X19_unfinished_expressions
    (x : phrase) (o : opsym) (f : string) (args : arglist) (a : operand)
    (s1 s2 s3 s4 s5 : string) :
  phrase_ok x = true -> ident_ok f = true -> arglist_ok args = true ->
  operand_ok a = true ->
  (spells (phrase_toks x ++ [TChar (op_char o)]) s1 ->
   Compile h v s1 = (SyntaxError s1, v)) /\
  (spells (TChar "(" :: phrase_toks x) s2 ->
   Compile h v s2 = (SyntaxError s2, v)) /\
  (spells (TId f :: TChar "(" :: arglist_toks args) s3 ->
   Compile h v s3 = (SyntaxError s3, v)) /\
  (spells (operand_toks a ++ TChar "[" :: phrase_toks x) s4 ->
   Compile h v s4 = (SyntaxError s4, v)) /\
  (spells (operand_toks a ++ [TChar "."]) s5 ->
   Compile h v s5 = (SyntaxError s5, v)).
Proof.
  intros Hx Hf Hargs Ha.
  split; [| split; [| split; [| split]]]; intros Hsp.
  - now apply (Compile_dangling h v x o).
  - now apply (Compile_unclosed_paren h v x).
  - now apply (Compile_unclosed_call h v f args).
  - now apply (Compile_unclosed_bracket h v a x).
  - now apply (Compile_point_without_name h v a).
Qed.

(** X20.  A name compiles to the lookup of that name: evaluated in a VM
    where [Set] bound it, the tree gives the value bound, and where the
    name is not bound, the error "invalid token".  A decimal literal within
    int64 compiles to a tree that evaluates to that [int64]. *)
Theorem X20_names_and_literals
    (w ds : string) (x : value) (s1 s2 : string) :
  (ident_ok w = true -> spells [TId w] s1 ->
   exists a,
     Compile h v s1 = (Compiled a, v) /\
     Eval h (Set_ v w x) a = Ret x None /\
     (env v !! w = None -> Eval h v a = UnboundName w)) /\
  (lit_ok ds = true -> spells [TLit ds] s2 ->
   exists a,
     Compile h v s2 = (Compiled a, v) /\
     Eval h v a = Ret (VInt64 (digits_value ds)) None /\
     in_int64 (digits_value ds)).
Proof.
  split.
  - intros Hw Hsp. exists (IdentExpr w).
    split; [exact (Compile_phrase h v (PLast (OId w)) s1 Hw Hsp) |].
    split.
    + cbn [Eval]. unfold Set_. cbn [env]. now rewrite lookup_insert_eq.
    + intros Hn. cbn [Eval]. now rewrite Hn.
  - intros Hds Hsp. exists (LitExpr (VInt64 (digits_value ds))).
    split; [exact (Compile_phrase h v (PLast (OLit ds)) s2 Hds Hsp) |].
    split; [reflexivity | now apply lit_value_range].
Qed.

(** X21.  A [for] statement compiles, and the tree evaluates to nil with
    no error in every VM: the expression after [in] is not evaluated. *)
Theorem X21_for_statement_evaluates_to_nil
    (v' : VM) (w : string) (x : phrase) (s : string) :
  ident_ok w = true -> phrase_ok x = true ->
  spells (TFor :: TId w :: TIn :: phrase_toks x) s ->
  exists a, Compile h v s = (Compiled a, v) /\ Eval h v' a = Ret VNil None.
Proof.
  intros Hw Hx Hsp. exists (ForExpr w "" (phrase_ast x)).
  split; [now apply Compile_for_in | reflexivity].
Qed.

(** X23.  A [for] statement that lacks a part is a syntax error: [for]
    followed by anything but a name (token 4); [for] and a name followed by
    anything but [in] or a comma (tokens 7 and 8); [for], a name and [in]
    followed by anything but the start of an expression, which is a name, a
    literal or a parenthesis that opens (tokens 4, 5 and 9).  The end of the
    text is one of the cases. *)
Theorem X23_for_needs_its_parts (w : string) (rest : list tok) (s : string) :
  ident_ok w = true -> forallb tok_ok rest = true ->
  (~ In (next_tokno rest) [4] -> spells (TFor :: rest) s ->
   Compile h v s = (SyntaxError s, v)) /\
  (~ In (next_tokno rest) [7; 8] -> spells (TFor :: TId w :: rest) s ->
   Compile h v s = (SyntaxError s, v)) /\
  (~ In (next_tokno rest) [4; 5; 9] ->
   spells (TFor :: TId w :: TIn :: rest) s ->
   Compile h v s = (SyntaxError s, v)).
Proof.
  intros Hw Hrest. split; [| split]; intros Hk Hsp.
  - now apply (Compile_for_without_name h v rest).
  - now apply (Compile_for_without_in h v w rest).
  - now apply (Compile_for_without_expression h v w rest).
Qed.

End CompilerFacts.

Lemma X14_witness :
  Compile sample_host New " f ( a , 1 ) [ i + 2 ] . g ( ) * ( x - y ) . n"
  = (Compiled
       (BinOpExpr "*"
          (MethodCallExpr
             (ItemExpr (CallExpr "f" [IdentExpr "a"; LitExpr (VInt64 1)])
                (BinOpExpr "+" (IdentExpr "i") (LitExpr (VInt64 2))))
             "g" [])
          (MemberExpr (BinOpExpr "-" (IdentExpr "x") (IdentExpr "y")) "n")),
     New).
Proof.
  exact (X14_Compile_whole_grammar sample_host New
           (PCons
              (OMethod
                 (OItem
                    (OCall "f" (AMore (AFirst (PLast (OId "a")))
                                  (PLast (OLit "1"))))
                    (PCons (OId "i") OpAdd (PLast (OLit "2"))))
                 "g" ANone)
              OpMul
              (PLast
                 (OMember
                    (OParen (PCons (OId "x") OpSub (PLast (OId "y"))))
                    "n")))
           " f ( a , 1 ) [ i + 2 ] . g ( ) * ( x - y ) . n"
           eq_refl (spells_text_of _)).
Defined.

Lemma X15_witness :
  Compile sample_host New " for k in m . keys ( )"
  = (Compiled (ForExpr "k" "" (MethodCallExpr (IdentExpr "m") "keys" [])), New) /\
  Compile sample_host New " for i , x in xs [ 0 ]"
  = (Compiled (ForExpr "i" "x" (ItemExpr (IdentExpr "xs") (LitExpr (VInt64 0)))),
     New).
Proof.
  split.
  - exact (proj1 (X15_for_over_any_expression sample_host New "k" "k"
                    (PLast (OMethod (OId "m") "keys" ANone))
                    " for k in m . keys ( )" "" eq_refl eq_refl eq_refl)
             (spells_text_of _)).
  - exact (proj2 (X15_for_over_any_expression sample_host New "i" "x"
                    (PLast (OItem (OId "xs") (PLast (OLit "0"))))
                    "" " for i , x in xs [ 0 ]" eq_refl eq_refl eq_refl)
             (spells_text_of _)).
Defined.

Lemma X16_witness :
  Compile sample_host New " f ( , a )"
  = (Compiled (CallExpr "f" [IdentExpr "a"]), New) /\
  Compile sample_host New " f ( a , )" = (SyntaxError " f ( a , )", New).
Proof.
  split.
  - exact (proj1 (X16_commas_in_arguments sample_host New "f"
                    ANone (PLast (OId "a")) " f ( , a )" ""
                    eq_refl eq_refl eq_refl)
             (spells_text_of
                [TId "f"; TChar "("; TChar ","; TId "a"; TChar ")"])).
  - exact (proj2 (X16_commas_in_arguments sample_host New "f"
                    (AFirst (PLast (OId "a"))) (PLast (OId "a"))
                    "" " f ( a , )" eq_refl eq_refl eq_refl)
             (spells_text_of
                [TId "f"; TChar "("; TId "a"; TChar ","; TChar ")"])).
Defined.

Lemma X17_witness :
  Compile sample_host New "  " = (SyntaxError "  ", New) /\
  Compile sample_host New " - 5" = (SyntaxError " - 5", New).
Proof.
  split.
  - exact (proj1 (X17_no_program_starts_so sample_host New "  ") eq_refl).
  - refine (proj2 (X17_no_program_starts_so sample_host New " - 5")
              (TChar "-") [TLit "5"] eq_refl _
              (spells_text_of [TChar "-"; TLit "5"])).
    cbn. discriminate.
Defined.

Lemma X18_witness :
  Compile sample_host New " a b" = (SyntaxError " a b", New) /\
  Compile sample_host New " ( a ) )" = (SyntaxError " ( a ) )", New).
Proof.
  split.
  - refine (X18_nothing_follows_an_expression sample_host New
              (PLast (OId "a")) (TId "b") [] " a b" eq_refl eq_refl _
              (spells_text_of [TId "a"; TId "b"])).
    vm_compute. auto.
  - refine (X18_nothing_follows_an_expression sample_host New
              (PLast (OParen (PLast (OId "a")))) (TChar ")") [] " ( a ) )"
              eq_refl eq_refl _
              (spells_text_of [TChar "("; TId "a"; TChar ")"; TChar ")"])).
    vm_compute. auto 10.
Defined.

Lemma X19_witness :
  Compile sample_host New " 1 + 2 *" = (SyntaxError " 1 + 2 *", New) /\
  Compile sample_host New " ( 1 + 2" = (SyntaxError " ( 1 + 2", New) /\
  Compile sample_host New " f ( 1 + 2" = (SyntaxError " f ( 1 + 2", New) /\
  Compile sample_host New " a [ 1 + 2" = (SyntaxError " a [ 1 + 2", New) /\
  Compile sample_host New " a ." = (SyntaxError " a .", New).
Proof.
  pose proof (X19_unfinished_expressions sample_host New
                (PCons (OLit "1") OpAdd (PLast (OLit "2"))) OpMul
                "f" (AFirst (PCons (OLit "1") OpAdd (PLast (OLit "2"))))
                (OId "a")
                " 1 + 2 *" " ( 1 + 2" " f ( 1 + 2" " a [ 1 + 2" " a ."
                eq_refl eq_refl eq_refl eq_refl)
    as (H1 & H2 & H3 & H4 & H5).
  split; [| split; [| split; [| split]]].
  - exact (H1 (spells_text_of [TLit "1"; TChar "+"; TLit "2"; TChar "*"])).
  - exact (H2 (spells_text_of [TChar "("; TLit "1"; TChar "+"; TLit "2"])).
  - exact (H3 (spells_text_of
                 [TId "f"; TChar "("; TLit "1"; TChar "+"; TLit "2"])).
  - exact (H4 (spells_text_of
                 [TId "a"; TChar "["; TLit "1"; TChar "+"; TLit "2"])).
  - exact (H5 (spells_text_of [TId "a"; TChar "."])).
Defined.

Lemma X20_witness :
  (exists a,
     Compile sample_host New " total" = (Compiled a, New) /\
     Eval sample_host (Set_ New "total" (VInt64 7)) a = Ret (VInt64 7) None /\
     (env New !! "total" = None ->
      Eval sample_host New a = UnboundName "total")) /\
  (exists a,
     Compile sample_host New " 007" = (Compiled a, New) /\
     Eval sample_host New a = Ret (VInt64 7) None /\
     in_int64 7).
Proof.
  split.
  - exact (proj1 (X20_names_and_literals sample_host New "total" "007"
                    (VInt64 7) " total" " 007")
             eq_refl (spells_text_of [TId "total"])).
  - exact (proj2 (X20_names_and_literals sample_host New "total" "007"
                    (VInt64 7) " total" " 007")
             eq_refl (spells_text_of [TLit "007"])).
Defined.

Lemma X21_witness :
  exists a,
    Compile sample_host New " for x in 1 / 0" = (Compiled a, New) /\
    Eval sample_host sample_vm a = Ret VNil None.
Proof.
  exact (X21_for_statement_evaluates_to_nil sample_host New sample_vm "x"
           (PCons (OLit "1") OpDiv (PLast (OLit "0"))) " for x in 1 / 0"
           eq_refl eq_refl
           (spells_text_of [TFor; TId "x"; TIn; TLit "1"; TChar "/"; TLit "0"])).
Defined.

(** X22.  Accesses from the text to the value.  [w.n] compiles to a tree
    that reads the exported field [n] of the struct bound to [w], also
    through a pointer to it, and the key [n] of the [map[string]T] bound to
    [w]; [w[ds]] with a decimal literal compiles to a tree that reads the
    element of that index of the slice bound to [w], and the key that is the
    text of the number of the [map[string]T] bound to [w].  Where [w] is
    bound to a map to whose key type a string is not assignable, both trees
    panic in [reflect.Value.MapIndex]. *)
Theorem X22_compiled_accesses_evaluate
    (h : Host) (v v' : VM) (w n ds : string) (s1 s2 : string) :
  ident_ok w = true -> ident_ok n = true -> lit_ok ds = true ->
  (spells [TId w; TChar "."; TId n] s1 ->
   exists a,
     Compile h v s1 = (Compiled a, v) /\
     (forall t fields x,
        env v' !! w = Some (VStruct t fields) \/
        env v' !! w = Some (VPtr (Some (VStruct t fields))) ->
        assoc n fields = Some (true, x) -> Eval h v' a = Ret x None) /\
     (forall entries x,
        env v' !! w = Some (VMap entries) -> assoc n entries = Some x ->
        Eval h v' a = Ret x None) /\
     (forall entries,
        env v' !! w = Some (VMapOf KeyOther entries) ->
        Eval h v' a = KeyPanic)) /\
  (spells [TId w; TChar "["; TLit ds; TChar "]"] s2 ->
   exists a,
     Compile h v s2 = (Compiled a, v) /\
     (forall elems,
        env v' !! w = Some (VSlice elems) ->
        digits_value ds < Z.of_nat (length elems) ->
        Eval h v' a
          = Ret (nth (Z.to_nat (digits_value ds)) elems VNil) None) /\
     (forall entries x,
        env v' !! w = Some (VMap entries) ->
        assoc (FormatInt (digits_value ds)) entries = Some x ->
        Eval h v' a = Ret x None) /\
     (forall entries,
        env v' !! w = Some (VMapOf KeyOther entries) ->
        Eval h v' a = KeyPanic)).
Proof.
  intros Hw Hn Hds. split; intros Hsp.
  - exists (MemberExpr (IdentExpr w) n). split; [| split; [| split]].
    + apply (Compile_phrase h v (PLast (OMember (OId w) n))); [| exact Hsp].
      cbn. now rewrite Hw, Hn.
    + intros t fields x [Hv | Hv] Hf; cbn [Eval]; rewrite Hv; cbn;
        now rewrite Hf.
    + intros entries x Hv Hf. cbn [Eval]. rewrite Hv. cbn. now rewrite Hf.
    + intros entries Hv. cbn [Eval]. rewrite Hv. reflexivity.
  - exists (ItemExpr (IdentExpr w) (LitExpr (VInt64 (digits_value ds)))).
    split; [| split; [| split]].
    + apply (Compile_phrase h v (PLast (OItem (OId w) (PLast (OLit ds)))));
        [| exact Hsp].
      cbn. now rewrite Hw, Hds.
    + intros elems Hv Hlen. cbn [Eval]. rewrite Hv. cbn.
      pose proof (lit_value_range ds Hds) as Hr.
      assert (0 <= digits_value ds).
      { unfold digits_value. destruct (NilEmpty.uint_of_string ds); lia. }
      destruct (Z.ltb_spec (digits_value ds) 0); [lia |].
      destruct (Z.leb_spec (Z.of_nat (length elems)) (digits_value ds));
        [lia | reflexivity].
    + intros entries x Hv Hf. cbn [Eval]. rewrite Hv. cbn. now rewrite Hf.
    + intros entries Hv. cbn [Eval]. rewrite Hv. reflexivity.
Qed.

Lemma X22_witness :
  (exists a,
     Compile sample_host New " c . N" = (Compiled a, New) /\
     Eval sample_host sample_vm a = Ret (VInt64 1) None) /\
  (exists a,
     Compile sample_host New " xs [ 2 ]" = (Compiled a, New) /\
     Eval sample_host sample_vm a = Ret (VInt64 30) None) /\
  (exists a,
     Compile sample_host New " ids . k" = (Compiled a, New) /\
     Eval sample_host typed_vm a = KeyPanic).
Proof.
  split; [| split].
  - destruct (proj1 (X22_compiled_accesses_evaluate sample_host New sample_vm
                       "c" "N" "2" " c . N" " xs [ 2 ]"
                       eq_refl eq_refl eq_refl)
                (spells_text_of [TId "c"; TChar "."; TId "N"]))
      as (a & Hc & Hs & _).
    exists a. split; [exact Hc |].
    exact (Hs Counter [("N", (true, VInt64 1))] (VInt64 1)
             (or_introl eq_refl) eq_refl).
  - destruct (proj2 (X22_compiled_accesses_evaluate sample_host New sample_vm
                       "xs" "N" "2" " c . N" " xs [ 2 ]"
                       eq_refl eq_refl eq_refl)
                (spells_text_of [TId "xs"; TChar "["; TLit "2"; TChar "]"]))
      as (a & Hc & Hs & _).
    exists a. split; [exact Hc |].
    refine (Hs [VInt64 10; VInt64 20; VInt64 30] eq_refl _).
    vm_compute. reflexivity.
  - destruct (proj1 (X22_compiled_accesses_evaluate sample_host New typed_vm
                       "ids" "k" "2" " ids . k" " xs [ 2 ]"
                       eq_refl eq_refl eq_refl)
                (spells_text_of [TId "ids"; TChar "."; TId "k"]))
      as (a & Hc & _ & _ & Hp).
    exists a. split; [exact Hc |].
    exact (Hp [(VInt64 1, VString "a")] eq_refl).
Defined.

Lemma X23_witness :
  Compile sample_host New " for" = (SyntaxError " for", New) /\
  Compile sample_host New " for x xs" = (SyntaxError " for x xs", New) /\
  Compile sample_host New " for x in" = (SyntaxError " for x in", New).
Proof.
  split; [| split].
  - refine (proj1 (X23_for_needs_its_parts sample_host New "x" []
                     " for" eq_refl eq_refl) _ (spells_text_of [TFor])).
    vm_compute. intuition discriminate.
  - refine (proj1 (proj2 (X23_for_needs_its_parts sample_host New "x"
                            [TId "xs"] " for x xs" eq_refl eq_refl)) _
              (spells_text_of [TFor; TId "x"; TId "xs"])).
    vm_compute. intuition discriminate.
  - refine (proj2 (proj2 (X23_for_needs_its_parts sample_host New "x" []
                            " for x in" eq_refl eq_refl)) _
              (spells_text_of [TFor; TId "x"; TIn])).
    vm_compute. intuition discriminate.
Defined.

(** ** The parser accepts the grammar only *)

Lemma grammar_ok_true : grammar_ok = true.
Proof. vm_compute. reflexivity. Qed.

Lemma back_walk (n : nat) :
  forall (s : Z) (st : list Z),
    valid_stack (s :: st) = true -> (n <= length st)%nat ->
    In (nth n (s :: st) 0) (back yyEdges n s).
Proof.
  induction n as [| n IH]; intros s st Hv Hn.
  - cbn. now left.
  - destruct st as [| p st]; [cbn in Hn; lia |].
    apply valid_stack_cons in Hv as [He Hv].
    cbn [back]. apply in_flat_map. exists p.
    split; [now apply preds_In |].
    cbn in Hn. apply (IH p st Hv). lia.
Qed.

(** The symbols under a state whose default action is a production. *)
Lemma rhs_codes (c : config) (r : Z) :
  Inv c -> idx yyDef (yys (top c)) = Some r -> 0 < r ->
  r < 18 /\
  idx yyR2 r = Some (Z.of_nat (length (yyRhs r))) /\
  (length (yyRhs r) <= length (below c))%nat /\
  (forall i, (i < length (yyRhs r))%nat ->
     idx yyChk (yys (nth i (top c :: below c) yySymType_zero))
       = Some (nth i (rev (yyRhs r)) 0)) /\
  (9 <= r <= 12 ->
   simple (yys (top c)) = false /\
   forall k, In k yyTokens -> decide (yys (top c)) k = DDefault ->
             ~ In k yyContinues).
Proof.
  intros (Hv & _ & _) Hdef Hr.
  unfold states_of in Hv.
  change (map yys (top c :: below c)) with (yys (top c) :: map yys (below c)) in Hv.
  pose proof (valid_stack_top _ _ Hv) as Hs.
  pose proof grammar_ok_true as Hok. unfold grammar_ok in Hok.
  apply andb_prop in Hok as [Hok _].
  rewrite forallb_forall in Hok. specialize (Hok _ Hs).
  unfold rhs_ok in Hok. rewrite Hdef in Hok.
  destruct (Z.ltb_spec 0 r); [| lia].
  apply andb_prop in Hok as [Hok Hops]. apply andb_prop in Hok as [Hok Hpaths].
  apply andb_prop in Hok as [Hlt Hr2]. apply Z.ltb_lt in Hlt.
  rewrite forallb_forall in Hpaths.
  assert (Hwalk : forall i, (i < length (yyRhs r))%nat ->
            (i <= length (map yys (below c)))%nat ->
            nth i (yys (top c) :: map yys (below c)) 0 <> 0 /\
            idx yyChk (nth i (yys (top c) :: map yys (below c)) 0)
              = Some (nth i (rev (yyRhs r)) 0)).
  { intros i Hi Hlen.
    specialize (Hpaths i). rewrite in_seq in Hpaths.
    specialize (Hpaths ltac:(lia)). rewrite forallb_forall in Hpaths.
    specialize (Hpaths _ (back_walk i _ _ Hv Hlen)).
    apply andb_prop in Hpaths as [Hnz Hcode].
    apply negb_true_iff, Z.eqb_neq in Hnz. split; [exact Hnz |].
    destruct (idx yyChk _) as [code |]; [| discriminate].
    apply Z.eqb_eq in Hcode. now subst. }
  assert (Hdepth : (length (yyRhs r) <= length (below c))%nat).
  { destruct (Nat.le_gt_cases (length (yyRhs r)) (length (below c)))
      as [Hle | Hgt]; [exact Hle |].
    destruct (Hwalk (length (below c)) Hgt) as [Hnz _];
      [now rewrite length_map |].
    pose proof (valid_stack_bottom _ Hv) as Hb. cbn [length] in Hb.
    rewrite length_map in Hb.
    replace (S (length (below c)) - 1)%nat with (length (below c)) in Hb by lia.
    contradiction. }
  split; [exact Hlt |]. split.
  { destruct (idx yyR2 r) as [n |]; [| discriminate].
    apply Z.eqb_eq in Hr2. now subst. }
  split; [exact Hdepth |]. split.
  - intros i Hi.
    destruct (Hwalk i Hi) as [_ Hcode]; [rewrite length_map; lia |].
    change (yys (top c) :: map yys (below c))
      with (map yys (top c :: below c)) in Hcode.
    change 0 with (yys yySymType_zero) in Hcode at 1.
    now rewrite map_nth in Hcode.
  - intros Hop.
    destruct (Z.leb_spec 9 r); [| lia]. destruct (Z.leb_spec r 12); [| lia].
    cbn [andb] in Hops. apply andb_prop in Hops as [Hns Hks].
    apply negb_true_iff in Hns. split; [exact Hns |].
    intros k Hk Hd. rewrite forallb_forall in Hks. specialize (Hks _ Hk).
    rewrite Hd in Hks. apply negb_true_iff in Hks.
    intros Hin. apply in_list_In in Hin. congruence.
Qed.

(** The state after a reduction carries the nonterminal of the
    production. *)
Lemma goto_code (r p g : Z) :
  0 < r < 18 -> In p yyStates -> yygoto r p = Some g ->
  exists nt, idx yyR1 r = Some nt /\ idx yyChk g = Some (- nt).
Proof.
  intros Hr Hp Hg.
  pose proof grammar_ok_true as Hok. unfold grammar_ok in Hok.
  apply andb_prop in Hok as [_ Hok].
  rewrite forallb_forall in Hok.
  assert (Hin : In r (map Z.of_nat (seq 1 17))).
  { rewrite <- (Z2Nat.id r) by lia. apply in_map, in_seq. lia. }
  specialize (Hok _ Hin). unfold goto_ok in Hok.
  rewrite forallb_forall in Hok. specialize (Hok _ Hp). rewrite Hg in Hok.
  destruct (idx yyChk g) as [code |]; [| discriminate].
  destruct (idx yyR1 r) as [nt |]; [| discriminate].
  apply Z.eqb_eq in Hok. subst. now exists nt.
Qed.

(** What a reduction consulted of the goto table. *)
Lemma reduce_goto (c c' : config) (r : Z) (n : nat) (base : yySymType)
    (rest : list yySymType) :
  reduce c r = Continue c' -> idx yyR2 r = Some (Z.of_nat n) ->
  skipn n (top c :: below c) = base :: rest ->
  yygoto r (yys base) = Some (yys (top c')).
Proof.
  unfold reduce. intros Hred Hn Hskip. rewrite Hn, Nat2Z.id, Hskip in Hred.
  destruct (yygoto r (yys base)) as [g |]; [| discriminate].
  destruct (action r c _) as [[VAL' l'] |]; [| discriminate].
  now injection Hred as <-.
Qed.

(** Symbols from their codes. *)

Lemma tokno_bounds (t : tok) : 1 <= tokno t <= 17.
Proof.
  pose proof (yyTokOf_range (tok_char t) (tokno t) (tok_known t)) as Hin.
  unfold yyTokens in Hin. apply in_map_iff in Hin as (n & <- & Hn).
  apply in_seq in Hn. lia.
Qed.

Lemma sym_code_expr (sy : sym) : sym_code sy = -2 -> exists x, sy = SExpr x.
Proof.
  destruct sy as [t | x | l | p]; cbn; try discriminate.
  - pose proof (tokno_bounds t). lia.
  - now exists x.
Qed.

Lemma sym_code_args (sy : sym) : sym_code sy = -3 -> exists l, sy = SArgs l.
Proof.
  destruct sy as [t | x | l | p]; cbn; try discriminate.
  - pose proof (tokno_bounds t). lia.
  - now exists l.
Qed.

Lemma sym_code_tok (sy : sym) (k : Z) :
  sym_code sy = k -> 0 < k -> exists t, sy = STok t /\ tokno t = k.
Proof.
  destruct sy as [t | x | l | p]; cbn; try lia. intros Hk _. now exists t.
Qed.

(** A token from its number. *)
Lemma tokno_inv (t : tok) :
  match tokno t with
  | 4 => exists w, t = TId w
  | 5 => exists ds, t = TLit ds
  | 6 => t = TFor
  | 7 => t = TIn
  | 8 => t = TChar ","
  | 9 => t = TChar "("
  | 10 => t = TChar ")"
  | 11 => t = TChar "+"
  | 12 => t = TChar "-"
  | 13 => t = TChar "*"
  | 14 => t = TChar "/"
  | 15 => t = TChar "."
  | 16 => t = TChar "["
  | 17 => t = TChar "]"
  | _ => True
  end.
Proof.
  destruct t as [ds | w | | | c].
  - now exists ds.
  - now exists w.
  - reflexivity.
  - reflexivity.
  - destruct c as [[|] [|] [|] [|] [|] [|] [|] [|]]; vm_compute; reflexivity.
Qed.

Lemma stack_pop (x y : yySymType) (st : list yySymType) (syms : list sym) :
  stack_is (x :: y :: st) syms ->
  exists sy rs,
    syms = sy :: rs /\ idx yyChk (yys x) = Some (sym_code sy) /\
    sym_val sy x /\ stack_is (y :: st) rs.
Proof.
  intros Hst. inversion Hst; subst. eauto 10.
Qed.

Lemma shaped_other (k k' : Z) (syms : list sym) :
  shaped k syms -> ~ In k' yyContinues -> shaped k' syms.
Proof.
  destruct syms as [| sy syms]; [auto |].
  cbn [shaped]. intros [_ Hs] Hk. split; [| exact Hs].
  destruct sy as [| [|] | |]; cbn; auto.
Qed.

Lemma stack_states (c : config) (x : yySymType) :
  Inv c -> In x (top c :: below c) -> In (yys x) yyStates.
Proof.
  intros Hinv Hx. pose proof (states_all c Hinv) as Hall.
  rewrite List.Forall_forall in Hall. now apply Hall.
Qed.

(** The stack after a reduction. *)
Lemma reduced_stack (c c' : config) (r : Z) (n : nat) (base : yySymType)
    (rest : list yySymType) (rs : list sym) (new : sym) (k k0 : Z) :
  Inv c -> reduce c r = Continue c' -> 0 < r < 18 ->
  idx yyR2 r = Some (Z.of_nat n) ->
  skipn n (top c :: below c) = base :: rest ->
  below c' = base :: rest ->
  stack_is (base :: rest) rs -> shaped k0 rs ->
  idx yyR1 r = Some (- sym_code new) -> sym_code new < 0 ->
  sym_val new (top c') -> sym_shaped k new ->
  stack_is (top c' :: below c') (new :: rs) /\ shaped k (new :: rs).
Proof.
  intros Hinv Hred Hr Hn Hskip Hb Hst Hsh Hnt Hneg Hval Hshape.
  assert (Hbase : In (yys base) yyStates).
  { apply (stack_states c base Hinv).
    rewrite <- (firstn_skipn n (top c :: below c)), Hskip.
    apply in_or_app. right. now left. }
  pose proof (reduce_goto c c' r n base rest Hred Hn Hskip) as Hg.
  destruct (goto_code r _ _ Hr Hbase Hg) as (nt & Hnt' & Hcode).
  rewrite Hnt in Hnt'. injection Hnt' as <-.
  rewrite Z.opp_involutive in Hcode.
  split.
  - rewrite Hb. now constructor.
  - cbn [shaped]. split; [exact Hshape |].
    apply (shaped_other k0); [exact Hsh |].
    unfold yyContinues. cbn. lia.
Qed.

Ltac pop_sym Hst sy rs Hk Hv :=
  apply stack_pop in Hst as (sy & rs & -> & Hk & Hv & Hst).

(** The code of the [i]th entry from the top, from the tables. *)
Ltac code_at Hcodes i Hk :=
  let Hc := fresh "Hc" in
  pose proof (Hcodes i ltac:(cbn; lia)) as Hc; cbn in Hc;
  rewrite Hk in Hc; injection Hc as Hc.

Ltac is_expr Hc x :=
  apply sym_code_expr in Hc as [x ->].

Ltac is_args Hc l :=
  apply sym_code_args in Hc as [l ->].

Ltac is_tok Hc t :=
  let Ht := fresh "Ht" in
  let Hi := fresh "Hi" in
  apply sym_code_tok in Hc as (t & -> & Ht); [| lia];
  pose proof (tokno_inv t) as Hi; rewrite Ht in Hi; cbv beta iota in Hi.

Ltac same_yields :=
  cbn [rev app]; rewrite !flat_map_app;
  cbn [flat_map sym_toks program_toks phrase_toks operand_toks arglist_toks app];
  rewrite ?app_nil_r, <- ?app_assoc; cbn [app]; rewrite <- ?app_assoc;
  reflexivity.

Lemma yygoto_program (r b : Z) :
  1 <= r <= 3 -> In b yyStates -> yygoto r b = Some 1.
Proof.
  intros Hr Hb.
  assert (0 <= b).
  { unfold yyStates in Hb. apply in_map_iff in Hb as (n & <- & _). lia. }
  assert (Hcases : r = 1 \/ r = 2 \/ r = 3) by lia.
  destruct Hcases as [-> | [-> | ->]]; unfold yygoto;
    match goal with
    | |- context [idx yyR1 ?r] => change (idx yyR1 r) with (Some 1)
    end; cbv beta iota;
    change (idx yyPgo 1) with (Some 52); cbv beta iota zeta;
    unfold yyLast; (destruct (Z.leb_spec 53 (52 + b + 1)); [reflexivity | lia]).
Qed.

Lemma reduce_below (c c' : config) (r : Z) (n : nat) (base : yySymType)
    (rest : list yySymType) :
  reduce c r = Continue c' -> idx yyR2 r = Some (Z.of_nat n) ->
  skipn n (top c :: below c) = base :: rest ->
  below c' = base :: rest.
Proof.
  unfold reduce. intros Hred Hn Hskip. rewrite Hn, Nat2Z.id, Hskip in Hred.
  destruct (yygoto r (yys base)) as [g |]; [| discriminate].
  destruct (action r c _) as [[VAL' l'] |]; [| discriminate].
  now injection Hred as <-.
Qed.

Section Tracking.

Variable h : Host.

(** A reduction keeps the stack in step with the grammar. *)
Lemma reduce_tracks (c c' : config) (r : Z) (syms : list sym) (k : Z) :
  Inv c -> stack_is (top c :: below c) syms -> shaped k syms ->
  In k yyTokens ->
  (simple (yys (top c)) = true \/ decide (yys (top c)) k = DDefault) ->
  idx yyDef (yys (top c)) = Some r -> 0 < r ->
  reduce c r = Continue c' ->
  exists syms',
    stack_is (top c' :: below c') syms' /\ shaped k syms' /\
    flat_map sym_toks (rev syms') = flat_map sym_toks (rev syms) /\
    same_input c c' /\
    (forall p rest', syms' = SProgram p :: rest' ->
                     e (lex c') = program_ast p).
Proof.
  intros Hinv Hst Hsh Hk Hwhy Hdef Hr Hred.
  destruct (rhs_codes c r Hinv Hdef Hr) as (Hlt & Hr2 & Hdepth & Hcodes & Hops).
  assert (Hcases : r = 1 \/ r = 2 \/ r = 3 \/ r = 4 \/ r = 5 \/ r = 6 \/
                   r = 7 \/ r = 8 \/ (9 <= r <= 12) \/ r = 13 \/ r = 14 \/
                   r = 15 \/ r = 16 \/ r = 17) by lia.
  remember (below c) as bl eqn:Hb.
  destruct Hcases as [-> | [-> | [-> | [-> | [-> | [-> | [-> | [-> |
                     [Hop | [-> | [-> | [-> | [-> | ->]]]]]]]]]]]]].
  - (* production 1: program -> FOR IDENT IN expr *)
    cbn [yyRhs length] in *.
    destruct bl as [| x3 [| x2 [| x1 [| base rest]]]]; cbn [length] in Hdepth;
      try lia.
    symmetry in Hb.
    pop_sym Hst s4 r4 Hk4 Hv4. pop_sym Hst s3 r3 Hk3 Hv3.
    pop_sym Hst s2 r2 Hk2 Hv2. pop_sym Hst s1 r1 Hk1 Hv1.
    code_at Hcodes 0%nat Hk4. code_at Hcodes 1%nat Hk3.
    code_at Hcodes 2%nat Hk2. code_at Hcodes 3%nat Hk1.
    is_expr Hc x. is_tok Hc0 t3. is_tok Hc1 t2. is_tok Hc2 t1.
    destruct Hi0 as [w ->]. subst t3 t1.
    cbn [shaped] in Hsh. destruct Hsh as (_ & _ & _ & _ & Hsh).
    assert (Hskip : skipn 4 (top c :: below c) = base :: rest)
      by (now rewrite Hb).
    destruct (reduce_for1 c x3 x2 x1 base rest Hb)
      as (c2 & Hred2 & Hs2 & Hin2 & He2).
    { apply yygoto_program; [lia |]. apply (stack_states c base Hinv).
      rewrite Hb. cbn. auto 10. }
    rewrite Hred in Hred2. injection Hred2 as <-.
    exists (SProgram (PFor w x) :: r1).
    destruct (reduced_stack c c' 1 4 base rest r1 (SProgram (PFor w x)) k _
                Hinv Hred ltac:(lia) Hr2 Hskip
                (reduce_below c c' 1 4 base rest Hred Hr2 Hskip)
                Hst Hsh eq_refl ltac:(cbn; lia) I I) as [Hst' Hsh'].
    split; [exact Hst' |]. split; [exact Hsh' |].
    split; [same_yields |]. split; [exact Hin2 |].
    intros p rest' [= <- _]. cbn in Hv2, Hv4 |- *. now rewrite He2, Hv2, Hv4.
  - (* production 2: program -> FOR IDENT ',' IDENT IN expr *)
    cbn [yyRhs length] in *.
    destruct bl as [| x5 [| x4 [| x3 [| x2 [| x1 [| base rest]]]]]];
      cbn [length] in Hdepth; try lia.
    symmetry in Hb.
    pop_sym Hst s6 r6 Hk6 Hv6. pop_sym Hst s5 r5 Hk5 Hv5.
    pop_sym Hst s4 r4 Hk4 Hv4. pop_sym Hst s3 r3 Hk3 Hv3.
    pop_sym Hst s2 r2 Hk2 Hv2. pop_sym Hst s1 r1 Hk1 Hv1.
    code_at Hcodes 0%nat Hk6. code_at Hcodes 1%nat Hk5.
    code_at Hcodes 2%nat Hk4. code_at Hcodes 3%nat Hk3.
    code_at Hcodes 4%nat Hk2. code_at Hcodes 5%nat Hk1.
    is_expr Hc x. is_tok Hc0 t5. is_tok Hc1 t4. is_tok Hc2 t3.
    is_tok Hc3 t2. is_tok Hc4 t1.
    destruct Hi0 as [w2 ->]. destruct Hi2 as [w1 ->]. subst t5 t3 t1.
    cbn [shaped] in Hsh. destruct Hsh as (_ & _ & _ & _ & _ & _ & Hsh).
    assert (Hskip : skipn 6 (top c :: below c) = base :: rest)
      by (now rewrite Hb).
    destruct (reduce_for2 c x5 x4 x3 x2 x1 base rest Hb)
      as (c2 & Hred2 & Hs2 & Hin2 & He2).
    { apply yygoto_program; [lia |]. apply (stack_states c base Hinv).
      rewrite Hb. cbn. auto 10. }
    rewrite Hred in Hred2. injection Hred2 as <-.
    exists (SProgram (PForPair w1 w2 x) :: r1).
    destruct (reduced_stack c c' 2 6 base rest r1
                (SProgram (PForPair w1 w2 x)) k _
                Hinv Hred ltac:(lia) Hr2 Hskip
                (reduce_below c c' 2 6 base rest Hred Hr2 Hskip)
                Hst Hsh eq_refl ltac:(cbn; lia) I I) as [Hst' Hsh'].
    split; [exact Hst' |]. split; [exact Hsh' |].
    split; [same_yields |]. split; [exact Hin2 |].
    intros p rest' [= <- _]. cbn in Hv2, Hv4, Hv6 |- *.
    now rewrite He2, Hv2, Hv4, Hv6.
  - (* production 3: program -> expr *)
    cbn [yyRhs length] in *.
    destruct bl as [| base rest]; cbn [length] in Hdepth; try lia.
    symmetry in Hb.
    pop_sym Hst s1 r1 Hk1 Hv1. code_at Hcodes 0%nat Hk1. is_expr Hc x.
    cbn [shaped] in Hsh. destruct Hsh as (_ & Hsh).
    assert (Hskip : skipn 1 (top c :: below c) = base :: rest)
      by (now rewrite Hb).
    destruct (reduce_program c base rest Hb) as (c2 & Hred2 & Hs2 & Hin2 & He2).
    { apply yygoto_program; [lia |]. apply (stack_states c base Hinv).
      rewrite Hb. cbn. auto 10. }
    rewrite Hred in Hred2. injection Hred2 as <-.
    exists (SProgram (PExpr x) :: r1).
    destruct (reduced_stack c c' 3 1 base rest r1 (SProgram (PExpr x)) k _
                Hinv Hred ltac:(lia) Hr2 Hskip
                (reduce_below c c' 3 1 base rest Hred Hr2 Hskip)
                Hst Hsh eq_refl ltac:(cbn; lia) I I) as [Hst' Hsh'].
    split; [exact Hst' |]. split; [exact Hsh' |].
    split; [same_yields |]. split; [exact Hin2 |].
    intros p rest' [= <- _]. cbn in Hv1 |- *. now rewrite He2, Hv1.
  - (* production 4: exprs -> (nothing) *)
    cbn [yyRhs length] in *. subst bl.
    assert (Hskip : skipn 0 (top c :: below c) = top c :: below c)
      by reflexivity.
    pose proof (reduce_goto c c' 4 0 _ _ Hred Hr2 Hskip) as Hg.
    destruct (reduce_args_none c _ Hg)
      as (c2 & Hred2 & Hs2 & Hx2 & Hb2 & Hin2 & He2).
    rewrite Hred in Hred2. injection Hred2 as <-.
    exists (SArgs ANone :: syms).
    destruct (reduced_stack c c' 4 0 (top c) (below c) syms (SArgs ANone) k k
                Hinv Hred ltac:(lia) Hr2 Hskip Hb2
                Hst Hsh eq_refl ltac:(cbn; lia) Hx2 I) as [Hst' Hsh'].
    split; [exact Hst' |]. split; [exact Hsh' |].
    split; [cbn [rev]; rewrite flat_map_app; cbn; now rewrite app_nil_r |].
    split; [exact Hin2 |]. intros p rest' [=].
  - (* production 5: exprs -> expr *)
    cbn [yyRhs length] in *.
    destruct bl as [| base rest]; cbn [length] in Hdepth; try lia.
    symmetry in Hb.
    pop_sym Hst s1 r1 Hk1 Hv1. code_at Hcodes 0%nat Hk1. is_expr Hc x.
    cbn [shaped] in Hsh. destruct Hsh as (_ & Hsh).
    assert (Hskip : skipn 1 (top c :: below c) = base :: rest)
      by (now rewrite Hb).
    pose proof (reduce_goto c c' 5 1 _ _ Hred Hr2 Hskip) as Hg.
    destruct (reduce_args_first c base rest _ Hb Hg)
      as (c2 & Hred2 & Hs2 & Hx2 & Hb2 & Hin2 & He2).
    rewrite Hred in Hred2. injection Hred2 as <-.
    exists (SArgs (AFirst x) :: r1).
    destruct (reduced_stack c c' 5 1 base rest r1 (SArgs (AFirst x)) k _
                Hinv Hred ltac:(lia) Hr2 Hskip Hb2
                Hst Hsh eq_refl ltac:(cbn; lia)
                ltac:(cbn in Hv1 |- *; now rewrite Hx2, Hv1) I)
      as [Hst' Hsh'].
    split; [exact Hst' |]. split; [exact Hsh' |].
    split; [same_yields |]. split; [exact Hin2 |]. intros p rest' [=].
  - (* production 6: exprs -> exprs ',' expr *)
    cbn [yyRhs length] in *.
    destruct bl as [| x2 [| x1 [| base rest]]]; cbn [length] in Hdepth;
      try lia.
    symmetry in Hb.
    pop_sym Hst s3 r3 Hk3 Hv3. pop_sym Hst s2 r2 Hk2 Hv2.
    pop_sym Hst s1 r1 Hk1 Hv1.
    code_at Hcodes 0%nat Hk3. code_at Hcodes 1%nat Hk2.
    code_at Hcodes 2%nat Hk1.
    is_expr Hc x. is_tok Hc0 t2. is_args Hc1 l. subst t2.
    cbn [shaped] in Hsh. destruct Hsh as (_ & _ & _ & Hsh).
    assert (Hskip : skipn 3 (top c :: below c) = base :: rest)
      by (now rewrite Hb).
    pose proof (reduce_goto c c' 6 3 _ _ Hred Hr2 Hskip) as Hg.
    destruct (reduce_args_more c x2 x1 base rest _ Hb Hg)
      as (c2 & Hred2 & Hs2 & Hx2 & Hb2 & Hin2 & He2).
    rewrite Hred in Hred2. injection Hred2 as <-.
    exists (SArgs (AMore l x) :: r1).
    destruct (reduced_stack c c' 6 3 base rest r1 (SArgs (AMore l x)) k _
                Hinv Hred ltac:(lia) Hr2 Hskip Hb2
                Hst Hsh eq_refl ltac:(cbn; lia)
                ltac:(cbn in Hv1, Hv3 |- *; now rewrite Hx2, Hv1, Hv3) I)
      as [Hst' Hsh'].
    split; [exact Hst' |]. split; [exact Hsh' |].
    split; [same_yields |]. split; [exact Hin2 |]. intros p rest' [=].
  - (* production 7: expr -> LIT *)
    cbn [yyRhs length] in *.
    destruct bl as [| base rest]; cbn [length] in Hdepth; try lia.
    symmetry in Hb.
    pop_sym Hst s1 r1 Hk1 Hv1. code_at Hcodes 0%nat Hk1. is_tok Hc t1.
    destruct Hi as [ds ->].
    cbn [shaped] in Hsh. destruct Hsh as (_ & Hsh).
    assert (Hskip : skipn 1 (top c :: below c) = base :: rest)
      by (now rewrite Hb).
    pose proof (reduce_goto c c' 7 1 _ _ Hred Hr2 Hskip) as Hg.
    destruct (reduce_LIT c base rest _ Hb Hg)
      as (c2 & Hred2 & Hs2 & Hx2 & Hb2 & Hin2 & He2).
    rewrite Hred in Hred2. injection Hred2 as <-.
    exists (SExpr (PLast (OLit ds)) :: r1).
    destruct (reduced_stack c c' 7 1 base rest r1 (SExpr (PLast (OLit ds))) k _
                Hinv Hred ltac:(lia) Hr2 Hskip Hb2
                Hst Hsh eq_refl ltac:(cbn; lia)
                ltac:(cbn in Hv1 |- *; now rewrite Hx2, Hv1) I)
      as [Hst' Hsh'].
    split; [exact Hst' |]. split; [exact Hsh' |].
    split; [same_yields |]. split; [exact Hin2 |]. intros p rest' [=].
  - (* production 8: expr -> '(' expr ')' *)
    cbn [yyRhs length] in *.
    destruct bl as [| x2 [| x1 [| base rest]]]; cbn [length] in Hdepth;
      try lia.
    symmetry in Hb.
    pop_sym Hst s3 r3 Hk3 Hv3. pop_sym Hst s2 r2 Hk2 Hv2.
    pop_sym Hst s1 r1 Hk1 Hv1.
    code_at Hcodes 0%nat Hk3. code_at Hcodes 1%nat Hk2.
    code_at Hcodes 2%nat Hk1.
    is_tok Hc t3. is_expr Hc0 x. is_tok Hc1 t1. subst t3 t1.
    cbn [shaped] in Hsh. destruct Hsh as (_ & _ & _ & Hsh).
    assert (Hskip : skipn 3 (top c :: below c) = base :: rest)
      by (now rewrite Hb).
    pose proof (reduce_goto c c' 8 3 _ _ Hred Hr2 Hskip) as Hg.
    destruct (reduce_paren c x2 x1 base rest _ Hb Hg)
      as (c2 & Hred2 & Hs2 & Hx2 & Hb2 & Hin2 & He2).
    rewrite Hred in Hred2. injection Hred2 as <-.
    exists (SExpr (PLast (OParen x)) :: r1).
    destruct (reduced_stack c c' 8 3 base rest r1 (SExpr (PLast (OParen x))) k _
                Hinv Hred ltac:(lia) Hr2 Hskip Hb2
                Hst Hsh eq_refl ltac:(cbn; lia)
                ltac:(cbn in Hv2 |- *; now rewrite Hx2, Hv2) I)
      as [Hst' Hsh'].
    split; [exact Hst' |]. split; [exact Hsh' |].
    split; [same_yields |]. split; [exact Hin2 |]. intros p rest' [=].
  - (* productions 9 to 12: expr -> expr op expr *)
    destruct (Hops Hop) as [Hns Hnext].
    destruct Hwhy as [Hsimple | Hd]; [congruence |].
    pose proof (Hnext k Hk Hd) as Hkc.
    assert (Ho : exists o, r = op_rule o /\ nth 1 (rev (yyRhs r)) 0
                                           = tokno (TChar (op_char o))).
    { assert (Hr4 : r = 9 \/ r = 10 \/ r = 11 \/ r = 12) by lia.
      destruct Hr4 as [-> | [-> | [-> | ->]]];
        [exists OpAdd | exists OpSub | exists OpMul | exists OpDiv];
        split; reflexivity. }
    destruct Ho as (o & Hro & Hcode).
    assert (Hlen : length (yyRhs r) = 3%nat)
      by (rewrite Hro; now destruct o).
    assert (Hexprs : nth 0 (rev (yyRhs r)) 0 = -2 /\
                     nth 2 (rev (yyRhs r)) 0 = -2)
      by (rewrite Hro; now destruct o).
    destruct Hexprs as [Hcode0 Hcode2].
    rewrite Hlen in *.
    destruct bl as [| x2 [| x1 [| base rest]]]; cbn [length] in Hdepth;
      try lia.
    symmetry in Hb.
    pop_sym Hst s3 r3 Hk3 Hv3. pop_sym Hst s2 r2 Hk2 Hv2.
    pop_sym Hst s1 r1 Hk1 Hv1.
    pose proof (Hcodes 0%nat ltac:(lia)) as Hc3.
    pose proof (Hcodes 1%nat ltac:(lia)) as Hc2.
    pose proof (Hcodes 2%nat ltac:(lia)) as Hc1.
    cbn [nth] in Hc3, Hc2, Hc1.
    rewrite Hk3, Hcode0 in Hc3. rewrite Hk2, Hcode in Hc2.
    rewrite Hk1, Hcode2 in Hc1.
    injection Hc3 as Hc3. injection Hc2 as Hc2. injection Hc1 as Hc1.
    is_expr Hc3 xr. is_expr Hc1 xl.
    apply sym_code_tok in Hc2 as (t2 & -> & Ht2);
      [| pose proof (tokno_bounds (TChar (op_char o))); lia].
    assert (t2 = TChar (op_char o)) as ->.
    { pose proof (tokno_inv t2) as Hi. rewrite Ht2 in Hi.
      destruct o; exact Hi. }
    cbn [shaped] in Hsh. destruct Hsh as (_ & _ & Hshl & Hsh).
    destruct xl as [a | a' o' x'].
    2:{ exfalso. apply Hshl. destruct o; vm_compute; auto 10. }
    assert (Hskip : skipn 3 (top c :: below c) = base :: rest)
      by (now rewrite Hb).
    pose proof (reduce_goto c c' r 3 _ _ Hred Hr2 Hskip) as Hg.
    rewrite Hro in Hg, Hred.
    destruct (reduce_op o c x2 x1 base rest (yys (top c')) Hb)
      as (c2 & Hred2 & Hs2 & Hx2 & Hb2 & Hin2 & He2).
    { destruct o; exact Hg. }
    rewrite Hred in Hred2. injection Hred2 as <-.
    exists (SExpr (PCons a o xr) :: r1).
    destruct (reduced_stack c c' (op_rule o) 3 base rest r1
                (SExpr (PCons a o xr)) k _
                Hinv Hred ltac:(destruct o; cbn; lia)
                ltac:(rewrite <- Hro; exact Hr2) Hskip Hb2
                Hst Hsh ltac:(now destruct o) ltac:(cbn; lia)
                ltac:(cbn in Hv1, Hv3 |- *; now rewrite Hx2, Hv1, Hv3) Hkc)
      as [Hst' Hsh'].
    split; [exact Hst' |]. split; [exact Hsh' |].
    split; [same_yields |]. split; [exact Hin2 |]. intros p rest' [=].
  - (* production 13: expr -> IDENT '(' exprs ')' *)
    cbn [yyRhs length] in *.
    destruct bl as [| x3 [| x2 [| x1 [| base rest]]]]; cbn [length] in Hdepth;
      try lia.
    symmetry in Hb.
    pop_sym Hst s4 r4 Hk4 Hv4. pop_sym Hst s3 r3 Hk3 Hv3.
    pop_sym Hst s2 r2 Hk2 Hv2. pop_sym Hst s1 r1 Hk1 Hv1.
    code_at Hcodes 0%nat Hk4. code_at Hcodes 1%nat Hk3.
    code_at Hcodes 2%nat Hk2. code_at Hcodes 3%nat Hk1.
    is_tok Hc t4. is_args Hc0 l. is_tok Hc1 t2. is_tok Hc2 t1.
    destruct Hi1 as [f ->]. subst t4 t2.
    cbn [shaped] in Hsh. destruct Hsh as (_ & _ & _ & _ & Hsh).
    assert (Hskip : skipn 4 (top c :: below c) = base :: rest)
      by (now rewrite Hb).
    pose proof (reduce_goto c c' 13 4 _ _ Hred Hr2 Hskip) as Hg.
    destruct (reduce_call c x3 x2 x1 base rest _ Hb Hg)
      as (c2 & Hred2 & Hs2 & Hx2 & Hb2 & Hin2 & He2).
    rewrite Hred in Hred2. injection Hred2 as <-.
    exists (SExpr (PLast (OCall f l)) :: r1).
    destruct (reduced_stack c c' 13 4 base rest r1
                (SExpr (PLast (OCall f l))) k _
                Hinv Hred ltac:(lia) Hr2 Hskip Hb2
                Hst Hsh eq_refl ltac:(cbn; lia)
                ltac:(cbn in Hv1, Hv3 |- *; now rewrite Hx2, Hv1, Hv3) I)
      as [Hst' Hsh'].
    split; [exact Hst' |]. split; [exact Hsh' |].
    split; [same_yields |]. split; [exact Hin2 |]. intros p rest' [=].
  - (* production 14: expr -> expr '.' IDENT '(' exprs ')' *)
    cbn [yyRhs length] in *.
    destruct bl as [| x5 [| x4 [| x3 [| x2 [| x1 [| base rest]]]]]];
      cbn [length] in Hdepth; try lia.
    symmetry in Hb.
    pop_sym Hst s6 r6 Hk6 Hv6. pop_sym Hst s5 r5 Hk5 Hv5.
    pop_sym Hst s4 r4 Hk4 Hv4. pop_sym Hst s3 r3 Hk3 Hv3.
    pop_sym Hst s2 r2 Hk2 Hv2. pop_sym Hst s1 r1 Hk1 Hv1.
    code_at Hcodes 0%nat Hk6. code_at Hcodes 1%nat Hk5.
    code_at Hcodes 2%nat Hk4. code_at Hcodes 3%nat Hk3.
    code_at Hcodes 4%nat Hk2. code_at Hcodes 5%nat Hk1.
    is_tok Hc t6. is_args Hc0 l. is_tok Hc1 t4. is_tok Hc2 t3.
    is_tok Hc3 t2. is_expr Hc4 xl.
    destruct Hi1 as [n ->]. subst t6 t4 t2.
    cbn [shaped] in Hsh. destruct Hsh as (_ & _ & _ & _ & _ & Hshl & Hsh).
    destruct xl as [a | a' o' x'].
    2:{ exfalso. apply Hshl. vm_compute. auto 10. }
    assert (Hskip : skipn 6 (top c :: below c) = base :: rest)
      by (now rewrite Hb).
    pose proof (reduce_goto c c' 14 6 _ _ Hred Hr2 Hskip) as Hg.
    destruct (reduce_method c x5 x4 x3 x2 x1 base rest _ Hb Hg)
      as (c2 & Hred2 & Hs2 & Hx2 & Hb2 & Hin2 & He2).
    rewrite Hred in Hred2. injection Hred2 as <-.
    exists (SExpr (PLast (OMethod a n l)) :: r1).
    destruct (reduced_stack c c' 14 6 base rest r1
                (SExpr (PLast (OMethod a n l))) k _
                Hinv Hred ltac:(lia) Hr2 Hskip Hb2
                Hst Hsh eq_refl ltac:(cbn; lia)
                ltac:(cbn in Hv1, Hv3, Hv5 |- *;
                      now rewrite Hx2, Hv1, Hv3, Hv5) I)
      as [Hst' Hsh'].
    split; [exact Hst' |]. split; [exact Hsh' |].
    split; [same_yields |]. split; [exact Hin2 |]. intros p rest' [=].
  - (* production 15: expr -> expr '.' IDENT *)
    cbn [yyRhs length] in *.
    destruct bl as [| x2 [| x1 [| base rest]]]; cbn [length] in Hdepth;
      try lia.
    symmetry in Hb.
    pop_sym Hst s3 r3 Hk3 Hv3. pop_sym Hst s2 r2 Hk2 Hv2.
    pop_sym Hst s1 r1 Hk1 Hv1.
    code_at Hcodes 0%nat Hk3. code_at Hcodes 1%nat Hk2.
    code_at Hcodes 2%nat Hk1.
    is_tok Hc t3. is_tok Hc0 t2. is_expr Hc1 xl.
    destruct Hi as [n ->]. subst t2.
    cbn [shaped] in Hsh. destruct Hsh as (_ & _ & Hshl & Hsh).
    destruct xl as [a | a' o' x'].
    2:{ exfalso. apply Hshl. vm_compute. auto 10. }
    assert (Hskip : skipn 3 (top c :: below c) = base :: rest)
      by (now rewrite Hb).
    pose proof (reduce_goto c c' 15 3 _ _ Hred Hr2 Hskip) as Hg.
    destruct (reduce_member c x2 x1 base rest _ Hb Hg)
      as (c2 & Hred2 & Hs2 & Hx2 & Hb2 & Hin2 & He2).
    rewrite Hred in Hred2. injection Hred2 as <-.
    exists (SExpr (PLast (OMember a n)) :: r1).
    destruct (reduced_stack c c' 15 3 base rest r1
                (SExpr (PLast (OMember a n))) k _
                Hinv Hred ltac:(lia) Hr2 Hskip Hb2
                Hst Hsh eq_refl ltac:(cbn; lia)
                ltac:(cbn in Hv1, Hv3 |- *; now rewrite Hx2, Hv1, Hv3) I)
      as [Hst' Hsh'].
    split; [exact Hst' |]. split; [exact Hsh' |].
    split; [same_yields |]. split; [exact Hin2 |]. intros p rest' [=].
  - (* production 16: expr -> expr '[' expr ']' *)
    cbn [yyRhs length] in *.
    destruct bl as [| x3 [| x2 [| x1 [| base rest]]]]; cbn [length] in Hdepth;
      try lia.
    symmetry in Hb.
    pop_sym Hst s4 r4 Hk4 Hv4. pop_sym Hst s3 r3 Hk3 Hv3.
    pop_sym Hst s2 r2 Hk2 Hv2. pop_sym Hst s1 r1 Hk1 Hv1.
    code_at Hcodes 0%nat Hk4. code_at Hcodes 1%nat Hk3.
    code_at Hcodes 2%nat Hk2. code_at Hcodes 3%nat Hk1.
    is_tok Hc t4. is_expr Hc0 xi. is_tok Hc1 t2. is_expr Hc2 xl.
    subst t4 t2.
    cbn [shaped] in Hsh. destruct Hsh as (_ & _ & _ & Hshl & Hsh).
    destruct xl as [a | a' o' x'].
    2:{ exfalso. apply Hshl. vm_compute. auto 10. }
    assert (Hskip : skipn 4 (top c :: below c) = base :: rest)
      by (now rewrite Hb).
    pose proof (reduce_goto c c' 16 4 _ _ Hred Hr2 Hskip) as Hg.
    destruct (reduce_item c x3 x2 x1 base rest _ Hb Hg)
      as (c2 & Hred2 & Hs2 & Hx2 & Hb2 & Hin2 & He2).
    rewrite Hred in Hred2. injection Hred2 as <-.
    exists (SExpr (PLast (OItem a xi)) :: r1).
    destruct (reduced_stack c c' 16 4 base rest r1
                (SExpr (PLast (OItem a xi))) k _
                Hinv Hred ltac:(lia) Hr2 Hskip Hb2
                Hst Hsh eq_refl ltac:(cbn; lia)
                ltac:(cbn in Hv1, Hv3 |- *; now rewrite Hx2, Hv1, Hv3) I)
      as [Hst' Hsh'].
    split; [exact Hst' |]. split; [exact Hsh' |].
    split; [same_yields |]. split; [exact Hin2 |]. intros p rest' [=].
  - (* production 17: expr -> IDENT *)
    cbn [yyRhs length] in *.
    destruct bl as [| base rest]; cbn [length] in Hdepth; try lia.
    symmetry in Hb.
    pop_sym Hst s1 r1 Hk1 Hv1. code_at Hcodes 0%nat Hk1. is_tok Hc t1.
    destruct Hi as [w ->].
    cbn [shaped] in Hsh. destruct Hsh as (_ & Hsh).
    assert (Hskip : skipn 1 (top c :: below c) = base :: rest)
      by (now rewrite Hb).
    pose proof (reduce_goto c c' 17 1 _ _ Hred Hr2 Hskip) as Hg.
    destruct (reduce_IDENT c base rest _ Hb Hg)
      as (c2 & Hred2 & Hs2 & Hx2 & Hb2 & Hin2 & He2).
    rewrite Hred in Hred2. injection Hred2 as <-.
    exists (SExpr (PLast (OId w)) :: r1).
    destruct (reduced_stack c c' 17 1 base rest r1 (SExpr (PLast (OId w))) k _
                Hinv Hred ltac:(lia) Hr2 Hskip Hb2
                Hst Hsh eq_refl ltac:(cbn; lia)
                ltac:(cbn in Hv1 |- *; now rewrite Hx2, Hv1) I)
      as [Hst' Hsh'].
    split; [exact Hst' |]. split; [exact Hsh' |].
    split; [same_yields |]. split; [exact Hin2 |]. intros p rest' [=].
Qed.


End Tracking.

Lemma reduce_not_return (c : config) (r code : Z) (l : Lexer) :
  reduce c r <> Return code l.
Proof.
  unfold reduce.
  destruct (idx yyR2 r) as [n |]; [| discriminate].
  destruct (skipn (Z.to_nat n) (top c :: below c)) as [| base rest];
    [discriminate |].
  destruct (yygoto r (yys base)) as [g |]; [| discriminate].
  destruct (action r c _) as [[VAL' l'] |]; discriminate.
Qed.

Lemma decide_shift_code (s k a : Z) :
  decide s k = DShift a -> idx yyChk a = Some k.
Proof.
  unfold decide.
  destruct (idx yyPact s) as [p |]; [| discriminate].
  destruct (p <=? yyFlag); [discriminate |].
  destruct ((p + k <? 0) || (yyLast <=? p + k)); [discriminate |].
  destruct (idx yyAct (p + k)) as [a' |]; [| discriminate].
  destruct (idx yyChk a') as [chk |] eqn:Hchk; [| discriminate].
  destruct (Z.eqb_spec chk k); [| discriminate].
  intros [= <-]. now subst.
Qed.

(** State 1 alone consults the exception table. *)
Lemma exca_state (s : Z) :
  In s yyStates -> idx yyDef s = Some (-2) -> s = 1.
Proof.
  intros Hs. unfold yyStates in Hs. cbn in Hs.
  repeat (destruct Hs as [<- | Hs]; [vm_compute; congruence |]).
  destruct Hs.
Qed.

(** State 0 lies at the bottom of the stack only, and state 1 right
    above it. *)
Lemma state_1_stack (st : list Z) :
  valid_stack (1 :: st) = true -> st = [0].
Proof.
  destruct st as [| p st]; [discriminate |].
  intros Hv. apply valid_stack_cons in Hv as [He Hv].
  assert (p = 0) as ->.
  { unfold edge in He. apply has_edge_In in He.
    unfold yyEdges in He. cbn in He.
    repeat (destruct He as [He | He]; [congruence |]). destruct He. }
  destruct st as [| q st]; [reflexivity |].
  apply valid_stack_cons in Hv as [He0 _].
  apply edge_states in He0 as (_ & _ & Hnz). contradiction.
Qed.

Section Acceptance.

Variable h : Host.
Variable ts : list tok.

Lemma yydefault_continue (c c' : config) :
  Inv c -> yydefault h c = Done (Continue c') ->
  exists r,
    idx yyDef (yys (top c)) = Some r /\ 0 < r /\ reduce c r = Continue c'.
Proof.
  intros Hinv. pose proof Hinv as (Hv & He & Htok).
  pose proof (valid_stack_top _ _ Hv) as Hs.
  destruct (state_checks _ Hs) as [_ Hchk].
  unfold yydefault. cbv zeta.
  destruct (idx yyDef (yys (top c))) as [d |] eqn:Hd; [| discriminate].
  destruct (Z.eqb_spec d (-2)) as [-> | Hexca].
  - destruct (lookahead_total h c Hinv) as (c1 & Hl & Ht & Hb & He1 & Htok1 & _).
    rewrite Hl. rewrite (exca_state _ Hs Hd).
    change (yyExca_find yyExca 1) with (Some [1; -1; -2; 0]).
    cbv beta iota. cbn [yyExca_scan].
    change (1 <? 0) with false. cbn [orb].
    destruct (1 =? yytoken c1).
    + change (-1 <? 0) with true. cbn [andb]. discriminate.
    + change (-2 <? 0) with true. cbn [orb andb].
      change (0 <? 0) with false. cbv beta iota.
      change (0 =? 0) with true. cbv beta iota.
      rewrite He1. change (0 =? 0) with true. cbv beta iota.
      rewrite error_recover_returns
        by (cbn [top below]; rewrite Ht, Hb; now apply states_all).
      discriminate.
  - cbn [andb].
    destruct (Hchk 1 ltac:(vm_compute; auto)) as [_ Hdef].
    unfold default_ok in Hdef. rewrite Hd in Hdef.
    destruct (Z.eqb_spec d (-2)); [contradiction |].
    destruct (Z.eqb_spec d 0) as [-> | Hnz].
    + rewrite He. change (0 =? 0) with true. cbv beta iota.
      rewrite error_recover_returns
        by (cbn [top below]; now apply states_all).
      discriminate.
    + intros Hred. injection Hred as Hred. exists d.
      split; [reflexivity |]. split; [| exact Hred].
      unfold reduce_ok in Hdef. apply andb_prop in Hdef as [Hdef _].
      apply andb_prop in Hdef as [Hpos _]. now apply Z.ltb_lt.
Qed.

Lemma yydefault_return0 (c : config) (l : Lexer) :
  Inv c -> yydefault h c = Done (Return 0 l) ->
  idx yyDef (yys (top c)) = Some (-2).
Proof.
  intros Hinv. pose proof Hinv as (Hv & He & Htok).
  unfold yydefault. cbv zeta.
  destruct (idx yyDef (yys (top c))) as [d |] eqn:Hd; [| discriminate].
  destruct (Z.eqb_spec d (-2)) as [-> | Hexca]; [reflexivity |].
  cbn [andb].
  destruct (Z.eqb_spec d 0) as [-> | Hnz].
  - rewrite He. change (0 =? 0) with true. cbv beta iota.
    rewrite error_recover_returns
      by (cbn [top below]; now apply states_all).
    discriminate.
  - intros Hred. injection Hred as Hred.
    now apply reduce_not_return in Hred.
Qed.

(** The state after the token that comes next is read. *)
Lemma Inv_lookahead (c c1 : config) :
  Inv c -> lookahead h c = Some c1 ->
  Inv c1 /\ top c1 = top c /\ below c1 = below c /\ e (lex c1) = e (lex c).
Proof.
  intros Hinv Hl.
  destruct (lookahead_total h c Hinv) as (c1' & Hl' & Ht & Hb & He1 & Htok1 & _).
  rewrite Hl in Hl'. injection Hl' as <-.
  destruct (lookahead_stack h _ _ Hl) as (_ & _ & _ & _ & _ & _ & He).
  split; [| auto].
  split; [| split; [exact He1 | now right]].
  destruct Hinv as (Hv & _). unfold states_of in *. now rewrite Ht, Hb.
Qed.

(** A turn of the loop keeps the parser in step with the grammar. *)
Lemma tracks_turn (c c' : config) :
  tracks h ts c -> yynewstate h c = Done (Continue c') -> tracks h ts c'.
Proof.
  intros (syms & rest & Hinv & Hst & Hsh & Hat & Hy & He) Hstep.
  assert (Hinv' : Inv c').
  { destruct (yynewstate_total h c Hinv)
      as [(c2 & Hd & Hinv2 & _) | (code & l & Hr)].
    - rewrite Hstep in Hd. now injection Hd as <-.
    - rewrite Hstep in Hr. discriminate. }
  assert (Hreduce : forall c1 r,
            Inv c1 -> top c1 = top c -> below c1 = below c ->
            at_tokens h c1 rest ->
            (simple (yys (top c1)) = true \/
             decide (yys (top c1)) (next_tokno rest) = DDefault) ->
            idx yyDef (yys (top c1)) = Some r -> 0 < r ->
            reduce c1 r = Continue c' -> tracks h ts c').
  { intros c1 r Hinv1 Ht Hb Hat1 Hwhy Hdef Hr Hred.
    rewrite <- Ht, <- Hb in Hst.
    destruct (reduce_tracks c1 c' r syms (next_tokno rest) Hinv1 Hst Hsh
                (next_tokno_range rest) Hwhy Hdef Hr Hred)
      as (syms' & Hst' & Hsh' & Hy' & Hin & He').
    exists syms', rest. split; [exact Hinv' |]. split; [exact Hst' |].
    split; [exact Hsh' |].
    split; [now apply (at_tokens_same_input h c1) |].
    split; [now rewrite Hy' | exact He']. }
  destruct (simple (yys (top c))) eqn:Hsimple.
  - rewrite (yynewstate_simple h c Hsimple) in Hstep.
    destruct (yydefault_continue c c' Hinv Hstep) as (r & Hdef & Hr & Hred).
    apply (Hreduce c r); auto.
  - destruct (peek h c rest Hat) as (c1 & Hl & Hk & Hat1).
    destruct (Inv_lookahead c c1 Hinv Hl) as (Hinv1 & Ht & Hb & He1).
    rewrite (yynewstate_peek h c c1 Hsimple Hl), Hk in Hstep.
    destruct (decide (yys (top c)) (next_tokno rest)) as [a | |] eqn:Hd;
      [| | discriminate].
    + (* a shift *)
      destruct rest as [| t rest'].
      { exfalso.
        destruct (state_checks _ (valid_stack_top _ _ (proj1 Hinv)))
          as [_ Hchk].
        destruct (Hchk 1 ltac:(vm_compute; auto)) as [Hshift _].
        unfold shift_ok in Hshift. cbn [next_tokno] in Hd.
        unfold yyEofCode in Hd. rewrite Hd in Hshift.
        apply andb_prop in Hshift as [Hshift _].
        apply andb_prop in Hshift as [_ Hne]. discriminate Hne. }
      cbn [next_tokno] in Hd.
      destruct (shift_move h c t rest' a Hat Hsimple Hd)
        as (c2 & Hstep2 & Hs2 & Hv2 & Hb2 & Hat2 & He2).
      rewrite (yynewstate_peek h c c1 Hsimple Hl), Hk in Hstep2.
      cbn [next_tokno] in Hstep2. rewrite Hd in Hstep2.
      rewrite Hstep in Hstep2. injection Hstep2 as <-.
      exists (STok t :: syms), rest'.
      split; [exact Hinv' |]. split.
      { rewrite Hb2. constructor; [exact Hst | | exact Hv2].
        rewrite Hs2. now apply (decide_shift_code (yys (top c))). }
      split; [cbn [shaped]; split; [exact I | exact Hsh] |].
      split; [exact Hat2 |]. split.
      { cbn [rev]. rewrite flat_map_app. cbn [flat_map sym_toks app].
        rewrite <- app_assoc. exact Hy. }
      intros p syms' [=].
    + (* the default action *)
      destruct (yydefault_continue c1 c' Hinv1 Hstep) as (r & Hdef & Hr & Hred).
      apply (Hreduce c1 r); auto.
      right. now rewrite Ht.
Qed.

(** When the parse returns 0, the tokens were those of a program, up to a
    token that stands for the end of the input, and the tree is that of
    the program. *)
Lemma tracks_accept (c : config) (l : Lexer) :
  tracks h ts c -> yynewstate h c = Done (Return 0 l) ->
  exists p rest,
    ts = (program_toks p ++ rest)%list /\ next_tokno rest = 1 /\
    e l = program_ast p.
Proof.
  intros (syms & rest & Hinv & Hst & Hsh & Hat & Hy & He) Hstep.
  assert (Hs : yys (top c) = 1).
  { pose proof (valid_stack_top _ _ (proj1 Hinv)) as Hin.
    destruct (simple (yys (top c))) eqn:Hsimple.
    - rewrite (yynewstate_simple h c Hsimple) in Hstep.
      now apply exca_state, (yydefault_return0 c l).
    - exfalso.
      destruct (peek h c rest Hat) as (c1 & Hl & Hk & Hat1).
      destruct (Inv_lookahead c c1 Hinv Hl) as (Hinv1 & Ht & Hb & He1).
      rewrite (yynewstate_peek h c c1 Hsimple Hl) in Hstep.
      destruct (decide (yys (top c)) (yytoken c1)); try discriminate.
      apply (yydefault_return0 c1 l Hinv1) in Hstep.
      rewrite Ht in Hstep. apply exca_state in Hstep; [| exact Hin].
      rewrite Hstep in Hsimple. discriminate. }
  (* the stack is state 1 above state 0 *)
  pose proof (proj1 Hinv) as Hv. unfold states_of in Hv.
  cbn [map] in Hv. rewrite Hs in Hv. apply state_1_stack in Hv.
  destruct (below c) as [| y [| z st]] eqn:Hb; try discriminate.
  inversion Hst as [| x y' st' sy rs Hst0 Hcode Hval]; subst.
  inversion Hst0; subst.
  rewrite Hs in Hcode. injection Hcode as Hcode.
  destruct sy as [t | x | a | p]; cbn in Hcode; try discriminate.
  { pose proof (tokno_bounds t). lia. }
  (* the token that comes next is the end of the input *)
  destruct (peek h c rest Hat) as (c1 & Hl & Hk & Hat1).
  destruct (lookahead_stack h _ _ Hl) as (_ & _ & _ & _ & _ & _ & He1).
  rewrite (yynewstate_simple h c) in Hstep by (now rewrite Hs).
  unfold yydefault in Hstep. cbv zeta in Hstep. rewrite Hs in Hstep.
  change (idx yyDef 1) with (Some (-2)) in Hstep. cbv beta iota in Hstep.
  change (-2 =? -2) with true in Hstep. cbv beta iota in Hstep.
  rewrite Hl, Hk in Hstep.
  change (yyExca_find yyExca 1) with (Some [1; -1; -2; 0]) in Hstep.
  cbv beta iota in Hstep. cbn [yyExca_scan] in Hstep.
  change (1 <? 0) with false in Hstep. cbn [orb] in Hstep.
  destruct (Z.eqb_spec 1 (next_tokno rest)) as [Heof | Hne].
  - change (-1 <? 0) with true in Hstep. cbn [andb] in Hstep.
    injection Hstep as <-.
    exists p, rest. split; [| split; [now symmetry |]].
    + cbn. now rewrite app_nil_r.
    + rewrite He1. now apply (He p []).
  - exfalso. change (-2 <? 0) with true in Hstep. cbn [orb andb] in Hstep.
    change (0 <? 0) with false in Hstep. cbv beta iota in Hstep.
    change (0 =? 0) with true in Hstep. cbv beta iota in Hstep.
    destruct (Inv_lookahead c c1 Hinv Hl) as (Hinv1 & _).
    rewrite (proj1 (proj2 Hinv1)) in Hstep.
    change (0 =? 0) with true in Hstep. cbv beta iota in Hstep.
    rewrite error_recover_returns in Hstep
      by (cbn [top below]; now apply states_all).
    discriminate.
Qed.

Lemma yyloop_tracks (fuel : nat) :
  forall (c : config) (l : Lexer),
    tracks h ts c -> yyloop h fuel c = Some (0, l) ->
    exists p rest,
      ts = (program_toks p ++ rest)%list /\ next_tokno rest = 1 /\
      e l = program_ast p.
Proof.
  induction fuel as [| fuel IH]; intros c l Htr Hloop; [discriminate |].
  cbn [yyloop] in Hloop.
  destruct (yynewstate h c) as [[c1 | code l1 |] | c1] eqn:Hstep;
    try discriminate.
  - apply (IH c1 l); [| exact Hloop]. now apply (tracks_turn c).
  - injection Hloop as -> ->. now apply (tracks_accept c l).
  - exfalso. destruct Htr as (syms & rest & Hinv & _).
    destruct (yynewstate_total h c Hinv)
      as [(c2 & Hd & _) | (code & l2 & Hr)]; congruence.
Qed.

End Acceptance.

(** The character 0 alone is read as the end of the input. *)
Lemma tokno_eof (t : tok) : tokno t = 1 -> t = TChar Ascii.zero.
Proof.
  destruct t as [ds | w | | | ch]; try (vm_compute; discriminate).
  destruct ch as [[] [] [] [] [] [] [] []]; vm_compute; congruence.
Qed.

Lemma next_tokno_eof (rest : list tok) :
  next_tokno rest = 1 -> rest = [] \/ exists r, rest = TChar Ascii.zero :: r.
Proof.
  destruct rest as [| t r]; [now left |].
  cbn [next_tokno]. intros Ht. right. exists r.
  now rewrite (tokno_eof t Ht).
Qed.

Section OnlyTheGrammar.

Variable h : Host.
Variable v : VM.

(** X24.  [Compile] accepts the programs of the grammar only: over the
    tokens of a text it answers the syntax error, unless the tokens are
    those of an expression or a [for] statement of the grammar, alone or
    followed by the character 0; the tree is then that of the program, and
    what follows the character 0 is not looked at. *)
Theorem X24_Compile_accepts_the_grammar_only (ts : list tok) (s : string) :
  forallb tok_ok ts = true -> spells ts s ->
  fst (Compile h v s) = SyntaxError s \/
  exists p rest,
    ts = (program_toks p ++ rest)%list /\
    (rest = [] \/ exists r, rest = TChar Ascii.zero :: r) /\
    fst (Compile h v s) = Compiled (program_ast p).
Proof.
  intros Hok Hsp. unfold Compile.
  destruct (yyParse_total h s NilExpr) as (code & l & Hp). rewrite Hp.
  destruct (Z.eqb_spec code 0) as [-> | Hne]; cbn [negb fst]; [| now left].
  right.
  assert (Htr : tracks h ts (yyinit (mkLexer s NilExpr))).
  { exists [], ts. split; [apply Inv_yyinit |].
    split; [now constructor |]. split; [exact I |].
    split; [apply at_tokens_init; now apply spells_lexes |].
    split; [reflexivity | discriminate]. }
  destruct (yyloop_tracks h ts _ _ l Htr Hp) as (p & rest & Hts & Hk & He).
  exists p, rest. split; [exact Hts |].
  split; [now apply next_tokno_eof | now rewrite He].
Qed.

End OnlyTheGrammar.

Lemma X24_witness :
  (fst (Compile sample_host New " a . b ( 1 ) + c")
   = SyntaxError " a . b ( 1 ) + c" \/
   exists p rest,
     [TId "a"; TChar "."; TId "b"; TChar "("; TLit "1"; TChar ")";
      TChar "+"; TId "c"] = (program_toks p ++ rest)%list /\
     (rest = [] \/ exists r, rest = TChar Ascii.zero :: r) /\
     fst (Compile sample_host New " a . b ( 1 ) + c")
     = Compiled (program_ast p)).
Proof.
  exact (X24_Compile_accepts_the_grammar_only sample_host New
           [TId "a"; TChar "."; TId "b"; TChar "("; TLit "1"; TChar ")";
            TChar "+"; TId "c"]
           " a . b ( 1 ) + c" eq_refl (spells_text_of _)).
Defined.
